(** * Tracklet stitching (deeplabcut/refine_training_dataset/stitch.py)

    A shallow embedding of the [Tracklet] value type and of the
    [TrackletStitcher] pipeline, followed by the properties that the
    specification states about them.

    Conventions of the embedding.
    - Frame indices are numpy [int64] values; they are embedded as [Z]
      (frame counts stay far below 2^63, so no wrap-around is written out).
    - Python exceptions are values of [exn]; a computation that may raise
      returns a [result].
    - Floating-point data is kept abstract: the class [Numeric] lists the
      arithmetic operations and the numpy / scipy / statsmodels calls that
      the source applies to floats.  No law is assumed about them unless a
      theorem states it as a hypothesis.
    - The flow solver of networkx is an injected capability, the class
      [FlowSolver]. *)

From Stdlib Require Import String Ascii.
From Stdlib Require Import List ZArith Lia Bool Arith.
From Stdlib Require Import Permutation Sorted.
Import ListNotations.
Local Open Scope Z_scope.

Set Implicit Arguments.

(* ================================================================== *)
(** * Exceptions and the error monad                                   *)
(* ================================================================== *)

(** The exception classes that the modelled code can raise, with the
    message where the source gives one. *)
Inductive exn : Type :=
| ValueError (msg : string)
| IOError (msg : string)
| KeyError (key : string)
| IndexError
| TypeError
| AttributeError
| OverflowError
| NotImplementedError
| NetworkXNoPath.

Inductive result (A : Type) : Type :=
| Ok (a : A)
| Err (e : exn).

Arguments Ok {A} a.
Arguments Err {A} e.

Definition bind {A B : Type} (m : result A) (k : A -> result B) : result B :=
  match m with
  | Ok a => k a
  | Err e => Err e
  end.

Notation "x <- m ;; k" := (bind m (fun x => k))
  (at level 61, m at next level, right associativity).
Notation "' p <- m ;; k" := (bind m (fun p => k))
  (at level 61, p pattern, m at next level, right associativity).

Fixpoint mapM {A B : Type} (f : A -> result B) (l : list A) : result (list B) :=
  match l with
  | [] => Ok []
  | a :: l' => b <- f a ;; bs <- mapM f l' ;; Ok (b :: bs)
  end.

(** [try: body finally: fin] of Python over a state [S]: [fin] always
    runs, on the state that [body] left behind; an exception raised by
    [fin] replaces the one that was propagating. *)
Definition try_finally {S A : Type}
    (body : S -> result A * S) (fin : S -> result unit * S) : S -> result A * S :=
  fun s =>
    let '(r, s1) := body s in
    let '(rf, s2) := fin s1 in
    match rf with
    | Err e => (Err e, s2)
    | Ok _ => (r, s2)
    end.

(* ================================================================== *)
(** * Sequences: indexing, masks, stable argsort                       *)
(* ================================================================== *)

(** [l[0]] and [l[-1]]; both raise IndexError on an empty sequence. *)
Definition first {A : Type} (l : list A) : result A :=
  match l with
  | [] => Err IndexError
  | a :: _ => Ok a
  end.

Fixpoint last_of {A : Type} (l : list A) : result A :=
  match l with
  | [] => Err IndexError
  | [a] => Ok a
  | _ :: l' => last_of l'
  end.

(** [l[:n]] and [l[-n:]]. *)
Definition head_n {A : Type} (n : nat) (l : list A) : list A := firstn n l.
Definition tail_n {A : Type} (n : nat) (l : list A) : list A :=
  skipn (length l - n) l.

(** [np.isin(a, b)]: for each element of [a], whether it occurs in [b]. *)
Definition isin (a b : list Z) : list bool :=
  map (fun x => existsb (Z.eqb x) b) a.

(** [any] of a boolean array. *)
Definition any (m : list bool) : bool := existsb (fun b => b) m.

(** Boolean-mask indexing [arr[mask]]: numpy raises IndexError when the
    mask and the array differ in length. *)
Fixpoint mask_select {A : Type} (l : list A) (m : list bool) : result (list A) :=
  match l, m with
  | [], [] => Ok []
  | a :: l', b :: m' =>
      r <- mask_select l' m' ;; Ok (if b then a :: r else r)
  | _, _ => Err IndexError
  end.

(** Integer-array indexing [arr[idx]]; IndexError when out of bounds. *)
Definition take {A : Type} (idx : list nat) (l : list A) : result (list A) :=
  mapM (fun i => match nth_error l i with
                 | Some a => Ok a
                 | None => Err IndexError
                 end) idx.

Section MergeSort.
Variable A : Type.
Variable key : A -> Z.

(** Merge of two runs; on equal keys the element of the left run goes
    first, which is what makes the sort stable. *)
Fixpoint merge (l1 : list A) : list A -> list A :=
  fix merge_aux (l2 : list A) : list A :=
    match l1, l2 with
    | [], _ => l2
    | _, [] => l1
    | a1 :: l1', a2 :: l2' =>
        if key a1 <=? key a2 then a1 :: merge l1' l2
        else a2 :: merge_aux l2'
    end.

(** Top-down merge sort; the fuel bounds the recursion depth and
    [length l] is always enough. *)
Fixpoint msort_fuel (fuel : nat) (l : list A) : list A :=
  match fuel with
  | O => l
  | S fuel' =>
      match l with
      | [] | [_] => l
      | _ =>
          let h := Nat.div2 (length l) in
          merge (msort_fuel fuel' (firstn h l)) (msort_fuel fuel' (skipn h l))
      end
  end.

Definition msort (l : list A) : list A := msort_fuel (length l) l.
End MergeSort.

(** [np.argsort(inds, kind='mergesort')]: the positions of [inds] in the
    order of a stable sort of the values. *)
Definition argsort (inds : list Z) : list nat :=
  map snd (msort (@fst Z nat) (combine inds (seq 0 (length inds)))).

(** [all(a < b for a, b in zip(inds, inds[1:]))]. *)
Definition monotonically_increasing (inds : list Z) : bool :=
  forallb (fun p => fst p <? snd p) (combine inds (tl inds)).

(* ================================================================== *)
(** * Floating-point data                                              *)
(* ================================================================== *)

(** The operations that the source applies to floating-point values.
    [of_int] is the implicit int-to-float conversion of a mixed
    expression, [to_int] is Python's [int(x)].  The reductions are the
    numpy calls of the same name; [exp_smoothing] is
    [SimpleExpSmoothing(x).fit(smoothing_level=0.5, optimized=False)
    .fittedvalues] of statsmodels, [directed_hausdorff] is the distance
    component of scipy's function, and [hankelet_dissimilarity] is the
    matrix computation of [dynamic_dissimilarity_with] (Hankel matrices,
    Frobenius norms) as a function of the two centroid sequences. *)
Class Numeric : Type := {
  F : Type;
  fadd : F -> F -> F;
  fsub : F -> F -> F;
  fmul : F -> F -> F;
  fdiv : F -> F -> F;
  fneg : F -> F;
  fsqrt : F -> F;
  flog : F -> F;
  fltb : F -> F -> bool;
  fisnan : F -> bool;
  finf : F;
  feps : F;
  of_int : Z -> F;
  to_int : F -> result Z;
  np_mean : list F -> F;
  np_nanmean : list F -> F;
  np_nanmin : list F -> F;
  np_nanmax : list F -> F;
  exp_smoothing : list F -> list F;
  directed_hausdorff : list (F * F) -> list (F * F) -> F;
  hankelet_dissimilarity : list (F * F) -> list (F * F) -> F;
  fabs : F -> F;
  np_std : list F -> F
}.

(* ================================================================== *)
(** * class Tracklet                                                   *)
(* ================================================================== *)

Section TrackletModel.
Context {N : Numeric}.

(** One frame of [data]: an (nbodyparts, 3) array of (x, y, likelihood). *)
Definition row : Type := list (F * F * F).
Definition vec2 : Type := (F * F)%type.

Record Tracklet : Type := mkTracklet {
  data : list row;
  inds : list Z
}.

(** [Tracklet.__init__].  The memo field [_centroid] is not stored:
    [data] is never mutated, so the cached value is the computed one. *)
Definition Tracklet_init (data0 : list row) (inds0 : list Z) : result Tracklet :=
  if monotonically_increasing inds0 then Ok (mkTracklet data0 inds0)
  else
    let idx := argsort inds0 in
    inds' <- take idx inds0 ;;
    data' <- take idx data0 ;;
    Ok (mkTracklet data' inds').

(** [__len__] *)
Definition len (t : Tracklet) : Z := Z.of_nat (length (inds t)).

(** [__add__] *)
Definition add (self other : Tracklet) : result Tracklet :=
  Tracklet_init (data self ++ data other) (inds self ++ inds other).

(** The values that reach [+] and [sum] in the source: a Python int or
    a tracklet. *)
Inductive pyval : Type :=
| PInt (z : Z)
| PTracklet (t : Tracklet).

(** [__radd__]: [other == 0] holds for the int 0 only (a Tracklet has no
    [__eq__], so comparing it with 0 is False); [__add__] then reads
    [other.data], which an int does not have. *)
Definition radd (self : Tracklet) (other : pyval) : result Tracklet :=
  match other with
  | PInt 0 => Ok self
  | PInt _ => Err AttributeError
  | PTracklet o => add self o
  end.

(** [a + b] as Python dispatches it on these values. *)
Definition py_add (a b : pyval) : result pyval :=
  match a, b with
  | PInt x, PInt y => Ok (PInt (x + y))
  | PInt _, PTracklet t => r <- radd t a ;; Ok (PTracklet r)
  | PTracklet t, PTracklet o => r <- add t o ;; Ok (PTracklet r)
  | PTracklet _, PInt _ => Err AttributeError
  end.

(** The builtin [sum(xs)]: a left fold of [+] from the int 0. *)
Fixpoint sum_from (acc : pyval) (xs : list pyval) : result pyval :=
  match xs with
  | [] => Ok acc
  | x :: xs' => acc' <- py_add acc x ;; sum_from acc' xs'
  end.

Definition py_sum (xs : list Tracklet) : result pyval :=
  sum_from (PInt 0) (map PTracklet xs).

(** [start] and [end] properties. *)
Definition start (t : Tracklet) : result Z := first (inds t).
Definition end_ (t : Tracklet) : result Z := last_of (inds t).

(** [__lt__]: this tracklet precedes the other one. *)
Definition lt (self other : Tracklet) : result bool :=
  e <- end_ self ;; s <- start other ;; Ok (e <? s).

(** [__gt__]: this tracklet follows the other one. *)
Definition gt (self other : Tracklet) : result bool :=
  s <- start self ;; e <- end_ other ;; Ok (s >? e).

(** [__contains__]: [np.isin(self.inds, other.inds, assume_unique=True)
    .any()], with [np.isin] as documented (element-wise membership). *)
Definition contains (self other_tracklet : Tracklet) : bool :=
  any (isin (inds self) (inds other_tracklet)).

(** [a in b] evaluates [b.__contains__(a)]. *)
Definition py_in (a b : Tracklet) : bool := contains b a.

(** [xy]: the first two columns of every body part. *)
Definition xy_row (r : row) : list vec2 := map (fun p => (fst (fst p), snd (fst p))) r.
Definition xy (t : Tracklet) : list (list vec2) := map xy_row (data t).

(** [np.nanmean(self.xy, axis=1)] *)
Definition raw_centroid (t : Tracklet) : list vec2 :=
  map (fun r => (np_nanmean (map fst r), np_nanmean (map snd r))) (xy t).

(** [centroid]; [np.c_] pairs the two smoothed columns. *)
Definition centroid (t : Tracklet) : list vec2 :=
  let c := raw_centroid t in
  if (length c <=? 10)%nat then c
  else combine (exp_smoothing (map fst c)) (exp_smoothing (map snd c)).

(** [is_continuous] *)
Definition is_continuous (t : Tracklet) : result bool :=
  e <- end_ t ;; s <- start t ;; Ok (e - s + 1 =? len t).

(** [immediately_follows] *)
Definition immediately_follows (self other_tracklet : Tracklet) (max_gap : Z)
  : result bool :=
  s <- start self ;; e <- end_ other_tracklet ;;
  Ok ((0 <? s - e) && (s - e <=? max_gap)).

(** Element-wise binary operation of two arrays along their first axis,
    with numpy's broadcasting rule: equal lengths, or one of them 1. *)
Definition broadcast2 {A B C : Type} (f : A -> B -> C) (l1 : list A) (l2 : list B)
  : result (list C) :=
  if (length l1 =? length l2)%nat then Ok (map (fun p => f (fst p) (snd p)) (combine l1 l2))
  else
    match l1, l2 with
    | [a], _ => Ok (map (f a) l2)
    | _, [b] => Ok (map (fun a => f a b) l1)
    | _, _ => Err (ValueError "operands could not be broadcast together")
    end.

Definition vsub (a b : vec2) : vec2 := (fsub (fst a) (fst b), fsub (snd a) (snd b)).
Definition vadd (a b : vec2) : vec2 := (fadd (fst a) (fst b), fadd (snd a) (snd b)).
Definition vscale (k : F) (a : vec2) : vec2 := (fmul k (fst a), fmul k (snd a)).
Definition vdiv (a : vec2) (k : F) : vec2 := (fdiv (fst a) k, fdiv (snd a) k).

(** [np.sqrt(np.sum(v ** 2))] of one row. *)
Definition norm2 (v : vec2) : F :=
  fsqrt (fadd (fmul (fst v) (fst v)) (fmul (snd v) (snd v))).

(** [np.diff] along the first axis. *)
Definition diff {A : Type} (sub : A -> A -> A) (l : list A) : list A :=
  map (fun p => sub (snd p) (fst p)) (combine l (tl l)).

(** Python's [max(a, b)] and [min(a, b)]: the first argument unless the
    second compares strictly beyond it. *)
Definition py_max (a b : F) : F := if fltb a b then b else a.
Definition py_min (a b : F) : F := if fltb b a then b else a.

Inductive where_ : Type := Tail | Head.

(** [calc_velocity(where, norm=False)]: the mean finite-difference
    velocity over the three boundary samples. *)
Definition calc_velocity_vec (t : Tracklet) (w : where_) : result vec2 :=
  let c := match w with Tail => head_n 3 (centroid t) | Head => tail_n 3 (centroid t) end in
  let i := match w with Tail => head_n 3 (inds t) | Head => tail_n 3 (inds t) end in
  vel <- broadcast2 vdiv (diff vsub c) (map of_int (diff Z.sub i)) ;;
  Ok (np_mean (map fst vel), np_mean (map snd vel)).

(** [calc_velocity(where, norm=True)]: the mean speed. *)
Definition calc_velocity (t : Tracklet) (w : where_) : result F :=
  let c := match w with Tail => head_n 3 (centroid t) | Head => tail_n 3 (centroid t) end in
  let i := match w with Tail => head_n 3 (inds t) | Head => tail_n 3 (inds t) end in
  vel <- broadcast2 vdiv (diff vsub c) (map of_int (diff Z.sub i)) ;;
  Ok (np_mean (map norm2 vel)).

(** [time_gap_to] *)
Definition time_gap_to (self other_tracklet : Tracklet) : result Z :=
  if py_in self other_tracklet then Ok 0
  else
    b <- lt self other_tracklet ;;
    if b then s <- start other_tracklet ;; e <- end_ self ;; Ok (s - e)
    else s <- start self ;; e <- end_ other_tracklet ;; Ok (s - e).

(** [distance_to] *)
Definition distance_to (self other_tracklet : Tracklet) : result F :=
  if py_in self other_tracklet then
    a <- mask_select (centroid self) (isin (inds self) (inds other_tracklet)) ;;
    b <- mask_select (centroid other_tracklet) (isin (inds other_tracklet) (inds self)) ;;
    dist <- broadcast2 vsub a b ;;
    Ok (np_mean (map norm2 dist))
  else
    b <- lt self other_tracklet ;;
    if b then
      p <- last_of (centroid self) ;; q <- first (centroid other_tracklet) ;;
      Ok (norm2 (vsub p q))
    else
      p <- first (centroid self) ;; q <- last_of (centroid other_tracklet) ;;
      Ok (norm2 (vsub p q)).

(** [motion_affinity_with] *)
Definition motion_affinity_with (self other_tracklet : Tracklet) : result F :=
  time_gap <- time_gap_to self other_tracklet ;;
  if time_gap >? 0 then
    b <- lt self other_tracklet ;;
    if b then
      cs <- last_of (centroid self) ;; vs <- calc_velocity_vec self Head ;;
      let d1 := vadd cs (vscale (of_int time_gap) vs) in
      co <- first (centroid other_tracklet) ;; vo <- calc_velocity_vec other_tracklet Tail ;;
      let d2 := vsub co (vscale (of_int time_gap) vo) in
      let delta1 := vsub co d1 in
      let delta2 := vsub cs d2 in
      Ok (fdiv (fadd (norm2 delta1) (norm2 delta2)) (of_int 2))
    else
      co <- last_of (centroid other_tracklet) ;; vo <- calc_velocity_vec other_tracklet Head ;;
      let d1 := vadd co (vscale (of_int time_gap) vo) in
      cs <- first (centroid self) ;; vs <- calc_velocity_vec self Tail ;;
      let d2 := vsub cs (vscale (of_int time_gap) vs) in
      let delta1 := vsub cs d1 in
      let delta2 := vsub co d2 in
      Ok (fdiv (fadd (norm2 delta1) (norm2 delta2)) (of_int 2))
  else Ok (of_int 0).

(** [undirected_hausdorff] *)
Definition undirected_hausdorff (u v : list vec2) : F :=
  py_max (directed_hausdorff u v) (directed_hausdorff v u).

(** [shape_dissimilarity_with] *)
Definition shape_dissimilarity_with (self other_tracklet : Tracklet) : result F :=
  if py_in self other_tracklet then Ok finf
  else
    b <- lt self other_tracklet ;;
    if b then
      u <- last_of (xy self) ;; v <- first (xy other_tracklet) ;;
      Ok (undirected_hausdorff u v)
    else
      u <- first (xy self) ;; v <- last_of (xy other_tracklet) ;;
      Ok (undirected_hausdorff u v).

(** A bounding box (xmin, ymin, xmax, ymax). *)
Definition bbox : Type := (F * F * F * F)%type.

(** [calc_bbox(0)] and [calc_bbox(-1)]; [np.nanmin] of an empty axis
    raises ValueError. *)
Definition calc_bbox (t : Tracklet) (w : where_) : result bbox :=
  pts <- match w with Tail => first (xy t) | Head => last_of (xy t) end ;;
  if (length pts =? 0)%nat then Err (ValueError "zero-size array to reduction operation")
  else
  Ok (np_nanmin (map fst pts), np_nanmin (map snd pts),
      np_nanmax (map fst pts), np_nanmax (map snd pts)).

(** [iou] *)
Definition iou (bbox1 bbox2 : bbox) : F :=
  let '(a0, a1, a2, a3) := bbox1 in
  let '(b0, b1, b2, b3) := bbox2 in
  let x1 := py_max a0 b0 in
  let y1 := py_max a1 b1 in
  let x2 := py_min a2 b2 in
  let y2 := py_min a3 b3 in
  let w := py_max (of_int 0) (fsub x2 x1) in
  let h := py_max (of_int 0) (fsub y2 y1) in
  let wh := fmul w h in
  fdiv wh (fsub (fadd (fmul (fsub a2 a0) (fsub a3 a1))
                      (fmul (fsub b2 b0) (fsub b3 b1))) wh).

(** [box_overlap_with] *)
Definition box_overlap_with (self other_tracklet : Tracklet) : result F :=
  if py_in self other_tracklet then Ok (of_int 0)
  else
    b <- lt self other_tracklet ;;
    if b then
      bbox1 <- calc_bbox self Head ;; bbox2 <- calc_bbox other_tracklet Tail ;;
      Ok (iou bbox1 bbox2)
    else
      bbox1 <- calc_bbox self Tail ;; bbox2 <- calc_bbox other_tracklet Head ;;
      Ok (iou bbox1 bbox2).

(** [dynamic_dissimilarity_with] *)
Definition dynamic_dissimilarity_with (self other_tracklet : Tracklet) : F :=
  hankelet_dissimilarity (centroid self) (centroid other_tracklet).

End TrackletModel.

(* ================================================================== *)
(** * The flow graph                                                   *)
(* ================================================================== *)

(** Node labels: ['source'], ['sink'], [f'{i}in'] and [f'{i}out'], where
    [i] is the position of the tracklet in [self.tracklets].  The dicts
    [_mapping] and [_mapping_inv] between tracklet objects and labels are
    this positional correspondence. *)
Inductive node : Type :=
| Source
| Sink
| NIn (i : nat)
| NOut (i : nat).

Definition node_eqb (a b : node) : bool :=
  match a, b with
  | Source, Source | Sink, Sink => true
  | NIn i, NIn j | NOut i, NOut j => (i =? j)%nat
  | _, _ => false
  end.

Record edge : Type := mkEdge {
  e_src : node;
  e_dst : node;
  e_weight : option Z;
  e_capacity : Z
}.

Record DiGraph : Type := mkGraph {
  g_nodes : list (node * Z);
  g_edges : list edge
}.

(** [G.remove_edges_from(pairs)] *)
Definition remove_edges (g : DiGraph) (pairs : list (node * node)) : DiGraph :=
  mkGraph (g_nodes g)
    (filter (fun e => negb (existsb (fun p => node_eqb (fst p) (e_src e)
                                             && node_eqb (snd p) (e_dst e)) pairs))
            (g_edges g)).

(** [G.remove_node(n)]: the node and its incident edges. *)
Definition remove_node (g : DiGraph) (n : node) : DiGraph :=
  mkGraph (filter (fun p => negb (node_eqb (fst p) n)) (g_nodes g))
    (filter (fun e => negb (node_eqb (e_src e) n || node_eqb (e_dst e) n)) (g_edges g)).

(** The flow dict of dicts returned by [nx.capacity_scaling]. *)
Definition flowdict : Type := list (node * list (node * Z)).

Inductive solver_outcome (A : Type) : Type :=
| Solved (a : A)
| Unfeasible
| SolverError (e : exn).

Arguments Solved {A} a.
Arguments Unfeasible {A}.
Arguments SolverError {A} e.

(** The capabilities of networkx that [stitch] consumes:
    [nx.capacity_scaling(G)] (its flow dict, or NetworkXUnfeasible),
    [nx.node_disjoint_paths(G, 'source', 'sink', preflow_push, cutoff)]
    (the paths that the generator yields, or the exception it raises
    when it is started), and [nx.connected_components] of the undirected
    graph built from a list of tracklet pairs. *)
Class FlowSolver : Type := {
  capacity_scaling : DiGraph -> solver_outcome flowdict;
  node_disjoint_paths : DiGraph -> Z -> result (list (list node));
  connected_components : list (nat * nat) -> list (list nat)
}.

(* ================================================================== *)
(** * class TrackletStitcher                                           *)
(* ================================================================== *)

(** [get_frame_ind]: the first maximal run of decimal digits of the
    label, read as an integer; [re.findall(...)[0]] raises IndexError
    when the label has no digit. *)
Definition is_digit (c : ascii) : bool :=
  ((48 <=? nat_of_ascii c) && (nat_of_ascii c <=? 57))%nat.

Definition digit_val (c : ascii) : Z := Z.of_nat (nat_of_ascii c - 48).

Fixpoint digits_run (s : string) : list Z :=
  match s with
  | EmptyString => []
  | String c s' => if is_digit c then digit_val c :: digits_run s' else []
  end.

Fixpoint find_digits (s : string) : option (list Z) :=
  match s with
  | EmptyString => None
  | String c s' => if is_digit c then Some (digits_run s) else find_digits s'
  end.

Definition get_frame_ind (s : string) : result Z :=
  match find_digits s with
  | None => Err IndexError
  | Some ds => Ok (fold_left (fun acc d => 10 * acc + d) ds 0)
  end.

(** [np.flatnonzero] *)
Fixpoint flatnonzero_from (k : nat) (m : list bool) : list nat :=
  match m with
  | [] => []
  | b :: m' => if b then k :: flatnonzero_from (S k) m' else flatnonzero_from (S k) m'
  end.

Definition flatnonzero (m : list bool) : list nat := flatnonzero_from 0 m.

(** [np.split(arr, idx)]: the slices [arr[0:i1]], [arr[i1:i2]], ...,
    [arr[ik:]]. *)
Fixpoint np_split_from {A : Type} (l : list A) (st : nat) (idx : list nat)
  : list (list A) :=
  match idx with
  | [] => [skipn st l]
  | p :: idx' => firstn (p - st) (skipn st l) :: np_split_from l p idx'
  end.

Definition np_split {A : Type} (l : list A) (idx : list nat) : list (list A) :=
  np_split_from l 0 idx.

(** [itertools.combinations(xs, 2)] *)
Fixpoint combinations2 {A : Type} (xs : list A) : list (A * A) :=
  match xs with
  | [] => []
  | x :: xs' => map (pair x) xs' ++ combinations2 xs'
  end.

(** [sorted(xs)] of integers. *)
Definition sorted_Z (xs : list Z) : list Z := msort (fun z => z) xs.

Section StitcherModel.
Context {N : Numeric}.

(** The column header of the pickle; only [write_tracks] reads it. *)
Definition Header : Type := list string.

(** The unpickled dict: the ["header"] entry, if present, and the
    remaining entries in dict order, each a dict from frame label to a
    flat row of [3 * nbodyparts] values. *)
Record pickle : Type := mkPickle {
  p_header : option Header;
  p_tracklets : list (list (string * list F))
}.

Record TrackletStitcher : Type := mkStitcher {
  filename : string;
  n_tracks : Z;
  G : option DiGraph;
  paths : option (list (list Tracklet));
  tracks : option (list pyval);
  header : Header;
  tracklets : list Tracklet;
  residuals : list Tracklet;
  n_frames : Z;
  first_tracklets : list nat;
  last_tracklets : list nat;
  flow : option flowdict
}.

(** [split_tracklet] *)
Definition split_tracklet (tracklet : Tracklet) : result (list Tracklet) :=
  let idx := map S (flatnonzero (map (fun d => negb (d =? 1)) (diff Z.sub (inds tracklet)))) in
  let inds_new := np_split (inds tracklet) idx in
  let data_new := np_split (data tracklet) idx in
  mapM (fun p => Tracklet_init (fst p) (snd p)) (combine data_new inds_new).

(** [data.reshape((nrows, ncols // 3, 3))] of one row. *)
Fixpoint reshape3 (v : list F) : row :=
  match v with
  | x :: y :: c :: v' => (x, y, c) :: reshape3 v'
  | _ => []
  end.

Definition all_nan (r : row) : bool :=
  forallb (fun p => fisnan (fst (fst p)) && fisnan (snd (fst p)) && fisnan (snd p)) r.

(** The body of the loop over [tracklets.values()]: the last frame
    index of the fragment, then the tracklets it adds to
    [self.tracklets] and to [self.residuals]. *)
Definition load_fragment (min_length : Z) (split_tracklets : bool)
    (dict_ : list (string * list F))
  : result (Z * list Tracklet * list Tracklet) :=
  items <- mapM (fun kv => i <- get_frame_ind (fst kv) ;; Ok (i, snd kv)) dict_ ;;
  match items with
  | [] => Err (ValueError "not enough values to unpack (expected 2, got 0)")
  | (_, v0) :: _ =>
      let inds0 := map fst items in
      let data0 := map snd items in
      last_frame <- last_of inds0 ;;
      let ncols := length v0 in
      if negb (forallb (fun v => (length v =? ncols)%nat) data0)
      then Err (ValueError "inhomogeneous shape")
      else if negb (ncols mod 3 =? 0)%nat
      then Err (ValueError "cannot reshape array")
      else
        let temp := map reshape3 data0 in
        let all_nans := map all_nan temp in
        let keep := map negb all_nans in
        '(temp1, inds1) <-
           (if any all_nans
            then t <- mask_select temp keep ;; i <- mask_select inds0 keep ;; Ok (t, i)
            else Ok (temp, inds0)) ;;
        match inds1 with
        | [] => Ok (last_frame, [], [])
        | _ :: _ =>
            tracklet <- Tracklet_init temp1 inds1 ;;
            c <- is_continuous tracklet ;;
            pieces <- (if negb c && split_tracklets then split_tracklet tracklet
                       else Ok [tracklet]) ;;
            Ok (last_frame,
                filter (fun t => len t >=? min_length) pieces,
                filter (fun t => len t <? min_length) pieces)
        end
  end.

Fixpoint load_fragments (min_length : Z) (split_tracklets : bool)
    (ds : list (list (string * list F)))
    (acc : list Z * list Tracklet * list Tracklet)
  : result (list Z * list Tracklet * list Tracklet) :=
  match ds with
  | [] => Ok acc
  | d :: ds' =>
      '(lf, ts, rs) <- load_fragment min_length split_tracklets d ;;
      let '(lfs, tracklets0, residuals0) := acc in
      load_fragments min_length split_tracklets ds'
        (lfs ++ [lf], tracklets0 ++ ts, residuals0 ++ rs)
  end.

(** [max] of a non-empty list of integers. *)
Definition py_max_list (l : list Z) : result Z :=
  match l with
  | [] => Err (ValueError "max() arg is an empty sequence")
  | x :: l' => Ok (fold_left Z.max l' x)
  end.

(** [TrackletStitcher.__init__], given what [pickle.load] returned. *)
Definition TrackletStitcher_init (pickle_file : string) (loaded : pickle)
    (n_tracks0 min_length : Z) (split_tracklets : bool)
  : result TrackletStitcher :=
  if n_tracks0 <? 2
  then Err (ValueError "There must at least be two tracks to reconstruct.")
  else if min_length <? 3
  then Err (ValueError "A tracklet must have a minimal length of 3.")
  else
    match p_header loaded with
    | None => Err (KeyError "header")
    | Some hd =>
        if (length (p_tracklets loaded) =? 0)%nat
        then Err (IOError "Tracklets are empty.")
        else
          '(last_frames, ts, rs) <-
             load_fragments min_length split_tracklets (p_tracklets loaded) ([], [], []) ;;
          m <- py_max_list last_frames ;;
          starts <- mapM start ts ;;
          ends <- mapM end_ ts ;;
          Ok (mkStitcher pickle_file n_tracks0 None None None hd ts rs (m + 1)
                (head_n (Z.to_nat n_tracks0) (argsort starts))
                (tail_n (Z.to_nat n_tracks0) (argsort ends))
                None)
    end.

(** [compute_max_gap].  [gap] maps each tracklet that is the first
    member of some pair to its gaps to the tracklets listed after it. *)
Fixpoint gap_lists (ts : list Tracklet) : result (list (list Z)) :=
  match ts with
  | [] => Ok []
  | _ :: [] => Ok []
  | t1 :: ts' =>
      vals <- mapM (time_gap_to t1) ts' ;;
      rest <- gap_lists ts' ;;
      Ok (vals :: rest)
  end.

Definition update_max_gap (max_gap : Z) (vals : list Z) : Z :=
  match find (fun val => val >? 0) (sorted_Z vals) with
  | Some val => if val >? max_gap then val else max_gap
  | None => max_gap
  end.

Definition compute_max_gap (ts : list Tracklet) : result Z :=
  gap <- gap_lists ts ;;
  Ok (fold_left update_max_gap gap 0).

(** [calculate_weight] *)
Definition calculate_weight (tracklet1 tracklet2 : Tracklet) : result F :=
  bo <- box_overlap_with tracklet1 tracklet2 ;;
  d <- distance_to tracklet1 tracklet2 ;;
  sh <- shape_dissimilarity_with tracklet1 tracklet2 ;;
  Ok (fadd (fadd (fadd (fneg (flog (fadd bo feps))) d) sh)
           (dynamic_dissimilarity_with tracklet1 tracklet2)).

(** One iteration of the loop over [combinations(self, 2)] in
    [build_graph]: the transition edge of the pair, if it gets one. *)
Definition transition_edge (max_gap : Z) (p : (nat * Tracklet) * (nat * Tracklet))
  : result (list edge) :=
  let '((i, tracklet1), (j, tracklet2)) := p in
  time_gap <- time_gap_to tracklet1 tracklet2 ;;
  if (0 <? time_gap) && (time_gap <=? max_gap) then
    wf <- calculate_weight tracklet1 tracklet2 ;;
    w <- to_int (fmul (of_int 100) wf) ;;
    b <- gt tracklet2 tracklet1 ;;
    if b then Ok [mkEdge (NOut i) (NIn j) (Some w) 1]
    else Ok [mkEdge (NOut j) (NIn i) (Some w) 1]
  else Ok [].

Fixpoint transition_edges (max_gap : Z) (ps : list ((nat * Tracklet) * (nat * Tracklet)))
  : result (list edge) :=
  match ps with
  | [] => Ok []
  | p :: ps' =>
      e <- transition_edge max_gap p ;;
      es <- transition_edges max_gap ps' ;;
      Ok (e ++ es)
  end.

Definition enumerate {A : Type} (l : list A) : list (nat * A) :=
  combine (seq 0 (length l)) l.

(** [int(1.5 * g)]: the product is exact in binary64 for every frame
    gap, and [int] truncates toward zero. *)
Definition int_1_5_times (g : Z) : Z := Z.quot (3 * g) 2.

(** The first statement of [build_graph]: [not max_gap] holds for
    [None] and for 0, and the default is then computed. *)
Definition resolve_max_gap (ts : list Tracklet) (max_gap : option Z) : result Z :=
  match max_gap with
  | None | Some 0 => g <- compute_max_gap ts ;; Ok (int_1_5_times g)
  | Some m => Ok m
  end.

(** [build_graph(max_gap)]: the graph that it stores in [self.G] when
    it returns.  Unpacking the zipped node labels fails without tracklets, and
    [factorial(len(self) - 2)] with a single one. *)
Definition build_graph_of (n_tracks0 : Z) (ts : list Tracklet) (max_gap : option Z)
  : result DiGraph :=
  max_gap' <- resolve_max_gap ts max_gap ;;
  let n := length ts in
  match n with
  | O => Err (ValueError "not enough values to unpack (expected 2, got 0)")
  | 1%nat => Err (ValueError "factorial() not defined for negative values")
  | _ =>
      let ids := seq 0 n in
      tes <- transition_edges max_gap' (combinations2 (enumerate ts)) ;;
      Ok (mkGraph
            ((Source, - n_tracks0) :: (Sink, n_tracks0)
               :: map (fun i => (NIn i, 1)) ids ++ map (fun i => (NOut i, -1)) ids)
            (map (fun i => mkEdge (NIn i) (NOut i) None 1) ids
             ++ map (fun i => mkEdge Source (NIn i) None 1) ids
             ++ map (fun i => mkEdge (NOut i) Sink None 1) ids
             ++ tes))
  end.

Definition set_G (st : TrackletStitcher) (g : DiGraph) : TrackletStitcher :=
  mkStitcher (filename st) (n_tracks st) (Some g) (paths st) (tracks st) (header st)
    (tracklets st) (residuals st) (n_frames st) (first_tracklets st)
    (last_tracklets st) (flow st).

Definition set_flow (st : TrackletStitcher) (f : flowdict) : TrackletStitcher :=
  mkStitcher (filename st) (n_tracks st) (G st) (paths st) (tracks st) (header st)
    (tracklets st) (residuals st) (n_frames st) (first_tracklets st)
    (last_tracklets st) (Some f).

Definition set_paths (st : TrackletStitcher) (ps : list (list Tracklet))
  : TrackletStitcher :=
  mkStitcher (filename st) (n_tracks st) (G st) (Some ps) (tracks st) (header st)
    (tracklets st) (residuals st) (n_frames st) (first_tracklets st)
    (last_tracklets st) (flow st).

Definition set_tracks (st : TrackletStitcher) (trs : list pyval) : TrackletStitcher :=
  mkStitcher (filename st) (n_tracks st) (G st) (paths st) (Some trs) (header st)
    (tracklets st) (residuals st) (n_frames st) (first_tracklets st)
    (last_tracklets st) (flow st).

Definition append_residual (st : TrackletStitcher) (t : Tracklet) : TrackletStitcher :=
  mkStitcher (filename st) (n_tracks st) (G st) (paths st) (tracks st) (header st)
    (tracklets st) (residuals st ++ [t]) (n_frames st) (first_tracklets st)
    (last_tracklets st) (flow st).

(** [build_graph] as a state transformer. *)
Definition build_graph (max_gap : option Z) (st : TrackletStitcher)
  : result TrackletStitcher :=
  g <- build_graph_of (n_tracks st) (tracklets st) max_gap ;;
  Ok (set_G st g).

(** [self._mapping_inv[label]]: the tracklet (position) of a node;
    ['source'] and ['sink'] are not keys of the dict. *)
Definition mapping_inv (n : node) : result nat :=
  match n with
  | NIn i | NOut i => Ok i
  | Source => Err (KeyError "source")
  | Sink => Err (KeyError "sink")
  end.

Definition tracklet_at (st : TrackletStitcher) (i : nat) : result Tracklet :=
  match nth_error (tracklets st) i with
  | Some t => Ok t
  | None => Err (KeyError "tracklet")
  end.

(** Sets of tracklets are kept as duplicate-free lists of positions, in
    insertion order (Python leaves the iteration order of a set
    unspecified). *)
Definition set_add (x : nat) (s : list nat) : list nat :=
  if existsb (Nat.eqb x) s then s else s ++ [x].

Definition set_of_list (l : list nat) : list nat := fold_left (fun s x => set_add x s) l [].

(** [s.remove(x)]: KeyError when [x] is not a member. *)
Definition set_remove (x : nat) (s : list nat) : result (list nat) :=
  if existsb (Nat.eqb x) s then Ok (filter (fun y => negb (Nat.eqb x y)) s)
  else Err (KeyError "Tracklet").

(** [sorted(ts, key=lambda t: t.start)] on positions. *)
Definition sorted_by_start (st : TrackletStitcher) (ixs : list nat) : result (list nat) :=
  keyed <- mapM (fun i => t <- tracklet_at st i ;; s <- start t ;; Ok (s, i)) ixs ;;
  Ok (map snd (msort (@fst Z nat) keyed)).

Section WithSolver.
Context {FS : FlowSolver}.

(** [dict[key]] *)
Definition dict_get {V : Type} (d : list (node * V)) (k : node) (name : string)
  : result V :=
  match find (fun kv => node_eqb (fst kv) k) d with
  | Some kv => Ok (snd kv)
  | None => Err (KeyError name)
  end.

(** The inner [for i, j in v.items()] loop of [reconstruct_paths] for
    an exit node [k]: the edge or the single-tracklet path it records. *)
Fixpoint scan_exit_flow (k : nat) (init : list nat) (v : list (node * Z))
  : result (list (nat * nat) * list (list nat)) :=
  match v with
  | [] => Ok ([], [])
  | (i, j) :: v' =>
      if j =? 1 then
        if negb (node_eqb i Sink) then
          ti <- mapping_inv i ;; Ok ([(k, ti)], [])
        else if existsb (Nat.eqb k) init then Ok ([], [[k]])
        else scan_exit_flow k init v'
      else scan_exit_flow k init v'
  end.

Fixpoint scan_flow (init : list nat) (fl : flowdict)
  : result (list (nat * nat) * list (list nat)) :=
  match fl with
  | [] => Ok ([], [])
  | (NOut k, v) :: fl' =>
      '(es, ps) <- scan_exit_flow k init v ;;
      '(es', ps') <- scan_flow init fl' ;;
      Ok (es ++ es', ps ++ ps')
  | _ :: fl' => scan_flow init fl'
  end.

(** [reconstruct_paths()] (with [edges=None]), as lists of positions. *)
Definition reconstruct_paths (st : TrackletStitcher) (fl : flowdict)
  : result (list (list nat)) :=
  src <- dict_get fl Source "source" ;;
  init <- mapM (fun ab => mapping_inv (fst ab)) (filter (fun ab => snd ab =? 1) src) ;;
  '(edges, singles) <- scan_flow init fl ;;
  comps <- mapM (sorted_by_start st) (connected_components edges) ;;
  Ok (singles ++ comps).

(** [np.diff(hyp.centroid, axis=0)] followed by
    [dx.std() / np.abs(dx).mean()], over all entries of [dx]. *)
Definition smoothness (hyp : Tracklet) : F :=
  let dx := flat_map (fun v => [fst v; snd v]) (diff vsub (centroid hyp)) in
  fdiv (np_std dx) (np_mean (map fabs dx)).

(** One iteration of the loop over [combinations(nodes, 2)] of the
    fallback: the node set and the stitcher after it.  An exception
    leaves the stitcher as it was when it was raised. *)
Definition disambiguate (p : nat * nat) (acc : list nat * TrackletStitcher)
  : result (list nat) * TrackletStitcher :=
  let '(i1, i2) := p in
  let '(nodes, st) := acc in
  match (t1 <- tracklet_at st i1 ;; t2 <- tracklet_at st i2 ;; Ok (t1, t2)) with
  | Err e => (Err e, st)
  | Ok (t1, t2) =>
      if py_in t1 t2 then
        match (nodes1 <- set_remove i1 nodes ;;
               nodes2 <- set_remove i2 nodes1 ;;
               ts <- mapM (tracklet_at st) nodes2 ;;
               track <- py_sum ts ;;
               hyp1 <- py_add track (PTracklet t1) ;;
               hyp2 <- py_add track (PTracklet t2) ;;
               match hyp1, hyp2 with
               | PTracklet h1, PTracklet h2 =>
                   Ok (nodes2, fltb (smoothness h1) (smoothness h2))
               | _, _ => Err AttributeError
               end) with
        | Err e => (Err e, st)
        | Ok (nodes2, keep1) =>
            if keep1 then (Ok (set_add i1 nodes2), append_residual st t2)
            else (Ok (set_add i2 nodes2), append_residual st t1)
        end
      else (Ok nodes, st)
  end.

Fixpoint disambiguate_all (ps : list (nat * nat)) (acc : list nat * TrackletStitcher)
  : result (list nat) * TrackletStitcher :=
  match ps with
  | [] => (Ok (fst acc), snd acc)
  | p :: ps' =>
      match disambiguate p acc with
      | (Ok nodes, st) => disambiguate_all ps' (nodes, st)
      | (Err e, st) => (Err e, st)
      end
  end.

(** The interior nodes of one disjoint path: they are removed from the
    graph and their tracklets collected. *)
Definition consume_path (path : list node) (g : DiGraph)
  : result (list nat * DiGraph) :=
  let interior := removelast (tl path) in
  ts <- mapM mapping_inv interior ;;
  Ok (set_of_list ts, fold_left remove_node interior g).

Fixpoint consume_paths (ps : list (list node)) (g : DiGraph)
  : result (list (list nat) * DiGraph) :=
  match ps with
  | [] => Ok ([], g)
  | path :: ps' =>
      '(ts, g1) <- consume_path path g ;;
      '(tss, g2) <- consume_paths ps' g1 ;;
      Ok (ts :: tss, g2)
  end.

(** The [except nx.exception.NetworkXUnfeasible] handler of [stitch]. *)
Definition fallback (g : DiGraph) (st : TrackletStitcher)
  : result unit * TrackletStitcher :=
  let in_to_keep := map NIn (first_tracklets st) in
  let out_to_keep := map NOut (last_tracklets st) in
  let in_to_remove :=
    filter (fun n => negb (existsb (node_eqb n) in_to_keep))
      (map e_dst (filter (fun e => node_eqb (e_src e) Source) (g_edges g))) in
  let out_to_remove :=
    filter (fun n => negb (existsb (node_eqb n) out_to_keep))
      (map e_src (filter (fun e => node_eqb (e_dst e) Sink) (g_edges g))) in
  let g1 := remove_edges g (map (pair Source) in_to_remove) in
  let g2 := remove_edges g1 (map (fun n => (n, Sink)) out_to_remove) in
  let st2 := set_G st g2 in
  match node_disjoint_paths g2 (n_tracks st) with
  | Err e => (Err e, st2)
  | Ok found =>
      match consume_paths found g2 with
      | Err e => (Err e, st2)
      | Ok (paths0, g3) =>
          let st3 := set_G st g3 in
          match mapM (mapM (tracklet_at st3)) paths0 with
          | Err e => (Err e, st3)
          | Ok paths1 =>
              let incomplete_tracks := n_tracks st - Z.of_nat (length paths1) in
              if incomplete_tracks =? 1 then
                match mapM mapping_inv
                        (filter (fun n => negb (node_eqb n Source || node_eqb n Sink))
                           (map fst (g_nodes g3))) with
                | Err e => (Err e, st3)
                | Ok remaining =>
                    let nodes := set_of_list remaining in
                    match disambiguate_all (combinations2 nodes) (nodes, st3) with
                    | (Err e, st4) => (Err e, st4)
                    | (Ok nodes', st4) =>
                        match mapM (tracklet_at st4) nodes' with
                        | Err e => (Err e, st4)
                        | Ok last_path => (Ok tt, set_paths st4 (paths1 ++ [last_path]))
                        end
                    end
                end
              else if incomplete_tracks >? 1 then (Err NotImplementedError, st3)
              else (Ok tt, set_paths st3 paths1)
          end
      end
  end.

(** [np.argmin]: the position of the first NaN if there is one, else of
    the first smallest value. *)
Fixpoint first_nan (k : nat) (l : list F) : option nat :=
  match l with
  | [] => None
  | x :: l' => if fisnan x then Some k else first_nan (S k) l'
  end.

Fixpoint argmin_from (best : F) (ibest k : nat) (l : list F) : nat :=
  match l with
  | [] => ibest
  | x :: l' => if fltb x best then argmin_from x k (S k) l'
               else argmin_from best ibest (S k) l'
  end.

Definition np_argmin (l : list F) : nat :=
  match first_nan 0 l with
  | Some k => k
  | None => match l with
            | [] => O
            | x :: l' => argmin_from x 0 1 l'
            end
  end.

(** [tracks[i] += residual] *)
Definition attach (trs : list pyval) (i : nat) (residual : Tracklet)
  : result (list pyval) :=
  match nth_error trs i with
  | None => Err IndexError
  | Some track =>
      merged <- py_add track (PTracklet residual) ;;
      Ok (firstn i trs ++ merged :: skipn (S i) trs)
  end.

(** [residual not in track] *)
Definition not_in (residual : Tracklet) (track : pyval) : result bool :=
  match track with
  | PInt _ => Err TypeError
  | PTracklet tr => Ok (negb (py_in residual tr))
  end.

(** [residual.distance_to(track)] *)
Definition distance_to_track (residual : Tracklet) (track : pyval) : result F :=
  match track with
  | PInt _ => Err AttributeError
  | PTracklet tr => distance_to residual tr
  end.

(** The body of the loop of [_finalize_tracks] for one residual. *)
Definition incorporate (trs : list pyval) (residual : Tracklet) : result (list pyval) :=
  easy_fit <- mapM (not_in residual) trs ;;
  let inds_ := flatnonzero easy_fit in
  match inds_ with
  | [] => Ok trs
  | [i] => attach trs i residual
  | _ =>
      cands <- take inds_ trs ;;
      dist <- mapM (distance_to_track residual) cands ;;
      attach trs (nth (np_argmin dist) inds_ O) residual
  end.

Fixpoint incorporate_all (trs : list pyval) (rs : list Tracklet) : result (list pyval) :=
  match rs with
  | [] => Ok trs
  | r :: rs' => trs' <- incorporate trs r ;; incorporate_all trs' rs'
  end.

(** [sorted(self.residuals, key=len)] followed by repeated [pop()]: the
    order in which the residuals are taken. *)
Definition residual_order (rs : list Tracklet) : list Tracklet :=
  rev (msort len rs).

(** [_finalize_tracks]; iterating [self.paths] raises TypeError while
    it is still [None]. *)
Definition finalize_tracks (st : TrackletStitcher) : result unit * TrackletStitcher :=
  match paths st with
  | None => (Err TypeError, st)
  | Some ps =>
      match (trs <- mapM py_sum ps ;;
             incorporate_all trs (residual_order (residuals st))) with
      | Err e => (Err e, st)
      | Ok trs => (Ok tt, set_tracks st trs)
      end
  end.

(** The [try] block of [stitch] with its [except] handler. *)
Definition solve (g : DiGraph) (st : TrackletStitcher) : result unit * TrackletStitcher :=
  match capacity_scaling g with
  | Solved fl =>
      let st1 := set_flow st fl in
      match (ps <- reconstruct_paths st1 fl ;; mapM (mapM (tracklet_at st1)) ps) with
      | Err e => (Err e, st1)
      | Ok ps => (Ok tt, set_paths st1 ps)
      end
  | Unfeasible => fallback g st
  | SolverError e => (Err e, st)
  end.

(** [stitch] *)
Definition stitch (st : TrackletStitcher) : result unit * TrackletStitcher :=
  match G st with
  | None => (Err (ValueError "Inexistent graph. Call `build_graph` first"), st)
  | Some g => try_finally (solve g) finalize_tracks st
  end.

End WithSolver.

End StitcherModel.

(* ================================================================== *)
(** * Concrete instances used to run the model                         *)
(* ================================================================== *)

(** Exact integer arithmetic on pixel coordinates: no NaN, integer
    square root and quotient.  It serves to evaluate the model on
    concrete tracklets; the theorems below hold for every [Numeric]. *)
Definition z_sum (l : list Z) : Z := fold_left Z.add l 0.

Definition z_mean (l : list Z) : Z :=
  match l with
  | [] => 0
  | _ => Z.quot (z_sum l) (Z.of_nat (length l))
  end.

Definition z_min_list (l : list Z) : Z :=
  match l with
  | [] => 0
  | x :: l' => fold_left Z.min l' x
  end.

Definition z_max_list (l : list Z) : Z :=
  match l with
  | [] => 0
  | x :: l' => fold_left Z.max l' x
  end.

(** Simple exponential smoothing with level 1/2: each fitted value is
    the one-step-ahead forecast. *)
Fixpoint z_smooth_from (level : Z) (l : list Z) : list Z :=
  match l with
  | [] => []
  | x :: l' => level :: z_smooth_from (Z.quot (x + level) 2) l'
  end.

Definition z_smooth (l : list Z) : list Z :=
  match l with
  | [] => []
  | x :: _ => z_smooth_from x l
  end.

Definition z_dist (p q : Z * Z) : Z :=
  Z.sqrt ((fst p - fst q) * (fst p - fst q) + (snd p - snd q) * (snd p - snd q)).

Definition z_directed_hausdorff (u v : list (Z * Z)) : Z :=
  z_max_list (map (fun p => z_min_list (map (z_dist p) v)) u).

Definition z_std (l : list Z) : Z :=
  let m := z_mean l in
  Z.sqrt (z_mean (map (fun x => (x - m) * (x - m)) l)).

#[export] Instance IntegerArithmetic : Numeric := {|
  F := Z;
  fadd := Z.add;
  fsub := Z.sub;
  fmul := Z.mul;
  fdiv := Z.quot;
  fneg := Z.opp;
  fsqrt := Z.sqrt;
  flog := Z.log2;
  fltb := Z.ltb;
  fisnan := fun _ => false;
  finf := 2 ^ 1024;
  feps := 0;
  of_int := fun z => z;
  to_int := fun z => Ok z;
  np_mean := z_mean;
  np_nanmean := z_mean;
  np_nanmin := z_min_list;
  np_nanmax := z_max_list;
  exp_smoothing := z_smooth;
  directed_hausdorff := z_directed_hausdorff;
  hankelet_dissimilarity := fun _ _ => 0;
  fabs := Z.abs;
  np_std := z_std
|}.

(** The answers of the flow solver on graphs that have no transition
    edge: the only source-to-sink paths are [source, in(i), out(i), sink]
    for the tracklets that kept both their source and their sink edge,
    and a flow meeting all demands exists exactly when the source
    supplies one unit per tracklet. *)
Definition has_edge (g : DiGraph) (a b : node) : bool :=
  existsb (fun e => node_eqb (e_src e) a && node_eqb (e_dst e) b) (g_edges g).

Definition entry_ids (g : DiGraph) : list nat :=
  flat_map (fun p => match fst p with NIn i => [i] | _ => [] end) (g_nodes g).

Definition direct_paths (g : DiGraph) (cutoff : Z) : result (list (list node)) :=
  let through := filter (fun i => has_edge g Source (NIn i) && has_edge g (NIn i) (NOut i)
                                  && has_edge g (NOut i) Sink) (entry_ids g) in
  match through with
  | [] => Err NetworkXNoPath
  | _ => Ok (map (fun i => [Source; NIn i; NOut i; Sink]) (firstn (Z.to_nat cutoff) through))
  end.

Definition direct_flow (g : DiGraph) : solver_outcome flowdict :=
  let ids := entry_ids g in
  let supply := match find (fun p => node_eqb (fst p) Source) (g_nodes g) with
                | Some p => - snd p
                | None => 0
                end in
  if forallb (fun i => has_edge g Source (NIn i) && has_edge g (NOut i) Sink) ids
     && (Z.of_nat (length ids) =? supply)
  then Solved ((Source, map (fun i => (NIn i, 1)) ids) :: (Sink, [])
               :: map (fun i => (NIn i, [(NOut i, 0)])) ids
               ++ map (fun i => (NOut i, [(Sink, 1)])) ids)
  else Unfeasible.

#[export] Instance TransitionFreeSolver : FlowSolver := {|
  capacity_scaling := direct_flow;
  node_disjoint_paths := direct_paths;
  connected_components := fun edges => map (fun e => [fst e; snd e]) edges
|}.

(** A one-body-part frame at integer position (x, y). *)
Definition frame_at (x y : Z) : @row IntegerArithmetic := [(x, y, 1)].

(** A tracklet over the frames [i0, i0 + 1, ..., i0 + n - 1] that stays
    at position (x, y). *)
Definition still_tracklet (i0 : Z) (n : nat) (x y : Z) : @Tracklet IntegerArithmetic :=
  mkTracklet (repeat (frame_at x y) n) (map (fun k => i0 + Z.of_nat k) (seq 0 n)).

(* ================================================================== *)
(** * Properties of the stable sort                                    *)
(* ================================================================== *)

Section MergeSortFacts.
Variable A : Type.
Variable key : A -> Z.

Definition key_le (a b : A) : Prop := key a <= key b.
Definition key_is (k : Z) (a : A) : bool := key a =? k.

Lemma merge_nil_r (l : list A) : merge key l [] = l.
Proof. destruct l; reflexivity. Qed.

Lemma merge_nil_l (l : list A) : merge key [] l = l.
Proof. destruct l; reflexivity. Qed.

Lemma merge_cons (a1 a2 : A) (l1 l2 : list A) :
  merge key (a1 :: l1) (a2 :: l2) =
  if key a1 <=? key a2 then a1 :: merge key l1 (a2 :: l2)
  else a2 :: merge key (a1 :: l1) l2.
Proof. reflexivity. Qed.

Lemma merge_length (l1 l2 : list A) :
  length (merge key l1 l2) = (length l1 + length l2)%nat.
Proof.
  revert l2; induction l1 as [|a1 l1 IH1]; intros l2; [rewrite merge_nil_l; reflexivity|].
  induction l2 as [|a2 l2 IH2]; [simpl; lia|].
  rewrite merge_cons; destruct (key a1 <=? key a2); simpl.
  - rewrite IH1; simpl; lia.
  - simpl in IH2; rewrite IH2; lia.
Qed.

Lemma merge_perm (l1 l2 : list A) : Permutation (merge key l1 l2) (l1 ++ l2).
Proof.
  revert l2; induction l1 as [|a1 l1 IH1]; intros l2; [rewrite merge_nil_l; reflexivity|].
  induction l2 as [|a2 l2 IH2].
  - rewrite merge_nil_r, app_nil_r; reflexivity.
  - rewrite merge_cons; destruct (key a1 <=? key a2).
    + simpl; constructor; apply IH1.
    + etransitivity; [constructor; apply IH2|].
      change ((a1 :: l1) ++ a2 :: l2) with (a1 :: l1 ++ a2 :: l2).
      etransitivity; [|constructor; apply Permutation_middle].
      simpl; apply perm_swap.
Qed.

Lemma merge_hd_rel (x : A) (l1 l2 : list A) :
  HdRel key_le x l1 -> HdRel key_le x l2 -> HdRel key_le x (merge key l1 l2).
Proof.
  intros H1 H2; destruct l1 as [|a1 l1]; [rewrite merge_nil_l; exact H2|].
  destruct l2 as [|a2 l2]; [exact H1|].
  rewrite merge_cons; destruct (key a1 <=? key a2); constructor.
  - inversion H1; assumption.
  - inversion H2; assumption.
Qed.

Lemma merge_sorted (l1 l2 : list A) :
  Sorted key_le l1 -> Sorted key_le l2 -> Sorted key_le (merge key l1 l2).
Proof.
  revert l2; induction l1 as [|a1 l1 IH1]; intros l2 S1 S2; [rewrite merge_nil_l; exact S2|].
  induction l2 as [|a2 l2 IH2]; [rewrite merge_nil_r; exact S1|].
  rewrite merge_cons; destruct (key a1 <=? key a2) eqn:E.
  - inversion S1; subst; constructor; [apply IH1; assumption|].
    apply merge_hd_rel; [assumption|].
    constructor; unfold key_le; lia.
  - inversion S2; subst; constructor; [apply IH2; assumption|].
    apply merge_hd_rel; [|assumption].
    constructor; unfold key_le; lia.
Qed.

Lemma filter_cons_eq (f : A -> bool) (a : A) (l : list A) :
  filter f (a :: l) = if f a then a :: filter f l else filter f l.
Proof. reflexivity. Qed.

Lemma filter_none (f : A -> bool) (l : list A) :
  (forall x, In x l -> f x = false) -> filter f l = [].
Proof.
  induction l as [|a l IH]; intros H; [reflexivity|].
  simpl; rewrite (H a (or_introl eq_refl)); apply IH.
  intros x Hx; apply H; right; exact Hx.
Qed.

(** Nothing of a sorted run carries the key [k] once its head is beyond
    [k]. *)
Lemma filter_key_above (k : Z) (l : list A) (a : A) :
  Sorted key_le (a :: l) -> k < key a -> filter (key_is k) (a :: l) = [].
Proof.
  intros S Hk; apply Sorted_StronglySorted in S;
    [|intros x y z; unfold key_le; lia].
  inversion S as [|? ? _ Hall]; subst.
  apply filter_none; intros x Hx.
  unfold key_is; destruct Hx as [<-|Hx]; [lia|].
  rewrite Forall_forall in Hall; specialize (Hall x Hx); unfold key_le in Hall; lia.
Qed.

(** Stability of the merge: the elements of key [k] come out with those
    of the left run first, each run in its own order. *)
Lemma merge_stable (k : Z) (l1 l2 : list A) :
  Sorted key_le l1 -> Sorted key_le l2 ->
  filter (key_is k) (merge key l1 l2) = filter (key_is k) l1 ++ filter (key_is k) l2.
Proof.
  revert l2; induction l1 as [|a1 l1 IH1]; intros l2 S1 S2; [rewrite merge_nil_l; reflexivity|].
  induction l2 as [|a2 l2 IH2]; [rewrite merge_nil_r, app_nil_r; reflexivity|].
  rewrite merge_cons; destruct (key a1 <=? key a2) eqn:E.
  - inversion S1; subst.
    rewrite (filter_cons_eq (key_is k) a1 (merge key l1 (a2 :: l2))).
    rewrite (filter_cons_eq (key_is k) a1 l1), IH1 by assumption.
    destruct (key_is k a1); reflexivity.
  - inversion S2; subst.
    rewrite (filter_cons_eq (key_is k) a2 (merge key (a1 :: l1) l2)).
    rewrite IH2 by assumption.
    rewrite (filter_cons_eq (key_is k) a2 l2).
    destruct (key_is k a2) eqn:K; [|reflexivity].
    unfold key_is in K.
    rewrite (@filter_key_above k l1 a1) by (assumption || lia).
    reflexivity.
Qed.

Lemma div2_bounds (m : nat) : (2 <= m -> 1 <= Nat.div2 m < m)%nat.
Proof.
  intros H; pose proof (Nat.div2_odd m) as E.
  destruct (Nat.odd m); simpl in E; lia.
Qed.

Lemma msort_fuel_step (n : nat) (a b : A) (l : list A) :
  msort_fuel key (S n) (a :: b :: l) =
  merge key (msort_fuel key n (firstn (Nat.div2 (length (a :: b :: l))) (a :: b :: l)))
            (msort_fuel key n (skipn (Nat.div2 (length (a :: b :: l))) (a :: b :: l))).
Proof. reflexivity. Qed.

Lemma halves_length (a b : A) (l : list A) (n : nat) :
  (length (a :: b :: l) <= S n)%nat ->
  (length (firstn (Nat.div2 (length (a :: b :: l))) (a :: b :: l)) <= n)%nat /\
  (length (skipn (Nat.div2 (length (a :: b :: l))) (a :: b :: l)) <= n)%nat.
Proof.
  intros H; rewrite length_firstn, length_skipn.
  pose proof (@div2_bounds (length (a :: b :: l))) as B.
  simpl length in *; lia.
Qed.

Lemma msort_fuel_sorted (n : nat) (l : list A) :
  (length l <= n)%nat -> Sorted key_le (msort_fuel key n l).
Proof.
  revert l; induction n as [|n IH]; intros l H.
  - destruct l; [constructor|simpl in H; lia].
  - destruct l as [|a [|b l]]; [constructor|repeat constructor|].
    rewrite msort_fuel_step.
    destruct (halves_length H) as [H1 H2].
    apply merge_sorted; apply IH; assumption.
Qed.

Lemma msort_fuel_perm (n : nat) (l : list A) : Permutation (msort_fuel key n l) l.
Proof.
  revert l; induction n as [|n IH]; intros l; [reflexivity|].
  destruct l as [|a [|b l]]; [reflexivity|reflexivity|].
  rewrite msort_fuel_step.
  etransitivity; [apply merge_perm|].
  etransitivity; [apply Permutation_app; apply IH|].
  rewrite firstn_skipn; reflexivity.
Qed.

Lemma msort_fuel_stable (k : Z) (n : nat) (l : list A) :
  (length l <= n)%nat -> filter (key_is k) (msort_fuel key n l) = filter (key_is k) l.
Proof.
  revert l; induction n as [|n IH]; intros l H; [reflexivity|].
  destruct l as [|a [|b l]]; [reflexivity|reflexivity|].
  rewrite msort_fuel_step.
  destruct (halves_length H) as [H1 H2].
  rewrite merge_stable by (apply msort_fuel_sorted; assumption).
  rewrite !IH by assumption.
  rewrite <- filter_app, firstn_skipn; reflexivity.
Qed.

Lemma msort_sorted (l : list A) : Sorted key_le (msort key l).
Proof. apply msort_fuel_sorted; apply Nat.le_refl. Qed.

Lemma msort_perm (l : list A) : Permutation (msort key l) l.
Proof. apply msort_fuel_perm. Qed.

(** The sort is stable: for every key, the elements that carry it come
    out in the order in which they went in. *)
Lemma msort_stable (k : Z) (l : list A) :
  filter (key_is k) (msort key l) = filter (key_is k) l.
Proof. apply msort_fuel_stable; apply Nat.le_refl. Qed.

Lemma msort_strongly_sorted (l : list A) : StronglySorted key_le (msort key l).
Proof.
  apply Sorted_StronglySorted; [|apply msort_sorted].
  intros x y z; unfold key_le; lia.
Qed.

End MergeSortFacts.

Section MergeSortMap.
Variables A B : Type.
Variable keyA : A -> Z.
Variable keyB : B -> Z.
Variable g : A -> B.
Hypothesis key_g : forall a, keyB (g a) = keyA a.

Lemma merge_map (l1 l2 : list A) :
  map g (merge keyA l1 l2) = merge keyB (map g l1) (map g l2).
Proof.
  revert l2; induction l1 as [|a1 l1 IH1]; intros l2.
  - rewrite merge_nil_l; change (map g []) with (@nil B); rewrite merge_nil_l; reflexivity.
  - induction l2 as [|a2 l2 IH2];
      [rewrite merge_nil_r; change (map g []) with (@nil B); rewrite merge_nil_r; reflexivity|].
    simpl map; rewrite !merge_cons, !key_g.
    destruct (keyA a1 <=? keyA a2); simpl map.
    + f_equal; apply IH1.
    + f_equal; apply IH2.
Qed.

(** Sorting commutes with a map that preserves the keys. *)
Lemma msort_fuel_map (n : nat) (l : list A) :
  map g (msort_fuel keyA n l) = msort_fuel keyB n (map g l).
Proof.
  revert l; induction n as [|n IH]; intros l; [reflexivity|].
  destruct l as [|a [|b l]]; [reflexivity|reflexivity|].
  rewrite msort_fuel_step.
  change (map g (a :: b :: l)) with (g a :: g b :: map g l).
  rewrite msort_fuel_step.
  change (g a :: g b :: map g l) with (map g (a :: b :: l)).
  rewrite merge_map, !IH, !firstn_map, !skipn_map, !length_map; reflexivity.
Qed.

Lemma msort_map (l : list A) : map g (msort keyA l) = msort keyB (map g l).
Proof. unfold msort; rewrite length_map; apply msort_fuel_map. Qed.

End MergeSortMap.

(* ================================================================== *)
(** * Generic facts about the error monad and list indexing            *)
(* ================================================================== *)

Lemma mapM_ok {A B : Type} (f : A -> result B) (g : A -> B) (l : list A) :
  (forall a, In a l -> f a = Ok (g a)) -> mapM f l = Ok (map g l).
Proof.
  induction l as [|a l IH]; intros H; [reflexivity|].
  simpl; rewrite (H a (or_introl eq_refl)); simpl.
  rewrite IH; [reflexivity|].
  intros x Hx; apply H; right; exact Hx.
Qed.

Lemma mapM_map {A B C : Type} (f : B -> result C) (h : A -> B) (l : list A) :
  mapM f (map h l) = mapM (fun a => f (h a)) l.
Proof.
  induction l as [|a l IH]; [reflexivity|].
  simpl; rewrite IH; reflexivity.
Qed.

Lemma mapM_length {A B : Type} (f : A -> result B) (l : list A) (r : list B) :
  mapM f l = Ok r -> length r = length l.
Proof.
  revert r; induction l as [|a l IH]; intros r H; simpl in H.
  - injection H as <-; reflexivity.
  - destruct (f a); [|discriminate]; simpl in H.
    destruct (mapM f l) as [bs|]; [|discriminate]; simpl in H.
    injection H as <-; simpl; f_equal; apply IH; reflexivity.
Qed.

Lemma in_combine_seq {A : Type} (l : list A) (s : nat) (x : A) (i : nat) :
  In (x, i) (combine l (seq s (length l))) -> nth_error l (i - s) = Some x /\ (s <= i)%nat.
Proof.
  revert s; induction l as [|a l IH]; intros s H; [destruct H|].
  simpl in H; destruct H as [H|H].
  - injection H as -> ->; rewrite Nat.sub_diag; split; [reflexivity|lia].
  - destruct (IH (S s) H) as [E L]; split; [|lia].
    replace (i - s)%nat with (S (i - S s)) by lia; exact E.
Qed.

Lemma nth_error_combine {A B : Type} (l1 : list A) (l2 : list B) (i : nat) (a : A) (b : B) :
  nth_error (combine l1 l2) i = Some (a, b) ->
  nth_error l1 i = Some a /\ nth_error l2 i = Some b.
Proof.
  revert l2 i; induction l1 as [|x l1 IH]; intros l2 i H.
  - destruct i; discriminate.
  - destruct l2 as [|y l2]; [destruct i; discriminate|].
    destruct i as [|i]; simpl in *; [injection H as -> ->; split; reflexivity|].
    apply IH; exact H.
Qed.

Lemma map_fst_combine {A B : Type} (l1 : list A) (l2 : list B) :
  length l1 = length l2 -> map fst (combine l1 l2) = l1.
Proof.
  revert l2; induction l1 as [|x l1 IH]; intros [|y l2] H; try discriminate; [reflexivity|].
  simpl; f_equal; apply IH; simpl in H; lia.
Qed.

Lemma map_snd_combine {A B : Type} (l1 : list A) (l2 : list B) :
  length l1 = length l2 -> map snd (combine l1 l2) = l2.
Proof.
  revert l2; induction l1 as [|x l1 IH]; intros [|y l2] H; try discriminate; [reflexivity|].
  simpl; f_equal; apply IH; simpl in H; lia.
Qed.

Lemma combine_map_fst_snd {A B : Type} (l : list (A * B)) :
  combine (map fst l) (map snd l) = l.
Proof.
  induction l as [|[a b] l IH]; [reflexivity|]; simpl; rewrite IH; reflexivity.
Qed.

(** Forgetting the middle component of a zipped triple. *)
Lemma combine3_forget {A B C : Type} (la : list A) (lb : list B) (lc : list C) :
  length la = length lb ->
  map (fun t => (fst (fst t), snd t)) (combine (combine la lb) lc) = combine la lc.
Proof.
  revert lb lc; induction la as [|a la IH]; intros [|b lb] [|c lc] H;
    try discriminate; try reflexivity.
  simpl; f_equal; apply IH; simpl in H; lia.
Qed.

Lemma sorted_le_nodup_lt (l : list Z) :
  StronglySorted Z.le l -> NoDup l -> StronglySorted Z.lt l.
Proof.
  induction 1 as [|a l S IH Hall]; intros ND; constructor.
  - apply IH; inversion ND; assumption.
  - inversion ND as [|? ? Hnin _]; subst.
    rewrite Forall_forall in *; intros x Hx.
    specialize (Hall x Hx).
    destruct (Z.eq_dec a x) as [->|]; [contradiction|lia].
Qed.

Lemma sorted_lt_nodup (l : list Z) : StronglySorted Z.lt l -> NoDup l.
Proof.
  induction 1 as [|a l S IH Hall]; constructor; [|exact IH].
  intros Hin; rewrite Forall_forall in Hall; specialize (Hall a Hin); lia.
Qed.

Lemma sorted_lt_le (l : list Z) : StronglySorted Z.lt l -> StronglySorted Z.le l.
Proof.
  induction 1 as [|a l S IH Hall]; constructor; [exact IH|].
  eapply Forall_impl; [|exact Hall]; intros; simpl in *; lia.
Qed.

(** The test of the constructor succeeds exactly on strictly increasing
    index sequences. *)
Lemma monotonically_increasing_spec (l : list Z) :
  monotonically_increasing l = true <-> StronglySorted Z.lt l.
Proof.
  unfold monotonically_increasing; split.
  - intros H; apply Sorted_StronglySorted; [intros x y z; lia|].
    induction l as [|a [|b l] IH]; [constructor|repeat constructor|].
    simpl in H; apply andb_true_iff in H as [H1 H2].
    constructor; [apply IH; exact H2|constructor; lia].
  - intros H; apply StronglySorted_Sorted in H.
    induction l as [|a [|b l] IH]; [reflexivity|reflexivity|].
    inversion H as [|? ? S Hd]; subst; inversion Hd; subst.
    simpl; apply andb_true_iff; split; [lia|apply IH; exact S].
Qed.

(* ================================================================== *)
(** * The Tracklet constructor                                         *)
(* ================================================================== *)

Section TrackletInit.
Context {N : Numeric}.

(** Data and indices are parallel arrays. *)
Definition wf (t : Tracklet) : Prop := length (data t) = length (inds t).

(** The (index, record) pairs of the input in stable sorted order. *)
Definition sorted_pairs (data0 : list row) (inds0 : list Z) : list (Z * row) :=
  msort (@fst Z row) (combine inds0 data0).

Lemma take_argsort (data0 : list row) (inds0 : list Z) :
  length data0 = length inds0 ->
  take (argsort inds0) inds0 = Ok (map fst (sorted_pairs data0 inds0)) /\
  take (argsort inds0) data0 = Ok (map snd (sorted_pairs data0 inds0)).
Proof.
  intros Hlen.
  set (B3 := combine (combine inds0 data0) (seq 0 (length inds0))).
  set (key3 := fun b : (Z * row) * nat => fst (fst b)).
  assert (Hidx : argsort inds0 = map snd (msort key3 B3)).
  { unfold argsort.
    rewrite <- (combine3_forget inds0 data0 (seq 0 (length inds0))) by congruence.
    fold B3.
    rewrite <- (msort_map key3 (@fst Z nat) (fun t => (fst (fst t), snd t)))
      by reflexivity.
    rewrite map_map; reflexivity. }
  assert (Hsp : sorted_pairs data0 inds0 = map fst (msort key3 B3)).
  { unfold sorted_pairs.
    rewrite (msort_map key3 (@fst Z row) (@fst (Z * row) nat)) by reflexivity.
    unfold B3; rewrite map_fst_combine; [reflexivity|].
    rewrite length_seq, length_combine; lia. }
  assert (Hin : forall b, In b (msort key3 B3) ->
                  nth_error inds0 (snd b) = Some (fst (fst b)) /\
                  nth_error data0 (snd b) = Some (snd (fst b))).
  { intros [[k d] i] Hb.
    apply (Permutation_in _ (msort_perm key3 B3)) in Hb.
    unfold B3 in Hb.
    replace (length inds0) with (length (combine inds0 data0)) in Hb
      by (rewrite length_combine; lia).
    apply in_combine_seq in Hb as [Hb _].
    rewrite Nat.sub_0_r in Hb.
    apply nth_error_combine in Hb; exact Hb. }
  rewrite Hidx, Hsp; unfold take; rewrite !mapM_map, !map_map; split.
  - apply mapM_ok; intros b Hb; destruct (Hin b Hb) as [-> _]; reflexivity.
  - apply mapM_ok; intros b Hb; destruct (Hin b Hb) as [_ ->]; reflexivity.
Qed.

Lemma Tracklet_init_sorted_input (data0 : list row) (inds0 : list Z) :
  monotonically_increasing inds0 = true ->
  Tracklet_init data0 inds0 = Ok (mkTracklet data0 inds0).
Proof. intros H; unfold Tracklet_init; rewrite H; reflexivity. Qed.

Lemma Tracklet_init_unsorted_input (data0 : list row) (inds0 : list Z) :
  length data0 = length inds0 ->
  monotonically_increasing inds0 = false ->
  Tracklet_init data0 inds0 =
  Ok (mkTracklet (map snd (sorted_pairs data0 inds0)) (map fst (sorted_pairs data0 inds0))).
Proof.
  intros Hlen H; unfold Tracklet_init; rewrite H.
  destruct (take_argsort data0 inds0 Hlen) as [-> ->]; reflexivity.
Qed.

(** What the constructor establishes on parallel arrays: it returns,
    and the stored pairs are the input pairs in stable sorted order. *)
Lemma Tracklet_init_spec (data0 : list row) (inds0 : list Z) :
  length data0 = length inds0 ->
  exists t,
    Tracklet_init data0 inds0 = Ok t /\
    wf t /\
    StronglySorted Z.le (inds t) /\
    Permutation (combine (inds t) (data t)) (combine inds0 data0) /\
    (forall k, filter (fun p => fst p =? k) (combine (inds t) (data t))
               = filter (fun p => fst p =? k) (combine inds0 data0)).
Proof.
  intros Hlen; destruct (monotonically_increasing inds0) eqn:M.
  - exists (mkTracklet data0 inds0); rewrite (Tracklet_init_sorted_input _ _ M).
    repeat split; try assumption; try reflexivity.
    apply sorted_lt_le, monotonically_increasing_spec, M.
  - eexists; rewrite (Tracklet_init_unsorted_input _ _ Hlen M).
    split; [reflexivity|]; unfold wf; simpl.
    rewrite combine_map_fst_snd, !length_map.
    repeat split.
    + pose proof (msort_strongly_sorted (@fst Z row) (combine inds0 data0)) as S.
      fold (sorted_pairs data0 inds0) in S.
      induction S as [|a l S IH Hall]; simpl; constructor; [exact IH|].
      apply Forall_map; exact Hall.
    + apply msort_perm.
    + intros k; apply (msort_stable (@fst Z row) k).
Qed.

Lemma Tracklet_init_perm_inds (data0 : list row) (inds0 : list Z) (t : Tracklet) :
  length data0 = length inds0 -> wf t ->
  Permutation (combine (inds t) (data t)) (combine inds0 data0) ->
  Permutation (inds t) inds0.
Proof.
  intros Hlen Hwf P.
  apply (Permutation_map fst) in P.
  rewrite !map_fst_combine in P by (unfold wf in Hwf; congruence); exact P.
Qed.

End TrackletInit.

(** C1 (amended).  For every input of parallel index and record arrays,
    the Tracklet constructor returns a tracklet whose (index, record)
    pairs are the input pairs in the order of a stable sort by frame
    index: the stored indices are non-decreasing, nothing is lost or
    added, and pairs that share an index keep their original relative
    order.  The stored indices are strictly increasing (hence unique)
    exactly when the input indices have no duplicate. *)
Theorem C1_constructor_stable_sorted {N : Numeric} (data0 : list row) (inds0 : list Z) :
  length data0 = length inds0 ->
  exists t,
    Tracklet_init data0 inds0 = Ok t /\
    length (data t) = length (inds t) /\
    StronglySorted Z.le (inds t) /\
    Permutation (combine (inds t) (data t)) (combine inds0 data0) /\
    (forall k, filter (fun p => fst p =? k) (combine (inds t) (data t))
               = filter (fun p => fst p =? k) (combine inds0 data0)) /\
    (StronglySorted Z.lt (inds t) <-> NoDup inds0).
Proof.
  intros Hlen.
  destruct (Tracklet_init_spec data0 inds0 Hlen) as (t & E & Hwf & S & P & St).
  exists t; repeat split; try assumption.
  - intros Hlt; apply sorted_lt_nodup in Hlt.
    eapply Permutation_NoDup; [|exact Hlt].
    eapply Tracklet_init_perm_inds; eassumption.
  - intros ND; apply sorted_le_nodup_lt; [exact S|].
    eapply Permutation_NoDup; [|exact ND].
    symmetry; eapply Tracklet_init_perm_inds; eassumption.
Qed.

Lemma C1_constructor_stable_sorted_witness :
  exists t,
    Tracklet_init [frame_at 30 0; frame_at 10 0; frame_at 11 0; frame_at 20 0] [3; 1; 1; 2]
      = Ok t /\
    length (data t) = length (inds t) /\
    StronglySorted Z.le (inds t) /\
    Permutation (combine (inds t) (data t))
      (combine [3; 1; 1; 2] [frame_at 30 0; frame_at 10 0; frame_at 11 0; frame_at 20 0]) /\
    (forall k, filter (fun p => fst p =? k) (combine (inds t) (data t))
               = filter (fun p => fst p =? k)
                   (combine [3; 1; 1; 2]
                      [frame_at 30 0; frame_at 10 0; frame_at 11 0; frame_at 20 0])) /\
    (StronglySorted Z.lt (inds t) <-> NoDup [3; 1; 1; 2]).
Proof.
  apply (@C1_constructor_stable_sorted IntegerArithmetic
           [frame_at 30 0; frame_at 10 0; frame_at 11 0; frame_at 20 0] [3; 1; 1; 2]).
  reflexivity.
Defined.

(** C1, as stated, fails on an input with a repeated frame index: the
    constructor keeps both records, so the stored indices are not
    strictly increasing. *)
Lemma C1_duplicate_indices_counterexample :
  Tracklet_init [frame_at 0 0; frame_at 5 5] [1; 1]
    = Ok (mkTracklet [frame_at 0 0; frame_at 5 5] [1; 1]) /\
  ~ StronglySorted Z.lt [1; 1].
Proof.
  split; [reflexivity|].
  intros H; inversion H as [|? ? _ Hall]; subst.
  inversion Hall; subst; lia.
Qed.

Example Tracklet_init_sorts :
  Tracklet_init [frame_at 30 0; frame_at 10 0; frame_at 11 0; frame_at 20 0] [3; 1; 1; 2]
  = Ok (mkTracklet [frame_at 10 0; frame_at 11 0; frame_at 20 0; frame_at 30 0] [1; 1; 2; 3]).
Proof. reflexivity. Qed.

(* ================================================================== *)
(** * Concatenation and the builtin sum                                *)
(* ================================================================== *)

Section Concatenation.
Context {N : Numeric}.

(** The left-to-right fold of pairwise merges, starting from the first
    tracklet of a non-empty chain. *)
Definition merge_chain (t : Tracklet) (ts : list Tracklet) : result Tracklet :=
  fold_left (fun acc x => a <- acc ;; add a x) ts (Ok t).

Lemma add_wf (a b : Tracklet) :
  wf a -> wf b -> exists c, add a b = Ok c /\ wf c /\
                            Permutation (inds c) (inds a ++ inds b).
Proof.
  intros Ha Hb; unfold add.
  assert (Hlen : length (data a ++ data b) = length (inds a ++ inds b))
    by (rewrite !length_app; unfold wf in *; lia).
  destruct (Tracklet_init_spec _ _ Hlen) as (c & E & Hwf & _ & P & _).
  exists c; repeat split; try assumption.
  eapply Tracklet_init_perm_inds; eassumption.
Qed.

Lemma fold_add_err (ts : list Tracklet) (e : exn) :
  fold_left (fun acc x => a <- acc ;; add a x) ts (Err e) = Err e.
Proof. induction ts as [|x ts IH]; [reflexivity|exact IH]. Qed.

Lemma sum_from_tracklet (t : Tracklet) (ts : list Tracklet) :
  sum_from (PTracklet t) (map PTracklet ts) = (r <- merge_chain t ts ;; Ok (PTracklet r)).
Proof.
  unfold merge_chain; revert t; induction ts as [|x ts IH]; intros t; [reflexivity|].
  simpl; destruct (add t x) as [c|e]; simpl.
  - apply IH.
  - rewrite fold_add_err; reflexivity.
Qed.

Lemma merge_chain_wf (t : Tracklet) (ts : list Tracklet) :
  wf t -> Forall wf ts -> exists r, merge_chain t ts = Ok r /\ wf r.
Proof.
  unfold merge_chain; revert t; induction ts as [|x ts IH]; intros t Ht Hts.
  - exists t; split; [reflexivity|exact Ht].
  - inversion Hts as [|? ? Hx Hts']; subst.
    destruct (add_wf Ht Hx) as (c & E & Hc & _).
    simpl; rewrite E; apply IH; assumption.
Qed.

End Concatenation.

(** C9.  [0 + t] is [t] itself ([__radd__] returns [self] for the int
    0), so [sum] of a non-empty list of tracklets is the left-to-right
    fold of pairwise merges from its first element; on tracklets whose
    data and indices are parallel arrays every merge returns, so the sum
    is a tracklet. *)
Theorem C9_zero_left_identity_sum {N : Numeric} (t : Tracklet) (ts : list Tracklet) :
  radd t (PInt 0) = Ok t /\
  py_add (PInt 0) (PTracklet t) = Ok (PTracklet t) /\
  py_sum (t :: ts) = (r <- merge_chain t ts ;; Ok (PTracklet r)) /\
  (wf t -> Forall wf ts -> exists r, py_sum (t :: ts) = Ok (PTracklet r) /\ wf r).
Proof.
  assert (E : py_sum (t :: ts) = (r <- merge_chain t ts ;; Ok (PTracklet r)))
    by (unfold py_sum; simpl; apply sum_from_tracklet).
  repeat split; try reflexivity; try exact E.
  intros Ht Hts; destruct (merge_chain_wf Ht Hts) as (r & Er & Hr).
  exists r; split; [rewrite E, Er; reflexivity|exact Hr].
Qed.

Lemma C9_zero_left_identity_sum_witness :
  exists r, py_sum [still_tracklet 5 3 0 0; still_tracklet 0 3 1 1; still_tracklet 10 2 2 2]
            = Ok (PTracklet r) /\ wf r.
Proof.
  apply (@C9_zero_left_identity_sum IntegerArithmetic (still_tracklet 5 3 0 0)
           [still_tracklet 0 3 1 1; still_tracklet 10 2 2 2]).
  - reflexivity.
  - repeat constructor.
Defined.

Example py_sum_merges :
  py_sum [still_tracklet 5 2 0 0; still_tracklet 0 2 1 1]
  = Ok (PTracklet (mkTracklet [frame_at 1 1; frame_at 1 1; frame_at 0 0; frame_at 0 0]
                     [0; 1; 5; 6])).
Proof. reflexivity. Qed.

(** The sum of an empty chain is the int 0, not a tracklet. *)
Example py_sum_empty : @py_sum IntegerArithmetic [] = Ok (PInt 0).
Proof. reflexivity. Qed.

(* ================================================================== *)
(** * Continuity and splitting                                         *)
(* ================================================================== *)

Lemma flatnonzero_from_S (k : nat) (m : list bool) :
  flatnonzero_from (S k) m = map S (flatnonzero_from k m).
Proof.
  revert k; induction m as [|b m IH]; intros k; [reflexivity|].
  simpl; destruct b; simpl; rewrite IH; reflexivity.
Qed.

Lemma np_split_from_shift {A : Type} (x : A) (l : list A) (st : nat) (idx : list nat) :
  np_split_from (x :: l) (S st) (map S idx) = np_split_from l st idx.
Proof.
  revert st; induction idx as [|p idx IH]; intros st; [reflexivity|].
  simpl map; simpl np_split_from; rewrite IH; reflexivity.
Qed.

(** Splitting [x :: l] at shifted positions puts [x] in front of the
    first piece of the split of [l]. *)
Lemma np_split_cons {A : Type} (x : A) (l : list A) (idx : list nat) :
  np_split (x :: l) (map S idx) =
  match np_split l idx with
  | h :: t => (x :: h) :: t
  | [] => []
  end.
Proof.
  unfold np_split; destruct idx as [|p idx]; [reflexivity|].
  simpl map; simpl np_split_from.
  rewrite np_split_from_shift, Nat.sub_0_r; reflexivity.
Qed.

Lemma np_split_break {A : Type} (x : A) (l : list A) (idx : list nat) :
  np_split (x :: l) (1%nat :: map S idx) = [x] :: np_split l idx.
Proof.
  unfold np_split; simpl np_split_from.
  rewrite (np_split_from_shift x l 0 idx); reflexivity.
Qed.

Lemma np_split_from_length {A : Type} (l : list A) (st : nat) (idx : list nat) :
  length (np_split_from l st idx) = S (length idx).
Proof.
  revert st; induction idx as [|p idx IH]; intros st; [reflexivity|].
  simpl; rewrite IH; reflexivity.
Qed.

Lemma np_split_nil {A : Type} (st : nat) (idx : list nat) :
  concat (np_split_from (@nil A) st idx) = [].
Proof.
  revert st; induction idx as [|p idx IH]; intros st.
  - simpl; rewrite skipn_nil; reflexivity.
  - simpl; rewrite skipn_nil, firstn_nil; apply IH.
Qed.

(** The break positions: one past every place where two successive
    indices do not differ by exactly 1. *)
Definition breaks (l : list Z) : list nat :=
  map S (flatnonzero (map (fun d => negb (d =? 1)) (diff Z.sub l))).

Lemma breaks_cons2 (x y : Z) (l : list Z) :
  breaks (x :: y :: l) =
  if y - x =? 1 then map S (breaks (y :: l)) else 1%nat :: map S (breaks (y :: l)).
Proof.
  unfold breaks, flatnonzero, diff; simpl.
  destruct (y - x =? 1); simpl; rewrite flatnonzero_from_S; reflexivity.
Qed.

(** Cutting any array at the break positions of an index array loses
    nothing: the pieces, end to end, are the array. *)
Lemma np_split_breaks_concat {A : Type} (inds0 : list Z) :
  forall l : list A, concat (np_split l (breaks inds0)) = l.
Proof.
  induction inds0 as [|x inds1 IH]; intros l.
  - unfold breaks, np_split; simpl; rewrite app_nil_r; reflexivity.
  - destruct inds1 as [|y inds1].
    + unfold breaks, np_split; simpl; rewrite app_nil_r; reflexivity.
    + rewrite breaks_cons2; destruct l as [|a l].
      * destruct (y - x =? 1); apply np_split_nil.
      * destruct (y - x =? 1).
        -- rewrite np_split_cons.
           specialize (IH l).
           destruct (np_split l (breaks (y :: inds1))) as [|h t] eqn:E.
           ++ unfold np_split in E.
              pose proof (np_split_from_length l 0 (breaks (y :: inds1))) as L.
              rewrite E in L; discriminate.
           ++ simpl in *; rewrite IH; reflexivity.
        -- rewrite np_split_break; simpl; rewrite IH; reflexivity.
Qed.

(** Every piece of the index array is strictly increasing, and the
    first piece starts with the first index. *)
Lemma np_split_breaks_increasing (inds0 : list Z) :
  Forall (fun piece => monotonically_increasing piece = true)
         (np_split inds0 (breaks inds0)) /\
  (forall x l, inds0 = x :: l ->
     exists h t, np_split inds0 (breaks inds0) = (x :: h) :: t).
Proof.
  induction inds0 as [|x inds1 IH].
  - split; [repeat constructor|discriminate].
  - destruct inds1 as [|y inds1].
    + split; [repeat constructor|].
      intros x0 l E; injection E as <- <-; exists [], []; reflexivity.
    + destruct IH as [IHm IHh].
      destruct (IHh y inds1 eq_refl) as (h & t & E).
      rewrite breaks_cons2; destruct (y - x =? 1) eqn:D.
      * rewrite np_split_cons, E; split.
        -- rewrite E in IHm; inversion IHm as [|? ? Hh Ht]; subst.
           constructor; [|exact Ht].
           unfold monotonically_increasing in *; simpl in *.
           apply andb_true_iff; split; [lia|exact Hh].
        -- intros x0 l E0; injection E0 as <- <-; eauto.
      * rewrite np_split_break; split.
        -- constructor; [reflexivity|exact IHm].
        -- intros x0 l E0; injection E0 as <- <-; eauto.
Qed.

Section Splitting.
Context {N : Numeric}.

Lemma split_tracklet_pieces (t : Tracklet) :
  split_tracklet t =
  Ok (map (fun p => mkTracklet (fst p) (snd p))
          (combine (np_split (data t) (breaks (inds t)))
                   (np_split (inds t) (breaks (inds t))))).
Proof.
  unfold split_tracklet; fold (breaks (inds t)).
  apply mapM_ok; intros [d i] Hin; simpl.
  apply Tracklet_init_sorted_input.
  apply in_combine_r in Hin.
  destruct (np_split_breaks_increasing (inds t)) as [Hm _].
  rewrite Forall_forall in Hm; apply Hm; exact Hin.
Qed.

(** Splitting never fails, and the pieces, put back end to end,
    are the original index and data arrays. *)
Lemma split_tracklet_reconstructs (t : Tracklet) :
  exists pieces,
    split_tracklet t = Ok pieces /\
    concat (map inds pieces) = inds t /\
    concat (map data pieces) = data t.
Proof.
  eexists; split; [apply split_tracklet_pieces|].
  rewrite !map_map; simpl.
  assert (L : length (np_split (data t) (breaks (inds t)))
              = length (np_split (inds t) (breaks (inds t))))
    by (unfold np_split; rewrite !np_split_from_length; reflexivity).
  split.
  - change (fun x : list row * list Z => snd x) with (@snd (list row) (list Z)).
    rewrite map_snd_combine by exact L; apply np_split_breaks_concat.
  - change (fun x : list row * list Z => fst x) with (@fst (list row) (list Z)).
    rewrite map_fst_combine by exact L; apply np_split_breaks_concat.
Qed.

Lemma last_of_defined {A : Type} (x : A) (l : list A) : exists e, last_of (x :: l) = Ok e.
Proof.
  revert x; induction l as [|y l IH]; intros x; [exists x; reflexivity|].
  destruct (IH y) as (e & E); exists e; exact E.
Qed.

Lemma start_end_defined (t : Tracklet) :
  inds t <> [] -> exists s e, start t = Ok s /\ end_ t = Ok e.
Proof.
  unfold start, end_; intros H; destruct (inds t) as [|x l]; [contradiction|].
  destruct (last_of_defined x l) as (e & E).
  exists x, e; split; [reflexivity|exact E].
Qed.

End Splitting.

(** C6.  For every tracklet with at least one frame, [is_continuous]
    returns, and it holds if and only if [end - start + 1] equals the
    length.  For every tracklet (so for every non-continuous one),
    [split_tracklet] returns a list of tracklets whose index arrays,
    concatenated in split order, are exactly the index array of the
    original, and likewise for the data: nothing is lost, duplicated or
    reordered. *)
Theorem C6_continuity_and_split {N : Numeric} (t : Tracklet) :
  (inds t <> [] ->
   exists s e, start t = Ok s /\ end_ t = Ok e /\
               is_continuous t = Ok (e - s + 1 =? len t) /\
               (is_continuous t = Ok true <-> e - s + 1 = len t)) /\
  (exists pieces,
     split_tracklet t = Ok pieces /\
     concat (map inds pieces) = inds t /\
     concat (map data pieces) = data t).
Proof.
  split; [|apply split_tracklet_reconstructs].
  intros H; destruct (start_end_defined t H) as (s & e & Es & Ee).
  exists s, e; unfold is_continuous; rewrite Es, Ee; simpl.
  repeat split; try reflexivity.
  - intros E; injection E as E; apply Z.eqb_eq; exact E.
  - intros E; apply Z.eqb_eq in E; rewrite E; reflexivity.
Qed.

Lemma C6_continuity_and_split_witness :
  exists s e,
    start (mkTracklet (repeat (frame_at 0 0) 5) [1; 2; 5; 6; 9]) = Ok s /\
    end_ (mkTracklet (repeat (frame_at 0 0) 5) [1; 2; 5; 6; 9]) = Ok e /\
    is_continuous (mkTracklet (repeat (frame_at 0 0) 5) [1; 2; 5; 6; 9])
      = Ok (e - s + 1 =? len (mkTracklet (repeat (frame_at 0 0) 5) [1; 2; 5; 6; 9])) /\
    (is_continuous (mkTracklet (repeat (frame_at 0 0) 5) [1; 2; 5; 6; 9]) = Ok true
     <-> e - s + 1 = len (mkTracklet (repeat (frame_at 0 0) 5) [1; 2; 5; 6; 9])).
Proof.
  apply (proj1 (@C6_continuity_and_split IntegerArithmetic
                  (mkTracklet (repeat (frame_at 0 0) 5) [1; 2; 5; 6; 9]))).
  simpl; discriminate.
Defined.

Example split_tracklet_runs :
  split_tracklet (mkTracklet [frame_at 1 0; frame_at 2 0; frame_at 5 0; frame_at 6 0; frame_at 9 0]
                    [1; 2; 5; 6; 9])
  = Ok [mkTracklet [frame_at 1 0; frame_at 2 0] [1; 2];
        mkTracklet [frame_at 5 0; frame_at 6 0] [5; 6];
        mkTracklet [frame_at 9 0] [9]].
Proof. reflexivity. Qed.

(** A repeated index is a break as well: both copies are kept, in
    separate pieces. *)
Example split_tracklet_duplicate :
  split_tracklet (mkTracklet [frame_at 1 0; frame_at 2 0; frame_at 3 0] [4; 4; 5])
  = Ok [mkTracklet [frame_at 1 0] [4]; mkTracklet [frame_at 2 0; frame_at 3 0] [4; 5]].
Proof. reflexivity. Qed.

(** Neither [start] nor [is_continuous] is defined on a tracklet
    without frames. *)
Example is_continuous_empty :
  is_continuous (@mkTracklet IntegerArithmetic [] []) = Err IndexError.
Proof. reflexivity. Qed.

(* ================================================================== *)
(** * Temporal relations between tracklets                             *)
(* ================================================================== *)

Lemma bind_ok_inv {A B : Type} (m : result A) (k : A -> result B) (b : B) :
  bind m k = Ok b -> exists a, m = Ok a /\ k a = Ok b.
Proof. destruct m as [a|e]; simpl; intros H; [eauto|discriminate]. Qed.

Lemma any_isin (la lb : list Z) :
  any (isin la lb) = true <-> exists k, In k la /\ In k lb.
Proof.
  unfold any, isin; rewrite existsb_exists; split.
  - intros (b & Hb & ->); apply in_map_iff in Hb as (x & Hx & Hin).
    apply existsb_exists in Hx as (y & Hy & E); apply Z.eqb_eq in E; subst y.
    exists x; split; assumption.
  - intros (k & Ha & Hb); exists true; split; [|reflexivity].
    apply in_map_iff; exists k; split; [|exact Ha].
    apply existsb_exists; exists k; split; [exact Hb|apply Z.eqb_refl].
Qed.

Lemma enumerate_in {A : Type} (l : list A) (s i : nat) (x : A) :
  In (i, x) (combine (seq s (length l)) l) -> nth_error l (i - s) = Some x /\ (s <= i)%nat.
Proof.
  revert s; induction l as [|a l IH]; intros s H; [destruct H|].
  simpl in H; destruct H as [H|H].
  - injection H as -> ->; rewrite Nat.sub_diag; split; [reflexivity|lia].
  - destruct (IH (S s) H) as [E L]; split; [|lia].
    replace (i - s)%nat with (S (i - S s)) by lia; exact E.
Qed.

Lemma combinations2_enumerate_in {A : Type} (l : list A) (s i j : nat) (a b : A) :
  In ((i, a), (j, b)) (combinations2 (combine (seq s (length l)) l)) ->
  nth_error l (i - s) = Some a /\ nth_error l (j - s) = Some b /\ (s <= i < j)%nat.
Proof.
  revert s; induction l as [|x l IH]; intros s H; [destruct H|].
  simpl in H; apply in_app_or in H as [H|H].
  - apply in_map_iff in H as ([j' b'] & E & Hin); injection E as <- <- -> ->.
    apply enumerate_in in Hin as [Hb Hj].
    rewrite Nat.sub_diag; repeat split; try lia.
    replace (j - s)%nat with (S (j - S s)) by lia; exact Hb.
  - destruct (IH (S s) H) as (Ea & Eb & L); repeat split; try lia.
    + replace (i - s)%nat with (S (i - S s)) by lia; exact Ea.
    + replace (j - s)%nat with (S (j - S s)) by lia; exact Eb.
Qed.

Section TemporalRelations.
Context {N : Numeric}.

(** Two tracklets overlap when they share a frame index. *)
Lemma py_in_spec (a b : Tracklet) :
  py_in a b = true <-> exists k, In k (inds a) /\ In k (inds b).
Proof.
  unfold py_in, contains; rewrite any_isin; split; intros (k & H1 & H2); eauto.
Qed.

Lemma py_in_sym (a b : Tracklet) : py_in a b = py_in b a.
Proof.
  apply eq_true_iff_eq; rewrite !py_in_spec; split; intros (k & H1 & H2); eauto.
Qed.

Lemma py_in_false (a b : Tracklet) :
  py_in a b = false <-> forall k, In k (inds a) -> ~ In k (inds b).
Proof.
  rewrite <- not_true_iff_false, py_in_spec; split.
  - intros H k Ha Hb; apply H; eauto.
  - intros H (k & Ha & Hb); exact (H k Ha Hb).
Qed.

(** Neither precedes, nor follows, nor overlaps. *)
Definition interleaved (a b : Tracklet) : Prop :=
  py_in a b = false /\ lt a b = Ok false /\ gt a b = Ok false.

Lemma lt_gt_swap (a b : Tracklet) (c : bool) : lt a b = Ok c <-> gt b a = Ok c.
Proof.
  unfold lt, gt; split; intros H;
    apply bind_ok_inv in H as (x & Ex & H);
    apply bind_ok_inv in H as (y & Ey & H);
    rewrite Ex, Ey; simpl; rewrite <- H; f_equal.
  - apply Z.gtb_ltb.
  - symmetry; apply Z.gtb_ltb.
Qed.

Lemma interleaved_sym (a b : Tracklet) : interleaved a b -> interleaved b a.
Proof.
  intros (H1 & H2 & H3); repeat split.
  - rewrite py_in_sym; exact H1.
  - apply lt_gt_swap; exact H3.
  - apply lt_gt_swap; exact H2.
Qed.

Lemma interleaved_gap (a b : Tracklet) :
  interleaved a b ->
  exists s e, start a = Ok s /\ end_ b = Ok e /\ s <= e /\ time_gap_to a b = Ok (s - e).
Proof.
  intros (H1 & H2 & H3); unfold time_gap_to; rewrite H1, H2; simpl.
  unfold gt in H3.
  apply bind_ok_inv in H3 as (s & Es & H3).
  apply bind_ok_inv in H3 as (e & Ee & H3).
  injection H3 as H3; exists s, e; rewrite Es, Ee; simpl.
  repeat split; try reflexivity.
  rewrite Z.gtb_ltb in H3; apply Z.ltb_ge in H3; exact H3.
Qed.

Lemma transition_edge_interleaved (max_gap : Z) (i j : nat) (a b : Tracklet) :
  interleaved a b -> transition_edge max_gap ((i, a), (j, b)) = Ok [].
Proof.
  intros H; destruct (interleaved_gap H) as (s & e & _ & _ & L & E).
  unfold transition_edge; rewrite E; simpl.
  replace (0 <? s - e) with false by (symmetry; apply Z.ltb_ge; lia).
  reflexivity.
Qed.

Lemma transition_edge_ends (max_gap : Z) (i j : nat) (a b : Tracklet)
    (l : list edge) (e : edge) :
  transition_edge max_gap ((i, a), (j, b)) = Ok l -> In e l ->
  (e_src e = NOut i /\ e_dst e = NIn j) \/ (e_src e = NOut j /\ e_dst e = NIn i).
Proof.
  unfold transition_edge; intros H Hin.
  apply bind_ok_inv in H as (g & _ & H).
  destruct ((0 <? g) && (g <=? max_gap)); [|injection H as <-; destruct Hin].
  apply bind_ok_inv in H as (wf0 & _ & H).
  apply bind_ok_inv in H as (w & _ & H).
  apply bind_ok_inv in H as (c & _ & H).
  destruct c; injection H as <-; destruct Hin as [<-|[]]; simpl; auto.
Qed.

Lemma transition_edges_in (max_gap : Z) (ps : list ((nat * Tracklet) * (nat * Tracklet)))
    (es : list edge) (e : edge) :
  transition_edges max_gap ps = Ok es -> In e es ->
  exists p l, In p ps /\ transition_edge max_gap p = Ok l /\ In e l.
Proof.
  revert es; induction ps as [|p ps IH]; intros es H Hin; simpl in H.
  - injection H as <-; destruct Hin.
  - apply bind_ok_inv in H as (l & El & H).
    apply bind_ok_inv in H as (es' & Ees & H).
    injection H as <-; apply in_app_or in Hin as [Hin|Hin].
    + exists p, l; repeat split; [left; reflexivity|exact El|exact Hin].
    + destruct (IH es' Ees Hin) as (p' & l' & Hp & El' & Hl').
      exists p', l'; repeat split; [right; exact Hp|exact El'|exact Hl'].
Qed.

Lemma build_graph_of_edges (n_tracks0 : Z) (ts : list Tracklet)
    (max_gap : option Z) (g : DiGraph) :
  build_graph_of n_tracks0 ts max_gap = Ok g ->
  exists mg tes,
    resolve_max_gap ts max_gap = Ok mg /\
    transition_edges mg (combinations2 (enumerate ts)) = Ok tes /\
    g_edges g =
      map (fun i => mkEdge (NIn i) (NOut i) None 1) (seq 0 (length ts))
      ++ map (fun i => mkEdge Source (NIn i) None 1) (seq 0 (length ts))
      ++ map (fun i => mkEdge (NOut i) Sink None 1) (seq 0 (length ts))
      ++ tes.
Proof.
  unfold build_graph_of; intros H.
  apply bind_ok_inv in H as (mg & Emg & H).
  destruct (length ts) as [|[|n]] eqn:Hn; try discriminate.
  apply bind_ok_inv in H as (tes & Etes & H); injection H as <-.
  exists mg, tes; repeat split; assumption || reflexivity.
Qed.

(** The transition edges of the graph join an exit to an entry; the
    other edges of the graph never do. *)
Lemma build_graph_transition_edge (n_tracks0 : Z) (ts : list Tracklet)
    (max_gap : option Z) (g : DiGraph) (e : edge) (i j : nat) :
  build_graph_of n_tracks0 ts max_gap = Ok g ->
  In e (g_edges g) -> e_src e = NOut i -> e_dst e = NIn j ->
  exists mg a b l,
    resolve_max_gap ts max_gap = Ok mg /\
    ((In ((i, a), (j, b)) (combinations2 (enumerate ts)) /\
      transition_edge mg ((i, a), (j, b)) = Ok l) \/
     (In ((j, b), (i, a)) (combinations2 (enumerate ts)) /\
      transition_edge mg ((j, b), (i, a)) = Ok l)) /\
    In e l.
Proof.
  intros H Hin Hs Hd.
  destruct (build_graph_of_edges _ _ _ H) as (mg & tes & Emg & Etes & Eg).
  rewrite Eg in Hin.
  repeat (apply in_app_or in Hin as [Hin|Hin];
          [apply in_map_iff in Hin as (k & <- & _); cbn in Hs, Hd; discriminate|]).
  destruct (transition_edges_in _ _ _ Etes Hin) as ([[i' a] [j' b]] & l & Hp & El & Hl).
  destruct (transition_edge_ends _ _ _ _ _ _ El Hl) as [[E1 E2]|[E1 E2]];
    rewrite Hs in E1; rewrite Hd in E2; injection E1 as <-; injection E2 as <-.
  - exists mg, a, b, l; split; [exact Emg|]; split; [left; split; assumption|exact Hl].
  - exists mg, b, a, l; split; [exact Emg|]; split; [right; split; assumption|exact Hl].
Qed.

End TemporalRelations.

Section InterleavedPairs.
Context {N : Numeric}.

Lemma no_edge_one_way (n_tracks0 : Z) (ts : list Tracklet) (max_gap : option Z)
    (g : DiGraph) (i j : nat) (a b : Tracklet) (e : edge) :
  build_graph_of n_tracks0 ts max_gap = Ok g ->
  nth_error ts i = Some a -> nth_error ts j = Some b -> interleaved a b ->
  In e (g_edges g) -> ~ (e_src e = NOut i /\ e_dst e = NIn j).
Proof.
  intros H Hi Hj Hab Hin [Hs Hd].
  edestruct build_graph_transition_edge
    as (mg & a' & b' & l & _ & [[Hp El]|[Hp El]] & Hl);
    [exact H|exact Hin|exact Hs|exact Hd| |];
    apply combinations2_enumerate_in in Hp as (Ea & Eb & _);
    rewrite Nat.sub_0_r in Ea, Eb.
  - assert (a' = a) by congruence; assert (b' = b) by congruence; subst.
    rewrite transition_edge_interleaved in El by exact Hab.
    injection El as <-; destruct Hl.
  - assert (a' = a) by congruence; assert (b' = b) by congruence; subst.
    rewrite transition_edge_interleaved in El by (apply interleaved_sym; exact Hab).
    injection El as <-; destruct Hl.
Qed.

End InterleavedPairs.



Example interleaved_time_gap :
  time_gap_to (mkTracklet (repeat (frame_at 0 0) 3) [0; 2; 4])
    (mkTracklet (repeat (frame_at 9 9) 3) [1; 3; 5]) = Ok (-5).
Proof. reflexivity. Qed.

Example interleaved_distance :
  distance_to (mkTracklet (repeat (frame_at 0 0) 3) [0; 2; 4])
    (mkTracklet (repeat (frame_at 3 4) 3) [1; 3; 5]) = Ok 5.
Proof. reflexivity. Qed.

(* ================================================================== *)
(** * The default maximal gap                                          *)
(* ================================================================== *)

(** [v] is the smallest positive value of [vals]. *)
Definition smallest_positive (vals : list Z) (v : Z) : Prop :=
  In v vals /\ 0 < v /\ forall w, In w vals -> 0 < w -> v <= w.

Lemma find_positive_sorted (l : list Z) :
  StronglySorted Z.le l ->
  match find (fun val => val >? 0) l with
  | Some v => smallest_positive l v
  | None => forall w, In w l -> w <= 0
  end.
Proof.
  induction 1 as [|a l S IH Hall]; simpl; [intros w []|].
  destruct (a >? 0) eqn:E; rewrite Z.gtb_ltb in E.
  - apply Z.ltb_lt in E; repeat split; [left; reflexivity|exact E|].
    intros w [<-|Hw] _; [lia|].
    rewrite Forall_forall in Hall; apply Hall; exact Hw.
  - apply Z.ltb_ge in E; destruct (find (fun val => val >? 0) l) as [v|].
    + destruct IH as (Hin & Hpos & Hmin); repeat split; [right; exact Hin|exact Hpos|].
      intros w [<-|Hw] Hw0; [lia|apply Hmin; assumption].
    + intros w [<-|Hw]; [exact E|apply IH; exact Hw].
Qed.

Lemma sorted_Z_spec (vals : list Z) :
  match find (fun val => val >? 0) (sorted_Z vals) with
  | Some v => smallest_positive vals v
  | None => forall w, In w vals -> w <= 0
  end.
Proof.
  pose proof (msort_strongly_sorted (fun z : Z => z) vals) as S.
  pose proof (msort_perm (fun z : Z => z) vals) as P.
  fold (sorted_Z vals) in S, P.
  pose proof (find_positive_sorted S) as H.
  destruct (find (fun val => val >? 0) (sorted_Z vals)) as [v|].
  - destruct H as (Hin & Hpos & Hmin); repeat split.
    + eapply Permutation_in; eassumption.
    + exact Hpos.
    + intros w Hw; apply Hmin; eapply Permutation_in; [symmetry|]; eassumption.
  - intros w Hw; apply H; eapply Permutation_in; [symmetry|]; eassumption.
Qed.

Lemma smallest_positive_unique (vals : list Z) (v w : Z) :
  smallest_positive vals v -> smallest_positive vals w -> v = w.
Proof.
  intros (H1 & H2 & H3) (K1 & K2 & K3).
  pose proof (H3 w K1 K2); pose proof (K3 v H1 H2); lia.
Qed.

Lemma update_max_gap_spec (m : Z) (vals : list Z) :
  (exists v, smallest_positive vals v /\ update_max_gap m vals = Z.max m v) \/
  ((forall w, In w vals -> w <= 0) /\ update_max_gap m vals = m).
Proof.
  unfold update_max_gap; pose proof (sorted_Z_spec vals) as H.
  destruct (find (fun val => val >? 0) (sorted_Z vals)) as [v|].
  - left; exists v; split; [exact H|].
    destruct (v >? m) eqn:E; rewrite Z.gtb_ltb in E;
      [apply Z.ltb_lt in E|apply Z.ltb_ge in E]; lia.
  - right; split; [exact H|reflexivity].
Qed.

(** The loop of [compute_max_gap] returns the largest of the smallest
    positive gaps of the lists (or its initial value). *)
Lemma fold_update_max_gap (gaps : list (list Z)) (m0 : Z) :
  let M := fold_left update_max_gap gaps m0 in
  m0 <= M /\
  (forall vals v, In vals gaps -> smallest_positive vals v -> v <= M) /\
  (M = m0 \/ exists vals, In vals gaps /\ smallest_positive vals M).
Proof.
  revert m0; induction gaps as [|vals gaps IH]; intros m0; simpl.
  - repeat split; [lia|intros ? ? []|left; reflexivity].
  - destruct (IH (update_max_gap m0 vals)) as (H1 & H2 & H3).
    destruct (update_max_gap_spec m0 vals) as [(v & Hv & E)|[Hn E]]; rewrite E in *.
    + repeat split; [lia| |].
      * intros vals' v' [<-|Hin] Hv'; [|apply (H2 vals' v' Hin Hv')].
        assert (v' = v) by (eapply smallest_positive_unique; eassumption); subst v'; lia.
      * destruct H3 as [H3|(vals' & Hin & Hs)]; [|right; exists vals'; split; [right|]; assumption].
        destruct (Z.max_spec m0 v) as [[_ Em]|[_ Em]]; rewrite Em in H3 |- *.
        -- right; exists vals; split; [left; reflexivity|rewrite H3; exact Hv].
        -- left; exact H3.
    + repeat split; [exact H1| |].
      * intros vals' v' [<-|Hin] Hv'; [|apply (H2 vals' v' Hin Hv')].
        destruct Hv' as (Hin' & Hpos & _); specialize (Hn v' Hin'); lia.
      * destruct H3 as [H3|(vals' & Hin & Hs)]; [left; exact H3|].
        right; exists vals'; split; [right|]; assumption.
Qed.

Lemma mapM_in {A B : Type} (f : A -> result B) (l : list A) (r : list B) (b : B) :
  mapM f l = Ok r -> (In b r <-> exists a, In a l /\ f a = Ok b).
Proof.
  revert r; induction l as [|x l IH]; intros r H; simpl in H.
  - injection H as <-; split; [intros []|intros (a & [] & _)].
  - apply bind_ok_inv in H as (y & Ey & H).
    apply bind_ok_inv in H as (ys & Eys & H); injection H as <-.
    specialize (IH ys Eys); split.
    + intros [<-|Hin]; [exists x; split; [left; reflexivity|exact Ey]|].
      apply IH in Hin as (a & Ha & Ea); exists a; split; [right|]; assumption.
    + intros (a & [<-|Ha] & Ea); [left; congruence|].
      right; apply IH; exists a; split; assumption.
Qed.

Section DefaultGap.
Context {N : Numeric}.

(** The lists of [compute_max_gap]: one per tracklet that has a later
    tracklet in the list, holding its gaps to all the later ones. *)
Lemma gap_lists_spec (ts : list Tracklet) (gaps : list (list Z)) :
  gap_lists ts = Ok gaps ->
  forall pre t post, ts = pre ++ t :: post -> post <> [] ->
    exists vals, mapM (time_gap_to t) post = Ok vals /\ In vals gaps.
Proof.
  revert gaps; induction ts as [|t1 ts IH]; intros gaps H pre t post E Hpost.
  - destruct pre; discriminate.
  - destruct ts as [|t2 ts].
    + destruct pre as [|p pre]; [injection E as _ <-; contradiction|].
      destruct pre; discriminate.
    + cbn [gap_lists] in H.
      apply bind_ok_inv in H as (vals & Ev & H).
      apply bind_ok_inv in H as (rest & Er & H); injection H as <-.
      destruct pre as [|p pre].
      * injection E as <- <-; exists vals; split; [exact Ev|left; reflexivity].
      * injection E as <- E.
        destruct (IH rest Er pre t post E Hpost) as (vals' & Ev' & Hin).
        exists vals'; split; [exact Ev'|right; exact Hin].
Qed.

Lemma int_1_5_times_nonneg (g : Z) : 0 <= g -> int_1_5_times g = 3 * g / 2.
Proof. intros H; unfold int_1_5_times; apply Z.quot_div_nonneg; lia. Qed.

End DefaultGap.




(* ================================================================== *)
(** * Affinities of overlapping tracklets                              *)
(* ================================================================== *)

(** Laws of floating-point arithmetic that some theorems rely on; each
    theorem names the ones it needs.  Both hold for IEEE binary64:
    [x - y] and [y - x] differ in sign only, so their squares are the
    same value; the fitted values of the smoothing are one per sample. *)
Definition sq_diff_symmetric (N : Numeric) : Prop :=
  forall x y : F, fmul (fsub x y) (fsub x y) = fmul (fsub y x) (fsub y x).

Definition smoothing_keeps_length (N : Numeric) : Prop :=
  forall l : list F, length (exp_smoothing l) = length l.

Definition map_result {A B : Type} (f : A -> B) (r : result A) : result B :=
  match r with
  | Ok a => Ok (f a)
  | Err e => Err e
  end.

Lemma mask_select_err {A : Type} (l : list A) (m : list bool) (e : exn) :
  mask_select l m = Err e -> e = IndexError.
Proof.
  revert m; induction l as [|a l IH]; intros [|b m] H; simpl in H;
    try discriminate; try (injection H as <-; reflexivity).
  destruct (mask_select l m) as [r|e'] eqn:E; simpl in H; [discriminate|].
  injection H as <-; eapply IH; exact E.
Qed.

Lemma mask_select_ok {A : Type} (l : list A) (m : list bool) :
  length l = length m ->
  exists r, mask_select l m = Ok r /\ length r = length (filter (fun b => b) m).
Proof.
  revert m; induction l as [|a l IH]; intros [|b m] H; try discriminate.
  - exists []; split; reflexivity.
  - destruct (IH m) as (r & E & L); [simpl in H; lia|].
    simpl; rewrite E; simpl; destruct b; eexists; split; try reflexivity; simpl; lia.
Qed.

Lemma isin_count (la lb : list Z) :
  length (filter (fun b => b) (isin la lb))
  = length (filter (fun x => existsb (Z.eqb x) lb) la).
Proof.
  unfold isin; induction la as [|x la IH]; [reflexivity|].
  simpl; destruct (existsb (Z.eqb x) lb); simpl; rewrite IH; reflexivity.
Qed.

Lemma existsb_eqb_in (x : Z) (l : list Z) : existsb (Z.eqb x) l = true <-> In x l.
Proof.
  rewrite existsb_exists; split.
  - intros (y & Hy & E); apply Z.eqb_eq in E; subst; exact Hy.
  - intros H; exists x; split; [exact H|apply Z.eqb_refl].
Qed.

(** Without repeated indices, each tracklet has as many frames in
    common with the other as the other has with it. *)
Lemma common_count (la lb : list Z) :
  NoDup la -> NoDup lb ->
  length (filter (fun x => existsb (Z.eqb x) lb) la)
  = length (filter (fun x => existsb (Z.eqb x) la) lb).
Proof.
  intros Ha Hb; apply Permutation_length, NoDup_Permutation.
  - apply NoDup_filter; exact Ha.
  - apply NoDup_filter; exact Hb.
  - intros x; rewrite !filter_In, !existsb_eqb_in; tauto.
Qed.

Section OverlapAffinities.
Context {N : Numeric}.

Lemma norm2_vsub_sym (p q : vec2) :
  sq_diff_symmetric N -> norm2 (vsub p q) = norm2 (vsub q p).
Proof.
  intros H; unfold norm2, vsub; simpl.
  rewrite (H (fst p) (fst q)), (H (snd p) (snd q)); reflexivity.
Qed.

Lemma map_norm2_combine_sym (a b : list vec2) :
  sq_diff_symmetric N ->
  map norm2 (map (fun p => vsub (fst p) (snd p)) (combine a b))
  = map norm2 (map (fun p => vsub (fst p) (snd p)) (combine b a)).
Proof.
  intros H; revert b; induction a as [|x a IH]; intros [|y b]; try reflexivity.
  simpl; rewrite (norm2_vsub_sym x y H), IH; reflexivity.
Qed.

(** The broadcast difference of two centroid arrays has the same row
    norms in either order, and fails in either order or in none. *)
Lemma broadcast_norm_sym (a b : list vec2) :
  sq_diff_symmetric N ->
  map_result (map norm2) (broadcast2 vsub a b)
  = map_result (map norm2) (broadcast2 vsub b a).
Proof.
  intros H; unfold broadcast2; rewrite (Nat.eqb_sym (length b) (length a)).
  destruct (length a =? length b)%nat eqn:E.
  - simpl; f_equal; apply map_norm2_combine_sym; exact H.
  - destruct a as [|x [|x' a]]; destruct b as [|y [|y' b]];
      try discriminate; try reflexivity; simpl;
      rewrite ?map_map; f_equal;
      repeat (f_equal; [apply norm2_vsub_sym; exact H|]);
      apply map_ext; intros; apply norm2_vsub_sym; exact H.
Qed.

Lemma distance_to_overlap (a b : Tracklet) :
  py_in a b = true ->
  distance_to a b =
  (p <- mask_select (centroid a) (isin (inds a) (inds b)) ;;
   q <- mask_select (centroid b) (isin (inds b) (inds a)) ;;
   map_result (fun r => np_mean r) (map_result (map norm2) (broadcast2 vsub p q))).
Proof.
  intros H; unfold distance_to; rewrite H.
  destruct (mask_select (centroid a) _) as [p|]; [|reflexivity].
  destruct (mask_select (centroid b) _) as [q|]; [|reflexivity].
  simpl; destruct (broadcast2 vsub p q); reflexivity.
Qed.

Lemma distance_to_overlap_sym (a b : Tracklet) :
  sq_diff_symmetric N -> py_in a b = true -> distance_to a b = distance_to b a.
Proof.
  intros H Hab.
  rewrite (distance_to_overlap a b Hab).
  rewrite (distance_to_overlap b a) by (rewrite py_in_sym; exact Hab).
  destruct (mask_select (centroid a) _) as [p|e1] eqn:E1;
    destruct (mask_select (centroid b) _) as [q|e2] eqn:E2; simpl; try reflexivity.
  - rewrite (broadcast_norm_sym p q H); reflexivity.
  - apply mask_select_err in E1, E2; subst; reflexivity.
Qed.

Lemma centroid_length (t : Tracklet) :
  smoothing_keeps_length N -> length (centroid t) = length (data t).
Proof.
  intros H; unfold centroid; cbv zeta.
  assert (L : length (raw_centroid t) = length (data t))
    by (unfold raw_centroid, xy; rewrite !length_map; reflexivity).
  destruct (length (raw_centroid t) <=? 10)%nat; [exact L|].
  unfold vec2 in *; rewrite length_combine, !H, !length_map, L; apply Nat.min_id.
Qed.

Lemma distance_to_overlap_defined (a b : Tracklet) :
  smoothing_keeps_length N -> wf a -> wf b -> NoDup (inds a) -> NoDup (inds b) ->
  py_in a b = true -> exists d, distance_to a b = Ok d.
Proof.
  intros HS Ha Hb Da Db Hab; rewrite (distance_to_overlap a b Hab).
  destruct (mask_select_ok (centroid a) (isin (inds a) (inds b))) as (p & Ep & Lp).
  { rewrite (centroid_length a HS); unfold isin; rewrite length_map; exact Ha. }
  destruct (mask_select_ok (centroid b) (isin (inds b) (inds a))) as (q & Eq & Lq).
  { rewrite (centroid_length b HS); unfold isin; rewrite length_map; exact Hb. }
  rewrite Ep, Eq; simpl.
  rewrite isin_count in Lp, Lq; rewrite (common_count Da Db) in Lp.
  unfold broadcast2; replace (length p =? length q)%nat with true
    by (symmetry; apply Nat.eqb_eq; congruence).
  eexists; reflexivity.
Qed.

End OverlapAffinities.

(** C5 (amended).  For every pair of tracklets that share a frame
    index, [box_overlap_with] returns 0 and [shape_dissimilarity_with]
    returns +infinity from either direction, neither raising, and
    [distance_to] gives the same outcome from either direction.  When
    neither tracklet repeats a frame index, [distance_to] returns a
    value. *)
Theorem C5_overlapping_pairs {N : Numeric} (a b : Tracklet) :
  sq_diff_symmetric N ->
  py_in a b = true ->
  box_overlap_with a b = Ok (of_int 0) /\
  box_overlap_with b a = Ok (of_int 0) /\
  shape_dissimilarity_with a b = Ok finf /\
  shape_dissimilarity_with b a = Ok finf /\
  distance_to a b = distance_to b a /\
  (smoothing_keeps_length N -> wf a -> wf b -> NoDup (inds a) -> NoDup (inds b) ->
   exists d, distance_to a b = Ok d /\ distance_to b a = Ok d).
Proof.
  intros HS Hab.
  assert (Hba : py_in b a = true) by (rewrite py_in_sym; exact Hab).
  unfold box_overlap_with, shape_dissimilarity_with; rewrite Hab, Hba.
  repeat split.
  - apply distance_to_overlap_sym; assumption.
  - intros HL Ha Hb Da Db.
    edestruct distance_to_overlap_defined as (d & E);
      [exact HL|exact Ha|exact Hb|exact Da|exact Db|exact Hab|].
    exists d; split; [exact E|].
    rewrite <- E; symmetry; apply distance_to_overlap_sym; assumption.
Qed.

Lemma integer_sq_diff_symmetric : sq_diff_symmetric IntegerArithmetic.
Proof. intros x y; simpl; ring. Qed.

Lemma z_smooth_from_length (level : Z) (l : list Z) :
  length (z_smooth_from level l) = length l.
Proof.
  revert level; induction l as [|x l IH]; intros level; [reflexivity|].
  simpl; rewrite IH; reflexivity.
Qed.

Lemma integer_smoothing_keeps_length : smoothing_keeps_length IntegerArithmetic.
Proof.
  intros l; simpl; unfold z_smooth; destruct l; [reflexivity|].
  apply z_smooth_from_length.
Qed.

Lemma C5_overlapping_pairs_witness :
  exists d,
    distance_to (still_tracklet 0 4 0 0) (still_tracklet 2 4 3 4) = Ok d /\
    distance_to (still_tracklet 2 4 3 4) (still_tracklet 0 4 0 0) = Ok d.
Proof.
  apply (@C5_overlapping_pairs IntegerArithmetic
           (still_tracklet 0 4 0 0) (still_tracklet 2 4 3 4)
           integer_sq_diff_symmetric eq_refl).
  - exact integer_smoothing_keeps_length.
  - reflexivity.
  - reflexivity.
  - repeat constructor; simpl; intuition lia.
  - repeat constructor; simpl; intuition lia.
Defined.

(** C5, as stated, fails on tracklets that repeat a frame index: the
    constructor stores indices [1; 1; 1; 2] and [1; 1; 3] as they are,
    the tracklets overlap, and [distance_to] subtracts a 3-row from a
    2-row centroid array, which raises. *)
Lemma C5_repeated_index_counterexample :
  Tracklet_init (repeat (frame_at 0 0) 4) [1; 1; 1; 2]
    = Ok (mkTracklet (repeat (frame_at 0 0) 4) [1; 1; 1; 2]) /\
  Tracklet_init (repeat (frame_at 3 4) 3) [1; 1; 3]
    = Ok (mkTracklet (repeat (frame_at 3 4) 3) [1; 1; 3]) /\
  py_in (mkTracklet (repeat (frame_at 0 0) 4) [1; 1; 1; 2])
        (mkTracklet (repeat (frame_at 3 4) 3) [1; 1; 3]) = true /\
  distance_to (mkTracklet (repeat (frame_at 0 0) 4) [1; 1; 1; 2])
              (mkTracklet (repeat (frame_at 3 4) 3) [1; 1; 3])
    = Err (ValueError "operands could not be broadcast together").
Proof. repeat split. Qed.

Example distance_to_overlapping :
  distance_to (still_tracklet 0 4 0 0) (still_tracklet 2 4 3 4) = Ok 5.
Proof. reflexivity. Qed.

(* ================================================================== *)
(** * Incorporation of the residual tracklets                          *)
(* ================================================================== *)

(** The comparison [<] of floats is a strict order in which nothing is
    below a NaN (every comparison with a NaN is false). *)
Definition fltb_strict_order (N : Numeric) : Prop :=
  (forall x : F, fltb x x = false) /\
  (forall x y z : F, fltb x y = true -> fltb y z = true -> fltb x z = true) /\
  (forall x y : F, fisnan y = true -> fltb x y = false).

Lemma StronglySorted_snoc {A : Type} (R : A -> A -> Prop) (l : list A) (a : A) :
  StronglySorted R l -> Forall (fun x => R x a) l -> StronglySorted R (l ++ [a]).
Proof.
  induction 1 as [|x l S IH Hall]; intros Ha; simpl; [repeat constructor|].
  inversion Ha as [|? ? Hx Hl]; subst.
  constructor; [apply IH; exact Hl|].
  apply Forall_app; split; [exact Hall|repeat constructor; exact Hx].
Qed.

Lemma StronglySorted_rev {A : Type} (R : A -> A -> Prop) (l : list A) :
  StronglySorted R l -> StronglySorted (fun a b => R b a) (rev l).
Proof.
  induction 1 as [|x l S IH Hall]; simpl; [constructor|].
  apply StronglySorted_snoc; [exact IH|].
  apply Forall_rev; exact Hall.
Qed.

Lemma flatnonzero_from_spec (k : nat) (m : list bool) (i : nat) :
  In i (flatnonzero_from k m) <-> (k <= i)%nat /\ nth_error m (i - k) = Some true.
Proof.
  revert k; induction m as [|b m IH]; intros k; simpl.
  - split; [intros []|intros [_ H]; destruct (i - k)%nat; discriminate].
  - assert (Hstep : In i (flatnonzero_from (S k) m) <->
                    (k < i)%nat /\ nth_error (b :: m) (i - k) = Some true).
    { rewrite IH; split; intros [L E]; (split; [lia|]).
      - replace (i - k)%nat with (S (i - S k)) by lia; exact E.
      - replace (i - k)%nat with (S (i - S k)) in E by lia; exact E. }
    destruct b; simpl; rewrite ?Hstep.
    + split.
      * intros [<-|[L E]]; [rewrite Nat.sub_diag; split; [lia|reflexivity]|].
        split; [lia|exact E].
      * intros [L E]; destruct (Nat.eq_dec k i) as [->|]; [left; reflexivity|].
        right; split; [lia|exact E].
    + split.
      * intros [L E]; split; [lia|exact E].
      * intros [L E]; destruct (Nat.eq_dec k i) as [->|];
          [rewrite Nat.sub_diag in E; discriminate|].
        split; [lia|exact E].
Qed.

Lemma flatnonzero_spec (m : list bool) (i : nat) :
  In i (flatnonzero m) <-> nth_error m i = Some true.
Proof.
  unfold flatnonzero; rewrite flatnonzero_from_spec, Nat.sub_0_r.
  split; [intros [_ H]; exact H|intros H; split; [lia|exact H]].
Qed.

Lemma mapM_Forall2 {A B : Type} (f : A -> result B) (l : list A) (r : list B) :
  mapM f l = Ok r -> Forall2 (fun a b => f a = Ok b) l r.
Proof.
  revert r; induction l as [|x l IH]; intros r H; simpl in H.
  - injection H as <-; constructor.
  - apply bind_ok_inv in H as (y & Ey & H).
    apply bind_ok_inv in H as (ys & Eys & H); injection H as <-.
    constructor; [exact Ey|apply IH; exact Eys].
Qed.

Lemma Forall2_nth_error_r {A B : Type} (R : A -> B -> Prop) (l : list A) (r : list B)
    (p : nat) (b : B) :
  Forall2 R l r -> nth_error r p = Some b -> exists a, nth_error l p = Some a /\ R a b.
Proof.
  intros H; revert p; induction H as [|x y l r Hxy _ IH]; intros p E.
  - destruct p; discriminate.
  - destruct p as [|p]; simpl in *; [injection E as <-; eauto|apply IH; exact E].
Qed.

Lemma Forall2_in_l {A B : Type} (R : A -> B -> Prop) (l : list A) (r : list B) (a : A) :
  Forall2 R l r -> In a l -> exists b, In b r /\ R a b.
Proof.
  induction 1 as [|x y l r Hxy _ IH]; intros Hin; [destruct Hin|].
  destruct Hin as [<-|Hin]; [exists y; split; [left; reflexivity|exact Hxy]|].
  destruct (IH Hin) as (b & Hb & Rb); exists b; split; [right|]; assumption.
Qed.

Section ArgMin.
Context {N : Numeric}.
Hypothesis order : fltb_strict_order N.

Lemma first_nan_spec (l : list F) (k i : nat) :
  first_nan k l = Some i ->
  exists x, (k <= i)%nat /\ nth_error l (i - k) = Some x /\ fisnan x = true.
Proof.
  revert k; induction l as [|x l IH]; intros k H; [discriminate|].
  simpl in H; destruct (fisnan x) eqn:E.
  - injection H as <-; exists x; rewrite Nat.sub_diag; repeat split; [lia|exact E].
  - destruct (IH (S k) H) as (y & L & Ey & Ny); exists y; repeat split; [lia| |exact Ny].
    replace (i - k)%nat with (S (i - S k)) by lia; exact Ey.
Qed.

Lemma argmin_from_spec (l : list F) (best : F) (ibest k : nat) :
  exists dm,
    ((argmin_from best ibest k l = ibest /\ dm = best) \/
     ((k <= argmin_from best ibest k l)%nat /\
      nth_error l (argmin_from best ibest k l - k) = Some dm)) /\
    (dm = best \/ fltb dm best = true) /\
    fltb best dm = false /\
    (forall x, In x l -> fltb x dm = false).
Proof.
  destruct order as (irrefl & trans & _).
  revert best ibest k; induction l as [|x l IH]; intros best ibest k.
  - exists best; simpl; repeat split; auto; intros ? [].
  - simpl; destruct (fltb x best) eqn:E.
    + destruct (IH x k (S k)) as (dm & Hpos & Hle & Hx & Hall).
      assert (Hdb : fltb dm best = true)
        by (destruct Hle as [->|Hle]; [exact E|exact (trans _ _ _ Hle E)]).
      exists dm; repeat split.
      * right; destruct Hpos as [[-> ->]|[L En]].
        -- rewrite Nat.sub_diag; split; [lia|reflexivity].
        -- split; [lia|].
           replace (argmin_from x k (S k) l - k)%nat
             with (S (argmin_from x k (S k) l - S k)) by lia; exact En.
      * right; exact Hdb.
      * destruct (fltb best dm) eqn:Eb; [|reflexivity].
        rewrite (trans _ _ _ E Eb) in Hx; discriminate.
      * intros y [<-|Hy]; [exact Hx|apply Hall; exact Hy].
    + destruct (IH best ibest (S k)) as (dm & Hpos & Hle & Hb & Hall).
      exists dm; repeat split.
      * destruct Hpos as [[E1 E2]|[L En]]; [left; split; assumption|right].
        split; [lia|].
        replace (argmin_from best ibest (S k) l - k)%nat
          with (S (argmin_from best ibest (S k) l - S k)) by lia; exact En.
      * exact Hle.
      * exact Hb.
      * intros y [Eq|Hy]; [subst y|apply Hall; exact Hy].
        destruct Hle as [->|Hle]; [exact E|].
        destruct (fltb x dm) eqn:Ey; [|reflexivity].
        rewrite (trans _ _ _ Ey Hle) in E; discriminate.
Qed.

(** [np.argmin] of a non-empty array points at a value below which no
    value of the array lies. *)
Lemma np_argmin_spec (l : list F) :
  l <> [] ->
  exists dm, nth_error l (np_argmin l) = Some dm /\ forall x, In x l -> fltb x dm = false.
Proof.
  intros Hl; unfold np_argmin; destruct (first_nan 0 l) as [i|] eqn:En.
  - destruct (first_nan_spec _ _ En) as (x & _ & Ex & Nx).
    rewrite Nat.sub_0_r in Ex; exists x; split; [exact Ex|].
    intros y _; apply (proj2 (proj2 order)); exact Nx.
  - destruct l as [|x l]; [contradiction|].
    destruct (argmin_from_spec l x 0 1) as (dm & Hpos & _ & Hx & Hall).
    exists dm; split.
    + destruct Hpos as [[-> ->]|[L E]]; [reflexivity|].
      destruct (argmin_from x 0 1 l) as [|m]; [lia|].
      simpl in *; rewrite Nat.sub_0_r in E; exact E.
    + intros y [<-|Hy]; [exact Hx|apply Hall; exact Hy].
Qed.

End ArgMin.

Section Incorporate.
Context {N : Numeric}.

(** The positions of the tracks that the residual does not overlap:
    [np.flatnonzero(easy_fit)]. *)
Definition candidates (residual : Tracklet) (trks : list Tracklet) : list nat :=
  flatnonzero (map (fun tr => negb (py_in residual tr)) trks).

(** [dist], the distances from the residual to [tracks[inds]]. *)
Definition candidate_distances (residual : Tracklet) (trks : list Tracklet)
    (cands : list nat) : result (list F) :=
  cs <- take cands (map PTracklet trks) ;;
  mapM (distance_to_track residual) cs.

Lemma easy_fit_tracklets (residual : Tracklet) (trks : list Tracklet) :
  mapM (not_in residual) (map PTracklet trks)
  = Ok (map (fun tr => negb (py_in residual tr)) trks).
Proof. rewrite mapM_map; apply mapM_ok; intros; reflexivity. Qed.

Lemma incorporate_tracklets (residual : Tracklet) (trks : list Tracklet) :
  incorporate (map PTracklet trks) residual =
  match candidates residual trks with
  | [] => Ok (map PTracklet trks)
  | [i] => attach (map PTracklet trks) i residual
  | cands =>
      dist <- candidate_distances residual trks cands ;;
      attach (map PTracklet trks) (nth (np_argmin dist) cands O) residual
  end.
Proof.
  unfold incorporate; rewrite easy_fit_tracklets; simpl bind.
  fold (candidates residual trks).
  destruct (candidates residual trks) as [|i1 [|i2 rest]]; try reflexivity.
  unfold candidate_distances.
  destruct (take (i1 :: i2 :: rest) (map PTracklet trks)); reflexivity.
Qed.

Lemma candidates_spec (residual : Tracklet) (trks : list Tracklet) (i : nat) :
  In i (candidates residual trks) <->
  exists tr, nth_error trks i = Some tr /\
             forall k, In k (inds residual) -> ~ In k (inds tr).
Proof.
  unfold candidates; rewrite flatnonzero_spec, nth_error_map; split.
  - destruct (nth_error trks i) as [tr|]; [|discriminate].
    simpl; intros H; injection H as H; apply negb_true_iff in H.
    exists tr; split; [reflexivity|apply py_in_false; exact H].
  - intros (tr & -> & H); simpl; f_equal.
    apply negb_true_iff, py_in_false; exact H.
Qed.

Lemma candidate_distances_spec (residual : Tracklet) (trks : list Tracklet)
    (cands : list nat) (ds : list F) :
  candidate_distances residual trks cands = Ok ds ->
  Forall2 (fun i d => exists tr, nth_error trks i = Some tr /\
                                 distance_to residual tr = Ok d) cands ds.
Proof.
  unfold candidate_distances; intros H.
  apply bind_ok_inv in H as (cs & Ecs & H).
  apply mapM_Forall2 in Ecs; apply mapM_Forall2 in H.
  revert ds H; induction Ecs as [|i v cands cs Hiv _ IH]; intros ds H;
    inversion H as [|? d ? ds' Hd Hds]; subst; constructor.
  - rewrite nth_error_map in Hiv.
    destruct (nth_error trks i) as [tr|]; [|discriminate].
    simpl in Hiv; injection Hiv as <-; exists tr; split; [reflexivity|exact Hd].
  - apply IH; exact Hds.
Qed.

Lemma attach_tracklets (trks : list Tracklet) (i : nat) (tr residual : Tracklet) :
  nth_error trks i = Some tr ->
  attach (map PTracklet trks) i residual =
  (merged <- add tr residual ;;
   Ok (map PTracklet (firstn i trks ++ merged :: skipn (S i) trks))).
Proof.
  intros H; unfold attach; rewrite nth_error_map, H.
  cbn [option_map py_add bind].
  destruct (add tr residual) as [m|]; [|reflexivity]; cbn [bind].
  rewrite map_app, firstn_map, skipn_map; reflexivity.
Qed.

Lemma residual_order_spec (rs : list Tracklet) :
  Permutation (residual_order rs) rs /\
  StronglySorted (fun a b => len b <= len a) (residual_order rs).
Proof.
  unfold residual_order; split.
  - etransitivity; [symmetry; apply Permutation_rev|apply msort_perm].
  - apply (StronglySorted_rev (R := key_le len)), msort_strongly_sorted.
Qed.

End Incorporate.

Lemma nth_error_nth_default {A : Type} (l : list A) (p : nat) (a d : A) :
  nth_error l p = Some a -> nth p l d = a.
Proof.
  revert p; induction l as [|x l IH]; intros [|p] H; try discriminate.
  - injection H as <-; reflexivity.
  - simpl in *; apply IH; exact H.
Qed.


Lemma integer_fltb_strict_order : fltb_strict_order IntegerArithmetic.
Proof.
  repeat split; simpl.
  - intros x; apply Z.ltb_irrefl.
  - intros x y z H1 H2; apply Z.ltb_lt in H1, H2; apply Z.ltb_lt; lia.
  - intros x y H; discriminate.
Qed.


Example incorporate_nested_span :
  incorporate
    (map PTracklet [mkTracklet (repeat (frame_at 0 0) 7) [0; 1; 2; 3; 8; 9; 10];
                    still_tracklet 4 4 9 9])
    (still_tracklet 5 2 1 1)
  = Ok [PTracklet (mkTracklet
                     (repeat (frame_at 0 0) 4 ++ repeat (frame_at 1 1) 2
                      ++ repeat (frame_at 0 0) 3)
                     [0; 1; 2; 3; 5; 6; 8; 9; 10]);
        PTracklet (still_tracklet 4 4 9 9)].
Proof. reflexivity. Qed.

(** With two candidates the nearer track gets the residual. *)
Example incorporate_nearest :
  incorporate
    (map PTracklet [still_tracklet 0 3 0 0; still_tracklet 0 3 10 0])
    (still_tracklet 5 2 9 0)
  = Ok [PTracklet (still_tracklet 0 3 0 0);
        PTracklet (mkTracklet (repeat (frame_at 10 0) 3 ++ repeat (frame_at 9 0) 2)
                     [0; 1; 2; 5; 6])].
Proof. reflexivity. Qed.

(** A residual that overlaps every track is dropped. *)
Example incorporate_dropped :
  incorporate
    (map PTracklet [still_tracklet 0 3 0 0; still_tracklet 0 3 10 0])
    (still_tracklet 2 2 9 0)
  = Ok (map PTracklet [still_tracklet 0 3 0 0; still_tracklet 0 3 10 0]).
Proof. reflexivity. Qed.

(** Longest residual first; among equal lengths, the one listed last. *)
Example residual_order_longest_first :
  map inds (residual_order [still_tracklet 0 1 0 0; still_tracklet 10 2 0 0;
                            still_tracklet 20 1 0 0; still_tracklet 30 2 0 0])
  = [[30; 31]; [10; 11]; [20]; [0]].
Proof. reflexivity. Qed.

(* ================================================================== *)
(** * Errors of the stitcher constructor                               *)
(* ================================================================== *)

(** The two configuration errors of [TrackletStitcher.__init__]. *)
Definition configuration_error (e : exn) : Prop :=
  e = ValueError "There must at least be two tracks to reconstruct." \/
  e = ValueError "A tracklet must have a minimal length of 3.".

(** The errors that the loading loop and the statements after it can
    raise: index errors and the ValueErrors of unpacking, of the array
    shape and of [max]. *)
Definition loading_error (e : exn) : Prop :=
  e = IndexError \/
  e = ValueError "not enough values to unpack (expected 2, got 0)" \/
  e = ValueError "inhomogeneous shape" \/
  e = ValueError "cannot reshape array" \/
  e = ValueError "max() arg is an empty sequence".

Lemma loading_error_not_guard (e : exn) :
  loading_error e -> ~ configuration_error e /\ forall msg, e <> IOError msg.
Proof.
  intros H; split.
  - intros [C|C]; rewrite C in H;
      destruct H as [H|[H|[H|[H|H]]]]; discriminate.
  - intros msg C; rewrite C in H;
      destruct H as [H|[H|[H|[H|H]]]]; discriminate.
Qed.

Lemma bind_err_inv {A B : Type} (m : result A) (k : A -> result B) (e : exn) :
  bind m k = Err e -> m = Err e \/ exists a, m = Ok a /\ k a = Err e.
Proof.
  destruct m as [a|e']; simpl; intros H; [right; eauto|left].
  injection H as <-; reflexivity.
Qed.

Lemma mapM_err {A B : Type} (f : A -> result B) (l : list A) (e : exn) :
  mapM f l = Err e -> exists a, In a l /\ f a = Err e.
Proof.
  induction l as [|x l IH]; intros H; simpl in H; [discriminate|].
  apply bind_err_inv in H as [H|(y & _ & H)]; [exists x; split; [left; reflexivity|exact H]|].
  apply bind_err_inv in H as [H|(ys & _ & H)]; [|discriminate].
  destruct (IH H) as (a & Ha & Ea); exists a; split; [right|]; assumption.
Qed.

Lemma first_err {A : Type} (l : list A) (e : exn) : first l = Err e -> e = IndexError.
Proof. destruct l; simpl; intros H; [injection H as <-; reflexivity|discriminate]. Qed.

Lemma last_of_err {A : Type} (l : list A) (e : exn) : last_of l = Err e -> e = IndexError.
Proof.
  induction l as [|x [|y l] IH]; simpl; intros H;
    [injection H as <-; reflexivity|discriminate|apply IH; exact H].
Qed.

Lemma take_err {A : Type} (idx : list nat) (l : list A) (e : exn) :
  take idx l = Err e -> e = IndexError.
Proof.
  unfold take; intros H; apply mapM_err in H as (i & _ & H).
  destruct (nth_error l i); [discriminate|injection H as <-; reflexivity].
Qed.

Lemma get_frame_ind_err (s : string) (e : exn) :
  get_frame_ind s = Err e -> e = IndexError.
Proof.
  unfold get_frame_ind; destruct (find_digits s); intros H;
    [discriminate|injection H as <-; reflexivity].
Qed.

Section ConstructorErrors.
Context {N : Numeric}.

Lemma Tracklet_init_err (data0 : list row) (inds0 : list Z) (e : exn) :
  Tracklet_init data0 inds0 = Err e -> e = IndexError.
Proof.
  unfold Tracklet_init; destruct (monotonically_increasing inds0); [discriminate|].
  intros H; apply bind_err_inv in H as [H|(i & _ & H)]; [eapply take_err; exact H|].
  apply bind_err_inv in H as [H|(d & _ & H)]; [eapply take_err; exact H|discriminate].
Qed.

Lemma start_err (t : Tracklet) (e : exn) : start t = Err e -> e = IndexError.
Proof. apply first_err. Qed.

Lemma end_err (t : Tracklet) (e : exn) : end_ t = Err e -> e = IndexError.
Proof. apply last_of_err. Qed.

Lemma is_continuous_err (t : Tracklet) (e : exn) :
  is_continuous t = Err e -> e = IndexError.
Proof.
  unfold is_continuous; intros H.
  apply bind_err_inv in H as [H|(x & _ & H)]; [eapply end_err; exact H|].
  apply bind_err_inv in H as [H|(y & _ & H)]; [eapply start_err; exact H|discriminate].
Qed.

Lemma load_fragment_err (min_length : Z) (split_tracklets : bool)
    (dict_ : list (string * list F)) (e : exn) :
  load_fragment min_length split_tracklets dict_ = Err e -> loading_error e.
Proof.
  unfold load_fragment; intros H.
  apply bind_err_inv in H as [H|(items & _ & H)].
  { apply mapM_err in H as (kv & _ & H).
    apply bind_err_inv in H as [H|(i & _ & H)]; [|discriminate].
    left; eapply get_frame_ind_err; exact H. }
  destruct items as [|[i0 v0] items]; [injection H as <-; right; left; reflexivity|].
  apply bind_err_inv in H as [H|(lf & _ & H)]; [left; eapply last_of_err; exact H|].
  destruct (negb (forallb _ _)); [injection H as <-; right; right; left; reflexivity|].
  destruct (negb (_ =? 0)%nat); [injection H as <-; right; right; right; left; reflexivity|].
  apply bind_err_inv in H as [H|([temp1 inds1] & _ & H)].
  { destruct (any _); [|discriminate].
    apply bind_err_inv in H as [H|(t & _ & H)]; [left; eapply mask_select_err; exact H|].
    apply bind_err_inv in H as [H|(i & _ & H)]; [left; eapply mask_select_err; exact H|].
    discriminate. }
  destruct inds1 as [|i1 inds1]; [discriminate|].
  apply bind_err_inv in H as [H|(t & _ & H)]; [left; eapply Tracklet_init_err; exact H|].
  apply bind_err_inv in H as [H|(c & _ & H)]; [left; eapply is_continuous_err; exact H|].
  apply bind_err_inv in H as [H|(pieces & _ & H)]; [|discriminate].
  destruct (negb c && split_tracklets); [|discriminate].
  rewrite split_tracklet_pieces in H; discriminate.
Qed.

Lemma load_fragments_err (min_length : Z) (split_tracklets : bool)
    (ds : list (list (string * list F)))
    (acc : list Z * list Tracklet * list Tracklet) (e : exn) :
  load_fragments min_length split_tracklets ds acc = Err e -> loading_error e.
Proof.
  revert acc; induction ds as [|d ds IH]; intros acc H; simpl in H; [discriminate|].
  apply bind_err_inv in H as [H|([[lf ts] rs] & _ & H)];
    [eapply load_fragment_err; exact H|].
  destruct acc as [[lfs ts0] rs0]; eapply IH; exact H.
Qed.

Lemma TrackletStitcher_init_loading_err (pickle_file : string) (loaded : pickle)
    (n_tracks0 min_length : Z) (split_tracklets : bool) (hd : Header) (e : exn) :
  2 <= n_tracks0 -> 3 <= min_length ->
  p_header loaded = Some hd -> p_tracklets loaded <> [] ->
  TrackletStitcher_init pickle_file loaded n_tracks0 min_length split_tracklets = Err e ->
  loading_error e.
Proof.
  intros Hn Hm Hh Ht; unfold TrackletStitcher_init.
  replace (n_tracks0 <? 2) with false by (symmetry; apply Z.ltb_ge; lia).
  replace (min_length <? 3) with false by (symmetry; apply Z.ltb_ge; lia).
  rewrite Hh; destruct (p_tracklets loaded) as [|d ds]; [contradiction|].
  cbn [length Nat.eqb]; intros H.
  apply bind_err_inv in H as [H|([[lfs ts] rs] & _ & H)];
    [eapply load_fragments_err; exact H|].
  apply bind_err_inv in H as [H|(m & _ & H)].
  { destruct lfs; [injection H as <-|discriminate].
    right; right; right; right; reflexivity. }
  apply bind_err_inv in H as [H|(starts & _ & H)].
  { apply mapM_err in H as (t & _ & H); left; eapply start_err; exact H. }
  apply bind_err_inv in H as [H|(ends & _ & H)]; [|discriminate].
  apply mapM_err in H as (t & _ & H); left; eapply end_err; exact H.
Qed.

End ConstructorErrors.

(** C4.  Whatever the file holds, the constructor fails with a
    configuration error when [n_tracks < 2] or [min_length < 3] (these
    checks come first).  With a valid configuration it fails with the
    I/O error "Tracklets are empty." when the loaded collection holds no
    fragment besides the header, and with a non-empty collection it
    raises neither a configuration error nor an I/O error. *)
Theorem C4_constructor_errors {N : Numeric} (pickle_file : string) (loaded : pickle)
    (n_tracks0 min_length : Z) (split_tracklets : bool) :
  (n_tracks0 < 2 \/ min_length < 3 ->
   exists e,
     TrackletStitcher_init pickle_file loaded n_tracks0 min_length split_tracklets = Err e /\
     configuration_error e) /\
  (2 <= n_tracks0 -> 3 <= min_length ->
   forall hd, p_header loaded = Some hd ->
     (p_tracklets loaded = [] ->
      TrackletStitcher_init pickle_file loaded n_tracks0 min_length split_tracklets
        = Err (IOError "Tracklets are empty.")) /\
     (p_tracklets loaded <> [] ->
      forall e,
        TrackletStitcher_init pickle_file loaded n_tracks0 min_length split_tracklets = Err e ->
        ~ configuration_error e /\ forall msg, e <> IOError msg)).
Proof.
  split.
  - intros H; unfold TrackletStitcher_init.
    destruct (n_tracks0 <? 2) eqn:E1.
    + eexists; split; [reflexivity|left; reflexivity].
    + apply Z.ltb_ge in E1.
      replace (min_length <? 3) with true by (symmetry; apply Z.ltb_lt; lia).
      eexists; split; [reflexivity|right; reflexivity].
  - intros Hn Hm hd Hh; split.
    + intros Ht; unfold TrackletStitcher_init.
      replace (n_tracks0 <? 2) with false by (symmetry; apply Z.ltb_ge; lia).
      replace (min_length <? 3) with false by (symmetry; apply Z.ltb_ge; lia).
      rewrite Hh, Ht; reflexivity.
    + intros Ht e He; apply loading_error_not_guard.
      eapply TrackletStitcher_init_loading_err; eassumption.
Qed.

(** The column levels of a DeepLabCut header. *)
Definition dlc_header : Header :=
  ["scorer"%string; "individuals"%string; "bodyparts"%string; "coords"%string].

Lemma C4_constructor_errors_witness :
  TrackletStitcher_init "video_bx.pickle"
    (@mkPickle IntegerArithmetic (Some dlc_header) []) 2 3 true
  = Err (IOError "Tracklets are empty.").
Proof.
  assert (H2 : 2 <= 2) by lia.
  assert (H3 : 3 <= 3) by lia.
  exact (proj1 (proj2 (@C4_constructor_errors IntegerArithmetic "video_bx.pickle"
                         (mkPickle (Some dlc_header) []) 2 3 true)
                  H2 H3 dlc_header eq_refl) eq_refl).
Defined.

(** An empty fragment in a non-empty collection makes the unpacking of
    [zip] fail: a ValueError, but not one of the configuration errors. *)
Example init_empty_fragment :
  TrackletStitcher_init "video_bx.pickle"
    (@mkPickle IntegerArithmetic (Some dlc_header) [[]]) 2 3 true
  = Err (ValueError "not enough values to unpack (expected 2, got 0)").
Proof. reflexivity. Qed.

(* ================================================================== *)
(** * Exceptions of stitch                                             *)
(* ================================================================== *)

(** The frame label of a small frame number, as the keys of a fragment
    have it. *)
Definition digit_char (d : Z) : ascii := ascii_of_nat (48 + Z.to_nat d).

Definition frame_label (k : Z) : string :=
  String.append "frame"
    (if k <? 10 then String (digit_char k) EmptyString
     else String (digit_char (k / 10)) (String (digit_char (k mod 10)) EmptyString)).

(** A fragment over the frames [i0 .. i0 + n - 1] with one body part
    at (x, y). *)
Definition fragment (i0 : Z) (n : nat) (x y : Z) : list (string * list Z) :=
  map (fun k => (frame_label (i0 + Z.of_nat k), [x; y; 1])) (seq 0 n).

(** Five fragments that all cover the frame 4, for three targets. *)
Definition crowded_pickle : @pickle IntegerArithmetic :=
  mkPickle (Some dlc_header)
    [fragment 0 5 0 0; fragment 1 5 10 0; fragment 2 7 20 0;
     fragment 3 7 30 0; fragment 4 7 40 0].

(** [TrackletStitcher(file, 3)] followed by [build_graph()]. *)
Definition crowded_stitcher : result TrackletStitcher :=
  st <- TrackletStitcher_init "video_bx.pickle" crowded_pickle 3 5 true ;;
  build_graph None st.

Definition returned {A : Type} (r : result A) : bool :=
  match r with
  | Ok _ => true
  | Err _ => false
  end.

(** The stitcher that these two calls leave behind. *)
Definition crowded_state : @TrackletStitcher IntegerArithmetic :=
  match crowded_stitcher with
  | Ok st => st
  | Err _ => mkStitcher EmptyString 0 None None None [] [] [] 0 [] [] None
  end.

Section StitchErrors.
Context {N : Numeric} {FS : FlowSolver}.

Lemma disambiguate_paths (p : nat * nat) (nodes : list nat) (st : TrackletStitcher) :
  paths (snd (disambiguate p (nodes, st))) = paths st.
Proof.
  unfold disambiguate; destruct p as [i1 i2].
  destruct (t1 <- tracklet_at st i1 ;; t2 <- tracklet_at st i2 ;; Ok (t1, t2))
    as [[t1 t2]|]; [|reflexivity].
  destruct (py_in t1 t2); [|reflexivity].
  match goal with |- context [match ?m with Ok _ => _ | Err _ => _ end] => destruct m as [[n2 k]|] end;
    [destruct k|]; reflexivity.
Qed.

Lemma disambiguate_all_paths (ps : list (nat * nat)) (nodes : list nat)
    (st : TrackletStitcher) :
  paths (snd (disambiguate_all ps (nodes, st))) = paths st.
Proof.
  revert nodes st; induction ps as [|p ps IH]; intros nodes st; [reflexivity|].
  simpl; pose proof (disambiguate_paths p nodes st) as H.
  destruct (disambiguate p (nodes, st)) as [[nodes'|e] st']; simpl in *.
  - rewrite IH; exact H.
  - exact H.
Qed.

(** When the [except] handler raises, [self.paths] is as it was. *)
Lemma fallback_err_paths (g : DiGraph) (st s1 : TrackletStitcher) (e : exn) :
  fallback g st = (Err e, s1) -> paths s1 = paths st.
Proof.
  unfold fallback.
  destruct (node_disjoint_paths _ _) as [found|]; [|intros H; injection H as _ <-; reflexivity].
  destruct (consume_paths found _) as [[paths0 g3]|]; [|intros H; injection H as _ <-; reflexivity].
  destruct (mapM _ paths0) as [paths1|]; [|intros H; injection H as _ <-; reflexivity].
  destruct (_ =? 1).
  - destruct (mapM mapping_inv _) as [remaining|];
      [|intros H; injection H as _ <-; reflexivity].
    pose proof (disambiguate_all_paths (combinations2 (set_of_list remaining))
                  (set_of_list remaining) (set_G st g3)) as HP.
    destruct (disambiguate_all _ _) as [[nodes'|e'] st4]; simpl in HP.
    + destruct (mapM _ nodes'); intros H; [discriminate|].
      injection H as _ <-; exact HP.
    + intros H; injection H as _ <-; exact HP.
  - destruct (_ >? 1); intros H; [injection H as _ <-; reflexivity|discriminate].
Qed.

Lemma solve_err_paths (g : DiGraph) (st s1 : TrackletStitcher) (e : exn) :
  solve g st = (Err e, s1) -> paths s1 = paths st.
Proof.
  unfold solve; destruct (capacity_scaling g) as [fl| |e'].
  - match goal with |- context [match ?m with Ok _ => _ | Err _ => _ end] => destruct m end;
      intros H; [discriminate|injection H as _ <-; reflexivity].
  - apply fallback_err_paths.
  - intros H; injection H as _ <-; reflexivity.
Qed.

End StitchErrors.

(** C2, the behaviour of the code.  On a stitcher whose [paths] is still
    [None] (as [__init__] leaves it), whenever the [try] block of
    [stitch] ends with an exception (NotImplementedError for more than
    one missing path, among others), the [finally] clause runs
    [_finalize_tracks], which iterates [self.paths] and raises
    TypeError: the caller of [stitch] receives TypeError. *)
Theorem C2_finally_masks_exception {N : Numeric} {FS : FlowSolver}
    (st : TrackletStitcher) (g : DiGraph) (e : exn) :
  G st = Some g -> paths st = None -> fst (solve g st) = Err e ->
  fst (stitch st) = Err TypeError.
Proof.
  intros HG HP Hs; unfold stitch, try_finally; rewrite HG.
  destruct (solve g st) as [r s1] eqn:E; simpl in Hs; subst r.
  pose proof (solve_err_paths _ _ E) as HP1; rewrite HP in HP1.
  unfold finalize_tracks; rewrite HP1; reflexivity.
Qed.

(** Five mutually overlapping tracklets for three targets: the flow is
    infeasible, the pruned graph has a single source-to-sink path, two
    paths are missing, the handler raises NotImplementedError, and
    [stitch] ends with TypeError. *)
Lemma C2_finally_masks_exception_witness :
  returned crowded_stitcher = true /\
  (exists g, G crowded_state = Some g /\
             capacity_scaling g = Unfeasible /\
             fst (solve g crowded_state) = Err NotImplementedError) /\
  fst (stitch crowded_state) = Err TypeError.
Proof.
  split; [vm_compute; reflexivity|].
  split.
  - eexists; split; [reflexivity|split; vm_compute; reflexivity].
  - eapply (@C2_finally_masks_exception IntegerArithmetic TransitionFreeSolver);
      [reflexivity|reflexivity|vm_compute; reflexivity].
Defined.

Example crowded_first_last :
  map inds (tracklets crowded_state)
    = [[0; 1; 2; 3; 4]; [1; 2; 3; 4; 5]; [2; 3; 4; 5; 6; 7; 8];
       [3; 4; 5; 6; 7; 8; 9]; [4; 5; 6; 7; 8; 9; 10]] /\
  first_tracklets crowded_state = [0; 1; 2]%nat /\
  last_tracklets crowded_state = [2; 3; 4]%nat /\
  n_frames crowded_state = 11.
Proof. repeat split. Qed.

(** With one missing path only, the remaining tracklets go to one last
    path: two targets and three mutually overlapping tracklets give two
    tracks, the tracklet that lost the comparison becoming a residual
    (dropped here, since it overlaps both tracks). *)
Example fallback_single_missing_path :
  (st <- TrackletStitcher_init "video_bx.pickle"
           (@mkPickle IntegerArithmetic (Some dlc_header)
              [fragment 0 5 0 0; fragment 1 5 10 0; fragment 2 5 20 0]) 2 5 true ;;
   st1 <- build_graph None st ;;
   let '(r, st2) := stitch st1 in
   Ok (r, option_map (map (fun p => match p with
                                    | PTracklet t => inds t
                                    | PInt _ => []
                                    end)) (tracks st2),
       map inds (residuals st2)))
  = Ok (Ok tt, Some [[1; 2; 3; 4; 5]; [2; 3; 4; 5; 6]], [[0; 1; 2; 3; 4]]).
Proof. vm_compute; reflexivity. Qed.

(** One missing path, three leftover tracklets that overlap one
    another: after the first pair is settled its loser is no longer in
    the node set, the second pair removes it again, and the handler
    ends with KeyError (which the [finally] clause then replaces). *)
Example fallback_three_leftovers :
  (st <- TrackletStitcher_init "video_bx.pickle"
           (@mkPickle IntegerArithmetic (Some dlc_header)
              [fragment 0 5 0 0; fragment 1 9 10 0; fragment 2 5 20 0; fragment 3 6 30 0])
           2 5 true ;;
   st1 <- build_graph None st ;;
   match G st1 with
   | Some g => Ok (fst (solve g st1), fst (stitch st1))
   | None => Err (ValueError "no graph")
   end)
  = Ok (Err (KeyError "Tracklet"), Err TypeError).
Proof. vm_compute; reflexivity. Qed.

(* ================================================================== *)
(** * Frame labels                                                     *)
(* ================================================================== *)

(** Whether a label holds a decimal digit. *)
Fixpoint has_digit (s : string) : bool :=
  match s with
  | EmptyString => false
  | String c s' => is_digit c || has_digit s'
  end.

(** Whether a label is made of decimal digits only. *)
Fixpoint all_digits (s : string) : bool :=
  match s with
  | EmptyString => true
  | String c s' => is_digit c && all_digits s'
  end.

Lemma find_digits_none (s : string) : find_digits s = None <-> has_digit s = false.
Proof.
  induction s as [|c s IH]; simpl; [tauto|].
  destruct (is_digit c); simpl; [split; discriminate|exact IH].
Qed.

Lemma find_digits_prefix (p s : string) :
  has_digit p = false -> find_digits (String.append p s) = find_digits s.
Proof.
  induction p as [|c p IH]; simpl; intros H; [reflexivity|].
  apply orb_false_iff in H as [Hc Hp]; rewrite Hc; apply IH; exact Hp.
Qed.

Lemma digits_run_stops (d rest : string) (c : ascii) :
  all_digits d = true -> is_digit c = false ->
  digits_run (String.append d (String c rest)) = digits_run d.
Proof.
  induction d as [|x d IH]; simpl; intros Hd Hc; [rewrite Hc; reflexivity|].
  apply andb_true_iff in Hd as [Hx Hd]; rewrite Hx; f_equal; apply IH; assumption.
Qed.

Lemma digits_run_nonneg (s : string) : Forall (fun d => 0 <= d) (digits_run s).
Proof.
  induction s as [|c s IH]; simpl; [constructor|].
  destruct (is_digit c); constructor; [apply Nat2Z.is_nonneg|exact IH].
Qed.

Lemma decimal_nonneg (ds : list Z) (acc : Z) :
  0 <= acc -> Forall (fun d => 0 <= d) ds ->
  0 <= fold_left (fun a d => 10 * a + d) ds acc.
Proof.
  revert acc; induction ds as [|d ds IH]; intros acc Ha Hd; cbn [fold_left]; [exact Ha|].
  inversion Hd as [|? ? Hd0 Hds]; subst; cbv beta in Hd0; apply IH; [lia|exact Hds].
Qed.

Lemma find_digits_run (s : string) (ds : list Z) :
  find_digits s = Some ds -> exists s', ds = digits_run s'.
Proof.
  induction s as [|c s IH]; simpl; [discriminate|].
  destruct (is_digit c) eqn:E; [|exact IH].
  intros H; injection H as <-; exists (String c s); simpl; rewrite E; reflexivity.
Qed.



Example get_frame_ind_values :
  get_frame_ind "frame0042" = Ok 42 /\
  get_frame_ind "cam2_frame17.png" = Ok 2 /\
  get_frame_ind "header" = Err IndexError.
Proof. repeat split. Qed.

(* ================================================================== *)
(** * Tracklets in chronological order                                 *)
(* ================================================================== *)

Section StableUnique.
Variable A : Type.
Variable key : A -> Z.

Lemma filter_key_head (a : A) (l : list A) :
  filter (key_is key (key a)) (a :: l) = a :: filter (key_is key (key a)) l.
Proof. simpl; unfold key_is at 1; rewrite Z.eqb_refl; reflexivity. Qed.

Lemma filter_key_in (k : Z) (a : A) (l l' : list A) :
  filter (key_is key k) l = a :: l' -> In a l /\ key a = k.
Proof.
  intros H; assert (Hin : In a (filter (key_is key k) l)) by (rewrite H; left; reflexivity).
  apply filter_In in Hin as [Hin Hk]; split; [exact Hin|apply Z.eqb_eq; exact Hk].
Qed.

(** Two lists sorted by key in which every key carries the same
    elements in the same order are the same list. *)
Lemma sorted_stable_unique (l1 l2 : list A) :
  StronglySorted (key_le key) l1 -> StronglySorted (key_le key) l2 ->
  (forall k, filter (key_is key k) l1 = filter (key_is key k) l2) -> l1 = l2.
Proof.
  intros S1; revert l2; induction S1 as [|a l1 S1 IH Ha]; intros l2 S2 H.
  - destruct l2 as [|b l2]; [reflexivity|].
    specialize (H (key b)); rewrite filter_key_head in H; discriminate.
  - destruct l2 as [|b l2].
    { specialize (H (key a)); rewrite filter_key_head in H; discriminate. }
    inversion S2 as [|? ? S2' Hb]; subst.
    assert (Hab : key a = key b).
    { pose proof (H (key a)) as E1; rewrite filter_key_head in E1.
      symmetry in E1; apply filter_key_in in E1 as [[<-|Hin] _]; [reflexivity|].
      pose proof (H (key b)) as E2; rewrite filter_key_head in E2.
      apply filter_key_in in E2 as [[->|Hin2] _]; [reflexivity|].
      rewrite Forall_forall in Ha, Hb.
      specialize (Ha b Hin2); specialize (Hb a Hin); unfold key_le in *; lia. }
    assert (a = b).
    { pose proof (H (key a)) as E; rewrite filter_key_head in E.
      rewrite Hab in E at 2; rewrite filter_key_head in E.
      injection E as E _; exact E. }
    subst b; f_equal; apply IH; [exact S2'|].
    intros k; specialize (H k); simpl in H.
    destruct (key_is key k a); [injection H as H|]; exact H.
Qed.

(** A stable sort leaves a sorted list as it is. *)
Lemma msort_sorted_id (l : list A) : StronglySorted (key_le key) l -> msort key l = l.
Proof.
  intros S; apply sorted_stable_unique; [apply msort_strongly_sorted|exact S|].
  intros k; apply msort_stable.
Qed.

End StableUnique.

Lemma sorted_perm_unique (l1 l2 : list Z) :
  StronglySorted Z.le l1 -> StronglySorted Z.le l2 -> Permutation l1 l2 -> l1 = l2.
Proof.
  intros S1; revert l2; induction S1 as [|a l1 S1 IH Ha]; intros l2 S2 P.
  - apply Permutation_nil in P; subst; reflexivity.
  - destruct l2 as [|b l2]; [apply Permutation_sym, Permutation_nil in P; discriminate|].
    inversion S2 as [|? ? S2' Hb]; subst.
    assert (a = b).
    { assert (Hb_in : In b (a :: l1)) by (eapply Permutation_in; [symmetry; exact P|left; reflexivity]).
      assert (Ha_in : In a (b :: l2)) by (eapply Permutation_in; [exact P|left; reflexivity]).
      rewrite Forall_forall in Ha, Hb.
      destruct Hb_in as [E|Hb_in]; [exact E|].
      destruct Ha_in as [E|Ha_in]; [symmetry; exact E|].
      specialize (Ha b Hb_in); specialize (Hb a Ha_in); lia. }
    subst b; f_equal; apply IH; [exact S2'|].
    eapply Permutation_cons_inv; exact P.
Qed.

Lemma sorted_app (l1 l2 : list Z) :
  StronglySorted Z.le l1 -> StronglySorted Z.le l2 ->
  (forall x y, In x l1 -> In y l2 -> x <= y) -> StronglySorted Z.le (l1 ++ l2).
Proof.
  induction 1 as [|a l1 S1 IH Ha]; intros S2 H; simpl; [exact S2|].
  constructor.
  - apply IH; [exact S2|intros x y Hx Hy; apply H; [right|]; assumption].
  - apply Forall_app; split; [exact Ha|].
    apply Forall_forall; intros y Hy; apply H; [left; reflexivity|exact Hy].
Qed.

Lemma sorted_combine_fst {B : Type} (l : list Z) (d : list B) :
  StronglySorted Z.le l -> StronglySorted (key_le (@fst Z B)) (combine l d).
Proof.
  intros S; revert d; induction S as [|a l S IH Ha]; intros [|x d]; simpl; try constructor.
  - apply IH.
  - apply Forall_forall; intros [k y] Hin; apply in_combine_l in Hin.
    rewrite Forall_forall in Ha; unfold key_le; simpl; apply Ha; exact Hin.
Qed.

Lemma last_of_sorted_max (l : list Z) (e : Z) :
  StronglySorted Z.le l -> last_of l = Ok e -> In e l /\ forall k, In k l -> k <= e.
Proof.
  induction 1 as [|a l S IH Ha]; intros H; [discriminate|].
  destruct l as [|b l].
  - injection H as <-; split; [left; reflexivity|intros k [<-|[]]; lia].
  - destruct (IH H) as [Hin Hmax]; split; [right; exact Hin|].
    intros k [<-|Hk]; [|apply Hmax; exact Hk].
    rewrite Forall_forall in Ha; apply Ha; exact Hin.
Qed.

Section Chronological.
Context {N : Numeric}.

(** The frame indices are in non-decreasing order, as the constructor
    leaves them. *)
Definition chronological (t : Tracklet) : Prop := StronglySorted Z.le (inds t).

Lemma chronological_bounds (t : Tracklet) (s e : Z) :
  chronological t -> start t = Ok s -> end_ t = Ok e ->
  In s (inds t) /\ In e (inds t) /\ s <= e /\ forall k, In k (inds t) -> s <= k <= e.
Proof.
  unfold chronological, start, end_; intros S Hs He.
  destruct (last_of_sorted_max S He) as [Hin Hmax].
  destruct (inds t) as [|a l]; [discriminate|]; injection Hs as ->.
  inversion S as [|? ? _ Ha]; subst; rewrite Forall_forall in Ha.
  assert (Hmin : forall k, In k (s :: l) -> s <= k)
    by (intros k [<-|Hk]; [lia|apply Ha; exact Hk]).
  repeat split; [left; reflexivity|exact Hin|apply Hmin; exact Hin
                 |apply Hmin; assumption|apply Hmax; assumption].
Qed.

Lemma Tracklet_init_sorted_id (data0 : list row) (inds0 : list Z) :
  length data0 = length inds0 -> StronglySorted Z.le inds0 ->
  Tracklet_init data0 inds0 = Ok (mkTracklet data0 inds0).
Proof.
  intros Hlen S; destruct (monotonically_increasing inds0) eqn:M.
  - apply Tracklet_init_sorted_input; exact M.
  - rewrite (Tracklet_init_unsorted_input _ _ Hlen M); unfold sorted_pairs.
    rewrite msort_sorted_id by (apply sorted_combine_fst; exact S).
    rewrite map_snd_combine, map_fst_combine by congruence; reflexivity.
Qed.

Lemma add_inds (a b c : Tracklet) :
  wf a -> wf b -> add a b = Ok c ->
  wf c /\ chronological c /\ Permutation (inds c) (inds a ++ inds b).
Proof.
  intros Ha Hb E; unfold add in E.
  assert (Hlen : length (data a ++ data b) = length (inds a ++ inds b))
    by (rewrite !length_app; unfold wf in *; lia).
  destruct (Tracklet_init_spec _ _ Hlen) as (c' & E' & Hwf & S & P & _).
  rewrite E in E'; injection E' as <-; repeat split; try assumption.
  eapply Tracklet_init_perm_inds; eassumption.
Qed.

End Chronological.

Section Precedence.
Context {N : Numeric}.

Lemma lt_inv (a b : Tracklet) (c : bool) :
  lt a b = Ok c ->
  exists sa ea sb eb,
    start a = Ok sa /\ end_ a = Ok ea /\ start b = Ok sb /\ end_ b = Ok eb /\
    c = (ea <? sb).
Proof.
  unfold lt; intros H.
  apply bind_ok_inv in H as (ea & Ea & H).
  apply bind_ok_inv in H as (sb & Esb & H); injection H as <-.
  assert (Ha : inds a <> []) by (intros E; unfold end_ in Ea; rewrite E in Ea; discriminate).
  assert (Hb : inds b <> []) by (intros E; unfold start in Esb; rewrite E in Esb; discriminate).
  destruct (start_end_defined a Ha) as (sa & ea' & Esa & Ea').
  destruct (start_end_defined b Hb) as (sb' & eb & Esb' & Eeb).
  exists sa, ea, sb, eb; repeat split; assumption.
Qed.

Lemma lt_defined (a b : Tracklet) :
  inds a <> [] -> inds b <> [] ->
  exists sa ea sb eb,
    start a = Ok sa /\ end_ a = Ok ea /\ start b = Ok sb /\ end_ b = Ok eb /\
    lt a b = Ok (ea <? sb) /\ gt a b = Ok (sa >? eb).
Proof.
  intros Ha Hb.
  destruct (start_end_defined a Ha) as (sa & ea & Esa & Eea).
  destruct (start_end_defined b Hb) as (sb & eb & Esb & Eeb).
  exists sa, ea, sb, eb; unfold lt, gt; rewrite Esa, Eea, Esb, Eeb.
  repeat split; reflexivity.
Qed.

(** When one tracklet precedes another, all its frames come first. *)
Lemma lt_separates (a b : Tracklet) :
  chronological a -> chronological b -> lt a b = Ok true ->
  forall x y, In x (inds a) -> In y (inds b) -> x < y.
Proof.
  intros Ca Cb H x y Hx Hy.
  destruct (lt_inv _ _ H) as (sa & ea & sb & eb & Esa & Eea & Esb & Eeb & E).
  symmetry in E; apply Z.ltb_lt in E.
  destruct (chronological_bounds Ca Esa Eea) as (_ & _ & _ & Ba).
  destruct (chronological_bounds Cb Esb Eeb) as (_ & _ & _ & Bb).
  specialize (Ba x Hx); specialize (Bb y Hy); lia.
Qed.

Lemma lt_no_overlap (a b : Tracklet) :
  chronological a -> chronological b -> lt a b = Ok true -> py_in a b = false.
Proof.
  intros Ca Cb H; apply py_in_false; intros k Ha Hb.
  pose proof (lt_separates Ca Cb H k k Ha Hb); lia.
Qed.

End Precedence.

(** X2.  On parallel arrays whose indices are already in non-decreasing
    order the constructor stores them as they are, repeated indices
    included (the stable sort moves nothing); hence building a tracklet
    again from the arrays of a tracklet gives the same tracklet. *)
Theorem X2_constructor_idempotent {N : Numeric} (data0 : list row) (inds0 : list Z) :
  length data0 = length inds0 ->
  (StronglySorted Z.le inds0 ->
   Tracklet_init data0 inds0 = Ok (mkTracklet data0 inds0)) /\
  (forall t, Tracklet_init data0 inds0 = Ok t ->
             Tracklet_init (data t) (inds t) = Ok t).
Proof.
  intros Hlen; split; [apply Tracklet_init_sorted_id; exact Hlen|].
  intros t E.
  destruct (Tracklet_init_spec data0 inds0 Hlen) as (t' & E' & Hwf & S & _).
  rewrite E in E'; injection E' as <-.
  rewrite Tracklet_init_sorted_id; [destruct t; reflexivity|exact Hwf|exact S].
Qed.

Lemma X2_constructor_idempotent_witness :
  Tracklet_init [frame_at 0 0; frame_at 1 1; frame_at 2 2] [4; 4; 7]
  = Ok (mkTracklet [frame_at 0 0; frame_at 1 1; frame_at 2 2] [4; 4; 7]).
Proof.
  apply (@X2_constructor_idempotent IntegerArithmetic
           [frame_at 0 0; frame_at 1 1; frame_at 2 2] [4; 4; 7] eq_refl).
  repeat constructor; lia.
Defined.

(** X3.  After construction from non-empty parallel arrays, [start] is
    the smallest and [end] the largest of the frame indices given,
    whatever their order in the input. *)
Theorem X3_start_end_extremes {N : Numeric} (data0 : list row) (inds0 : list Z)
    (t : Tracklet) :
  length data0 = length inds0 -> inds0 <> [] ->
  Tracklet_init data0 inds0 = Ok t ->
  exists s e,
    start t = Ok s /\ end_ t = Ok e /\ In s inds0 /\ In e inds0 /\
    forall k, In k inds0 -> s <= k <= e.
Proof.
  intros Hlen Hne E.
  destruct (Tracklet_init_spec data0 inds0 Hlen) as (t' & E' & Hwf & S & P & _).
  rewrite E in E'; injection E' as <-.
  assert (PI : Permutation (inds t) inds0)
    by (eapply Tracklet_init_perm_inds; eassumption).
  assert (Hne' : inds t <> [])
    by (intros E0; rewrite E0 in PI; apply Permutation_nil in PI; contradiction).
  destruct (start_end_defined t Hne') as (s & e & Es & Ee).
  destruct (chronological_bounds S Es Ee) as (Hs & He & _ & B).
  exists s, e; repeat split; try assumption.
  - eapply Permutation_in; eassumption.
  - eapply Permutation_in; eassumption.
  - apply B; eapply Permutation_in; [symmetry|]; eassumption.
  - apply B; eapply Permutation_in; [symmetry|]; eassumption.
Qed.

Lemma X3_start_end_extremes_witness :
  exists s e,
    start (mkTracklet [frame_at 1 0; frame_at 3 0; frame_at 0 0] [2; 5; 9]) = Ok s /\
    end_ (mkTracklet [frame_at 1 0; frame_at 3 0; frame_at 0 0] [2; 5; 9]) = Ok e /\
    In s [5; 9; 2] /\ In e [5; 9; 2] /\
    forall k, In k [5; 9; 2] -> s <= k <= e.
Proof.
  apply (@X3_start_end_extremes IntegerArithmetic
           [frame_at 3 0; frame_at 0 0; frame_at 1 0] [5; 9; 2]);
    [reflexivity|discriminate|reflexivity].
Defined.

(** X4.  Merging two tracklets (of parallel arrays) always returns; the
    result keeps every frame of both (its length is the sum, nothing is
    deduplicated) in non-decreasing order, and its frame indices do not
    depend on the order of the operands nor on the grouping of three
    operands. *)
Theorem X4_add_keeps_all_frames {N : Numeric} (a b c : Tracklet) :
  wf a -> wf b -> wf c ->
  exists ab ba ab_c bc a_bc,
    add a b = Ok ab /\ add b a = Ok ba /\
    wf ab /\ chronological ab /\
    len ab = len a + len b /\
    Permutation (inds ab) (inds a ++ inds b) /\
    inds ab = inds ba /\
    add ab c = Ok ab_c /\ add b c = Ok bc /\ add a bc = Ok a_bc /\
    inds ab_c = inds a_bc.
Proof.
  intros Ha Hb Hc.
  destruct (add_wf Ha Hb) as (ab & Eab & Wab & _).
  destruct (add_wf Hb Ha) as (ba & Eba & Wba & _).
  destruct (add_wf Wab Hc) as (ab_c & Eabc & Wabc & _).
  destruct (add_wf Hb Hc) as (bc & Ebc & Wbc & _).
  destruct (add_wf Ha Wbc) as (a_bc & Ea_bc & Wa_bc & _).
  destruct (add_inds Ha Hb Eab) as (_ & Sab & Pab).
  destruct (add_inds Hb Ha Eba) as (_ & Sba & Pba).
  destruct (add_inds Wab Hc Eabc) as (_ & Sabc & Pabc).
  destruct (add_inds Hb Hc Ebc) as (_ & Sbc & Pbc).
  destruct (add_inds Ha Wbc Ea_bc) as (_ & Sa_bc & Pa_bc).
  exists ab, ba, ab_c, bc, a_bc; repeat split; try assumption.
  - unfold len; rewrite (Permutation_length Pab), length_app; lia.
  - apply sorted_perm_unique; try assumption.
    rewrite Pab, Pba; apply Permutation_app_comm.
  - apply sorted_perm_unique; try assumption.
    rewrite Pabc, Pa_bc, Pab, Pbc, app_assoc; reflexivity.
Qed.

Lemma X4_add_keeps_all_frames_witness :
  exists ab ba ab_c bc a_bc,
    add (still_tracklet 5 3 0 0) (still_tracklet 0 3 1 1) = Ok ab /\
    add (still_tracklet 0 3 1 1) (still_tracklet 5 3 0 0) = Ok ba /\
    wf ab /\ chronological ab /\
    len ab = len (still_tracklet 5 3 0 0) + len (still_tracklet 0 3 1 1) /\
    Permutation (inds ab)
      (inds (still_tracklet 5 3 0 0) ++ inds (still_tracklet 0 3 1 1)) /\
    inds ab = inds ba /\
    add ab (still_tracklet 2 4 2 2) = Ok ab_c /\
    add (still_tracklet 0 3 1 1) (still_tracklet 2 4 2 2) = Ok bc /\
    add (still_tracklet 5 3 0 0) bc = Ok a_bc /\
    inds ab_c = inds a_bc.
Proof.
  apply (@X4_add_keeps_all_frames IntegerArithmetic (still_tracklet 5 3 0 0)
           (still_tracklet 0 3 1 1) (still_tracklet 2 4 2 2)); reflexivity.
Defined.

(** X5.  When [self] precedes [other] (both in chronological order),
    [self + other] is the plain concatenation of the data and of the
    index arrays: the constructor reorders nothing. *)
Theorem X5_add_in_time_order_concatenates {N : Numeric} (a b : Tracklet) :
  wf a -> wf b -> chronological a -> chronological b -> lt a b = Ok true ->
  add a b = Ok (mkTracklet (data a ++ data b) (inds a ++ inds b)).
Proof.
  intros Ha Hb Ca Cb H; unfold add; apply Tracklet_init_sorted_id.
  - rewrite !length_app; unfold wf in *; lia.
  - apply sorted_app; [exact Ca|exact Cb|].
    intros x y Hx Hy; pose proof (lt_separates Ca Cb H x y Hx Hy); lia.
Qed.

Lemma X5_add_in_time_order_concatenates_witness :
  add (still_tracklet 0 3 1 1) (still_tracklet 5 2 0 0)
  = Ok (mkTracklet (data (still_tracklet 0 3 1 1) ++ data (still_tracklet 5 2 0 0))
          (inds (still_tracklet 0 3 1 1) ++ inds (still_tracklet 5 2 0 0))).
Proof.
  apply (@X5_add_in_time_order_concatenates IntegerArithmetic);
    try reflexivity; repeat constructor; simpl; lia.
Defined.

(** X6.  On non-empty tracklets in chronological order, "precedes"
    ([<]) is a strict partial order that excludes overlap: a tracklet
    never precedes itself; if [a < b] then the two share no frame,
    [b < a] is false and [b > a] is true; and [a < b], [b < c] give
    [a < c]. *)
Theorem X6_precedes_strict_order {N : Numeric} (a b c : Tracklet) :
  chronological a -> chronological b -> chronological c ->
  inds a <> [] ->
  lt a a = Ok false /\
  (lt a b = Ok true ->
   py_in a b = false /\ lt b a = Ok false /\ gt b a = Ok true) /\
  (lt a b = Ok true -> lt b c = Ok true -> lt a c = Ok true).
Proof.
  intros Ca Cb Cc Hne; repeat split.
  - destruct (lt_defined a a Hne Hne) as (sa & ea & sa' & ea' & Esa & Eea & Esa' & Eea' & El & _).
    assert (sa' = sa) by congruence; subst sa'.
    destruct (chronological_bounds Ca Esa Eea) as (_ & _ & L & _).
    rewrite El; f_equal; apply Z.ltb_ge; exact L.
  - apply lt_no_overlap; assumption.
  - destruct (lt_inv _ _ H) as (sa & ea & sb & eb & Esa & Eea & Esb & Eeb & E).
    symmetry in E; apply Z.ltb_lt in E.
    destruct (chronological_bounds Ca Esa Eea) as (_ & _ & La & _).
    destruct (chronological_bounds Cb Esb Eeb) as (_ & _ & Lb & _).
    unfold lt; rewrite Eeb, Esa; simpl; f_equal; apply Z.ltb_ge; lia.
  - apply lt_gt_swap; exact H.
  - intros Hab Hbc.
    destruct (lt_inv _ _ Hab) as (sa & ea & sb & eb & Esa & Eea & Esb & Eeb & E1).
    destruct (lt_inv _ _ Hbc) as (sb' & eb' & sc & ec & Esb' & Eeb' & Esc & Eec & E2).
    assert (sb' = sb) by congruence; assert (eb' = eb) by congruence; subst.
    symmetry in E1, E2; apply Z.ltb_lt in E1, E2.
    destruct (chronological_bounds Cb Esb Eeb) as (_ & _ & Lb & _).
    unfold lt; rewrite Eea, Esc; simpl; f_equal; apply Z.ltb_lt; lia.
Qed.

Lemma X6_precedes_strict_order_witness :
  lt (still_tracklet 0 3 0 0) (still_tracklet 0 3 0 0) = Ok false /\
  (lt (still_tracklet 0 3 0 0) (still_tracklet 5 3 0 0) = Ok true ->
   py_in (still_tracklet 0 3 0 0) (still_tracklet 5 3 0 0) = false /\
   lt (still_tracklet 5 3 0 0) (still_tracklet 0 3 0 0) = Ok false /\
   gt (still_tracklet 5 3 0 0) (still_tracklet 0 3 0 0) = Ok true) /\
  (lt (still_tracklet 0 3 0 0) (still_tracklet 5 3 0 0) = Ok true ->
   lt (still_tracklet 5 3 0 0) (still_tracklet 9 3 0 0) = Ok true ->
   lt (still_tracklet 0 3 0 0) (still_tracklet 9 3 0 0) = Ok true).
Proof.
  apply (@X6_precedes_strict_order IntegerArithmetic (still_tracklet 0 3 0 0)
           (still_tracklet 5 3 0 0) (still_tracklet 9 3 0 0));
    try (repeat constructor; simpl; lia); discriminate.
Defined.

(* ================================================================== *)
(** * Duplicated frame indices                                         *)
(* ================================================================== *)

Section Duplicates.
Context {N : Numeric}.

(** [contains_duplicates()]: [len(set(self.inds)) != len(self.inds)]. *)
Definition contains_duplicates (t : Tracklet) : bool :=
  negb (length (nodup Z.eq_dec (inds t)) =? length (inds t))%nat.

(** [contains_duplicates(return_indices=True)]: the flag and
    [np.flatnonzero(np.diff(self.inds) == 0)]. *)
Definition contains_duplicates_indices (t : Tracklet) : bool * list nat :=
  (contains_duplicates t, flatnonzero (map (fun d => d =? 0) (diff Z.sub (inds t)))).

End Duplicates.

Lemma nodup_length_le (l : list Z) : (length (nodup Z.eq_dec l) <= length l)%nat.
Proof.
  induction l as [|a l IH]; simpl; [lia|].
  destruct (in_dec Z.eq_dec a l); simpl; lia.
Qed.

Lemma nodup_length_eq (l : list Z) :
  length (nodup Z.eq_dec l) = length l <-> NoDup l.
Proof.
  split.
  - induction l as [|a l IH]; simpl; [constructor|].
    pose proof (nodup_length_le l) as Hle.
    destruct (in_dec Z.eq_dec a l); simpl; intros H; [lia|].
    constructor; [assumption|apply IH; lia].
  - intros H; rewrite nodup_fixed_point by exact H; reflexivity.
Qed.

(** The positions at which two successive entries are equal. *)
Definition equal_neighbours (l : list Z) : list nat :=
  flatnonzero (map (fun d => d =? 0) (diff Z.sub l)).

Lemma equal_neighbours_cons2 (x y : Z) (l : list Z) :
  equal_neighbours (x :: y :: l) =
  if y - x =? 0 then O :: map S (equal_neighbours (y :: l))
  else map S (equal_neighbours (y :: l)).
Proof.
  unfold equal_neighbours, flatnonzero, diff; simpl.
  destruct (y - x =? 0); simpl; rewrite flatnonzero_from_S; reflexivity.
Qed.

Lemma equal_neighbours_spec (l : list Z) (i : nat) :
  In i (equal_neighbours l) <->
  exists x, nth_error l i = Some x /\ nth_error l (S i) = Some x.
Proof.
  revert i; induction l as [|x l IH]; intros i.
  - split; [intros []|intros (y & E & _); destruct i; discriminate].
  - destruct l as [|y l].
    + split; [intros []|intros (z & _ & E); destruct i; discriminate].
    + rewrite equal_neighbours_cons2.
      assert (Hrest : In i (map S (equal_neighbours (y :: l))) <->
                      exists j, i = S j /\
                        exists z, nth_error (y :: l) j = Some z /\
                                  nth_error (y :: l) (S j) = Some z).
      { rewrite in_map_iff; split.
        - intros (j & <- & Hj); exists j; split; [reflexivity|apply IH; exact Hj].
        - intros (j & -> & Hj); exists j; split; [reflexivity|apply IH; exact Hj]. }
      destruct (y - x =? 0) eqn:E; [apply Z.eqb_eq in E|apply Z.eqb_neq in E].
      * split.
        -- intros [<-|H]; [exists x; split; [reflexivity|simpl; f_equal; lia]|].
           apply Hrest in H as (j & -> & z & E1 & E2); exists z; split; assumption.
        -- intros (z & E1 & E2); destruct i as [|j]; [left; reflexivity|right].
           apply Hrest; exists j; split; [reflexivity|exists z; split; assumption].
      * split.
        -- intros H; apply Hrest in H as (j & -> & z & E1 & E2); exists z; split; assumption.
        -- intros (z & E1 & E2); destruct i as [|j].
           ++ simpl in E1, E2; injection E1 as <-; injection E2 as ->; lia.
           ++ apply Hrest; exists j; split; [reflexivity|exists z; split; assumption].
Qed.

Lemma equal_neighbours_sorted (l : list Z) :
  StronglySorted Z.le l -> (equal_neighbours l = [] <-> NoDup l).
Proof.
  induction 1 as [|x l S IH Hx]; [split; [constructor|reflexivity]|].
  destruct l as [|y l]; [split; [repeat constructor; intros []|reflexivity]|].
  rewrite equal_neighbours_cons2.
  inversion S as [|? ? _ Hy]; subst; rewrite Forall_forall in Hx, Hy.
  destruct (y - x =? 0) eqn:E; [apply Z.eqb_eq in E|apply Z.eqb_neq in E].
  - split; [discriminate|].
    intros ND; inversion ND as [|? ? Hnin _]; subst.
    exfalso; apply Hnin; left; lia.
  - split.
    + intros H; constructor.
      * intros [Heq|Hin]; [lia|].
        pose proof (Hx y (or_introl eq_refl)); specialize (Hy x Hin); lia.
      * apply IH; destruct (equal_neighbours (y :: l)); [reflexivity|discriminate].
    + intros ND; inversion ND as [|? ? _ ND']; subst.
      rewrite (proj2 IH ND'); reflexivity.
Qed.

(** X7.  [contains_duplicates] answers whether some frame index occurs
    twice.  Every position it returns with [return_indices] is followed
    by an equal index, and on a tracklet in chronological order the
    returned positions are empty exactly when the flag is false. *)
Theorem X7_contains_duplicates {N : Numeric} (t : Tracklet) :
  (contains_duplicates t = false <-> NoDup (inds t)) /\
  (forall i, In i (snd (contains_duplicates_indices t)) <->
             exists x, nth_error (inds t) i = Some x /\
                       nth_error (inds t) (S i) = Some x) /\
  (chronological t ->
   (snd (contains_duplicates_indices t) = [] <->
    fst (contains_duplicates_indices t) = false)).
Proof.
  assert (H1 : contains_duplicates t = false <-> NoDup (inds t)).
  { unfold contains_duplicates; rewrite negb_false_iff, Nat.eqb_eq.
    apply nodup_length_eq. }
  split; [exact H1|]; split.
  - intros i; apply equal_neighbours_spec.
  - intros C; simpl; rewrite H1; apply equal_neighbours_sorted; exact C.
Qed.

Lemma X7_contains_duplicates_witness :
  snd (contains_duplicates_indices (mkTracklet (repeat (frame_at 0 0) 4) [3; 4; 4; 6])) = []
  <-> fst (contains_duplicates_indices (mkTracklet (repeat (frame_at 0 0) 4) [3; 4; 4; 6]))
      = false.
Proof.
  apply (@X7_contains_duplicates IntegerArithmetic
           (mkTracklet (repeat (frame_at 0 0) 4) [3; 4; 4; 6])).
  repeat constructor; lia.
Defined.

Example contains_duplicates_positions :
  contains_duplicates_indices (mkTracklet (repeat (frame_at 0 0) 4) [3; 4; 4; 6])
  = (true, [1%nat]).
Proof. reflexivity. Qed.

(* ================================================================== *)
(** * Temporal gaps                                                    *)
(* ================================================================== *)

Section Gaps.
Context {N : Numeric}.

Lemma gt_lt_exclusive (a b : Tracklet) :
  chronological a -> chronological b -> gt a b = Ok true -> lt a b = Ok false.
Proof.
  intros Ca Cb H; apply lt_gt_swap in H.
  destruct (lt_inv _ _ H) as (sb & eb & sa & ea & Esb & Eeb & Esa & Eea & E).
  symmetry in E; apply Z.ltb_lt in E.
  destruct (chronological_bounds Ca Esa Eea) as (_ & _ & La & _).
  destruct (chronological_bounds Cb Esb Eeb) as (_ & _ & Lb & _).
  unfold lt; rewrite Eea, Esb; simpl; f_equal; apply Z.ltb_ge; lia.
Qed.

Lemma time_gap_precedes (a b : Tracklet) :
  chronological a -> chronological b -> lt a b = Ok true ->
  exists ea sb, end_ a = Ok ea /\ start b = Ok sb /\ 0 < sb - ea /\
                time_gap_to a b = Ok (sb - ea) /\ time_gap_to b a = Ok (sb - ea).
Proof.
  intros Ca Cb H.
  pose proof (lt_no_overlap Ca Cb H) as Hno.
  destruct (lt_inv _ _ H) as (sa & ea & sb & eb & Esa & Eea & Esb & Eeb & E).
  symmetry in E; apply Z.ltb_lt in E.
  destruct (chronological_bounds Ca Esa Eea) as (_ & _ & La & _).
  destruct (chronological_bounds Cb Esb Eeb) as (_ & _ & Lb & _).
  exists ea, sb; repeat split; try assumption; [lia| |].
  - unfold time_gap_to; rewrite Hno, H; simpl; rewrite Esb, Eea; reflexivity.
  - unfold time_gap_to; rewrite py_in_sym, Hno.
    replace (lt b a) with (@Ok bool false).
    + simpl; rewrite Esb, Eea; reflexivity.
    + unfold lt; rewrite Eeb, Esa; simpl; f_equal; symmetry; apply Z.ltb_ge; lia.
Qed.

End Gaps.



(** The gap of an interleaved pair depends on the direction. *)
Example time_gap_interleaved_asymmetric :
  time_gap_to (mkTracklet (repeat (frame_at 0 0) 3) [0; 2; 4])
              (mkTracklet (repeat (frame_at 0 0) 3) [1; 3; 5]) = Ok (-5) /\
  time_gap_to (mkTracklet (repeat (frame_at 0 0) 3) [1; 3; 5])
              (mkTracklet (repeat (frame_at 0 0) 3) [0; 2; 4]) = Ok (-3).
Proof. split; reflexivity. Qed.





(** An interleaved pair has two different distances: each direction
    compares the first centroid of the receiver with the last of the
    argument. *)
Example distance_interleaved_asymmetric :
  distance_to (mkTracklet [frame_at 0 0; frame_at 0 0; frame_at 0 0] [0; 2; 4])
              (mkTracklet [frame_at 3 0; frame_at 6 0; frame_at 9 0] [1; 3; 5]) = Ok 9 /\
  distance_to (mkTracklet [frame_at 3 0; frame_at 6 0; frame_at 9 0] [1; 3; 5])
              (mkTracklet [frame_at 0 0; frame_at 0 0; frame_at 0 0] [0; 2; 4]) = Ok 3.
Proof. split; reflexivity. Qed.

(* ================================================================== *)
(** * Runs of consecutive frames                                       *)
(* ================================================================== *)

(** Every index is one more than the index before it. *)
Definition consecutive (l : list Z) : bool :=
  forallb (fun d => d =? 1) (diff Z.sub l).

Lemma consecutive_cons2 (x y : Z) (l : list Z) :
  consecutive (x :: y :: l) = (y - x =? 1) && consecutive (y :: l).
Proof. reflexivity. Qed.

Lemma consecutive_last (a : Z) (l : list Z) :
  consecutive (a :: l) = true -> last_of (a :: l) = Ok (a + Z.of_nat (length l)).
Proof.
  revert a; induction l as [|y l IH]; intros a H.
  - simpl; f_equal; lia.
  - rewrite consecutive_cons2 in H; apply andb_true_iff in H as [D H].
    apply Z.eqb_eq in D; change (last_of (a :: y :: l)) with (last_of (y :: l)).
    rewrite (IH y H); f_equal; simpl length; lia.
Qed.

Lemma breaks_nil_consecutive (l : list Z) : breaks l = [] <-> consecutive l = true.
Proof.
  induction l as [|x l IH]; [split; reflexivity|].
  destruct l as [|y l]; [split; reflexivity|].
  rewrite breaks_cons2, consecutive_cons2; destruct (y - x =? 1); simpl.
  - rewrite <- IH; destruct (breaks (y :: l)); simpl; split; congruence.
  - split; discriminate.
Qed.

Lemma np_split_breaks_consecutive (inds0 : list Z) :
  inds0 <> [] ->
  Forall (fun piece => piece <> [] /\ consecutive piece = true)
         (np_split inds0 (breaks inds0)).
Proof.
  induction inds0 as [|x inds1 IH]; [contradiction|intros _].
  destruct inds1 as [|y inds1].
  - repeat constructor; discriminate.
  - assert (Hne : y :: inds1 <> []) by discriminate; specialize (IH Hne).
    destruct (proj2 (np_split_breaks_increasing (y :: inds1)) y inds1 eq_refl)
      as (h & t & E).
    rewrite breaks_cons2; destruct (y - x =? 1) eqn:D.
    + rewrite np_split_cons, E; rewrite E in IH.
      inversion IH as [|? ? [_ Hh] Ht]; subst.
      constructor; [split; [discriminate|]|exact Ht].
      rewrite consecutive_cons2, D, Hh; reflexivity.
    + rewrite np_split_break; constructor; [split; [discriminate|reflexivity]|exact IH].
Qed.

Lemma strict_span (a e : Z) (l : list Z) :
  StronglySorted Z.lt (a :: l) -> last_of (a :: l) = Ok e ->
  a + Z.of_nat (length l) <= e /\
  (e = a + Z.of_nat (length l) -> consecutive (a :: l) = true).
Proof.
  revert a; induction l as [|y l IH]; intros a S H.
  - injection H as <-; simpl; split; [lia|reflexivity].
  - inversion S as [|? ? S' Ha]; subst.
    change (last_of (a :: y :: l)) with (last_of (y :: l)) in H.
    destruct (IH y S' H) as [Hle Hc].
    assert (a < y) by (rewrite Forall_forall in Ha; apply Ha; left; reflexivity).
    simpl length; split; [lia|].
    intros He; rewrite consecutive_cons2; apply andb_true_iff; split.
    + apply Z.eqb_eq; lia.
    + apply Hc; lia.
Qed.

Section Continuity.
Context {N : Numeric}.

Lemma consecutive_continuous (t : Tracklet) :
  inds t <> [] -> consecutive (inds t) = true -> is_continuous t = Ok true.
Proof.
  unfold is_continuous, end_, start, len; intros Hne Hc.
  destruct (inds t) as [|a l]; [contradiction|].
  rewrite (consecutive_last a l Hc); simpl first; simpl; f_equal.
  apply Z.eqb_eq; lia.
Qed.

End Continuity.

(** X11.  Every piece that [split_tracklet] makes of a tracklet with at
    least one frame is continuous, its frame indices go up by exactly
    one, and there is one more piece than there are places where two
    successive indices of the tracklet differ by something else
    than one. *)
Theorem X11_split_pieces_continuous {N : Numeric} (t : Tracklet) (pieces : list Tracklet) :
  inds t <> [] -> split_tracklet t = Ok pieces ->
  Forall (fun p => is_continuous p = Ok true /\ consecutive (inds p) = true) pieces /\
  length pieces = S (length (breaks (inds t))).
Proof.
  intros Hne H; rewrite split_tracklet_pieces in H; injection H as <-; split.
  - apply Forall_forall; intros p Hin; apply in_map_iff in Hin as ([d i] & <- & Hin).
    apply in_combine_r in Hin; simpl.
    pose proof (np_split_breaks_consecutive Hne) as F; rewrite Forall_forall in F.
    destruct (F i Hin) as [Hi Hc]; split; [|exact Hc].
    apply consecutive_continuous; assumption.
  - unfold np_split; rewrite length_map, length_combine, !np_split_from_length; lia.
Qed.

Lemma X11_split_pieces_continuous_witness :
  exists pieces,
    split_tracklet (mkTracklet (repeat (frame_at 0 0) 5) [1; 2; 5; 6; 9]) = Ok pieces /\
    Forall (fun p => is_continuous p = Ok true /\ consecutive (inds p) = true) pieces /\
    length pieces = 3%nat.
Proof.
  eexists; split; [apply (@split_tracklet_pieces IntegerArithmetic)|].
  apply (@X11_split_pieces_continuous IntegerArithmetic
           (mkTracklet (repeat (frame_at 0 0) 5) [1; 2; 5; 6; 9]));
    [discriminate|apply split_tracklet_pieces].
Defined.

(** The only piece of the split of a tracklet without a frame is the
    tracklet itself, and asking whether it is continuous raises. *)
Example split_tracklet_without_frames :
  split_tracklet (@mkTracklet IntegerArithmetic [] []) = Ok [mkTracklet [] []] /\
  is_continuous (@mkTracklet IntegerArithmetic [] []) = Err IndexError.
Proof. split; reflexivity. Qed.

(** X12.  On a tracklet whose frame indices strictly increase,
    [is_continuous] holds exactly when the indices go up by one, which
    is exactly when [split_tracklet] returns the tracklet itself as its
    only piece. *)
Theorem X12_continuous_iff_single_piece {N : Numeric} (t : Tracklet) :
  inds t <> [] -> StronglySorted Z.lt (inds t) ->
  (is_continuous t = Ok true <-> consecutive (inds t) = true) /\
  (is_continuous t = Ok true <-> split_tracklet t = Ok [t]).
Proof.
  intros Hne S.
  assert (H1 : is_continuous t = Ok true <-> consecutive (inds t) = true).
  { split; [|apply consecutive_continuous; exact Hne].
    unfold is_continuous, end_, start, len; intros H.
    destruct (inds t) as [|a l] eqn:E; [contradiction|].
    destruct (last_of_defined a l) as (e & Ee); rewrite Ee in H; simpl in H.
    injection H as H; apply Z.eqb_eq in H.
    apply (proj2 (strict_span S Ee)); simpl length in H; lia. }
  split; [exact H1|]; rewrite H1, <- breaks_nil_consecutive, split_tracklet_pieces.
  split.
  - intros ->; unfold np_split; simpl; destruct t; reflexivity.
  - intros H; injection H as H.
    apply (f_equal (@length _)) in H.
    unfold np_split in H.
    rewrite length_map, length_combine, !np_split_from_length in H; simpl in H.
    destruct (breaks (inds t)); [reflexivity|simpl in H; lia].
Qed.

Lemma X12_continuous_iff_single_piece_witness :
  is_continuous (still_tracklet 4 3 0 0) = Ok true <->
  split_tracklet (still_tracklet 4 3 0 0) = Ok [still_tracklet 4 3 0 0].
Proof.
  apply (@X12_continuous_iff_single_piece IntegerArithmetic (still_tracklet 4 3 0 0));
    [discriminate|repeat constructor; simpl; lia].
Defined.

(** With a repeated frame index the two notions part: a tracklet on
    frames 1, 1, 3 has no frame 2 and yet it counts as continuous, while
    its split has three pieces. *)
Example repeated_index_hides_gap :
  is_continuous (mkTracklet (repeat (frame_at 0 0) 3) [1; 1; 3]) = Ok true /\
  option_map (@length _)
    (match split_tracklet (mkTracklet (repeat (frame_at 0 0) 3) [1; 1; 3]) with
     | Ok ps => Some ps | Err _ => None end) = Some 3%nat.
Proof. split; reflexivity. Qed.

(* ================================================================== *)
(** * The flow network                                                 *)
(* ================================================================== *)

(** The sum of the demands of all nodes. *)
Definition total_demand (g : DiGraph) : Z := fold_right Z.add 0 (map snd (g_nodes g)).

Lemma demand_sum_app (l1 l2 : list Z) :
  fold_right Z.add 0 (l1 ++ l2) = fold_right Z.add 0 l1 + fold_right Z.add 0 l2.
Proof. induction l1 as [|x l1 IH]; simpl; [reflexivity|rewrite IH; lia]. Qed.

Lemma demand_sum_const {A : Type} (f : A -> node) (c : Z) (l : list A) :
  fold_right Z.add 0 (map snd (map (fun i => (f i, c)) l)) = c * Z.of_nat (length l).
Proof. induction l as [|x l IH]; simpl length; simpl; [lia|rewrite IH; lia]. Qed.

Lemma in_enumerate {A : Type} (l : list A) (s i : nat) (a : A) :
  nth_error l i = Some a -> In ((s + i)%nat, a) (combine (seq s (length l)) l).
Proof.
  revert s i; induction l as [|x l IH]; intros s [|i] H; try discriminate.
  - injection H as <-; rewrite Nat.add_0_r; left; reflexivity.
  - right; replace (s + S i)%nat with (S s + i)%nat by lia; apply IH; exact H.
Qed.

Lemma in_combinations2_enumerate {A : Type} (l : list A) (s i j : nat) (a b : A) :
  (i < j)%nat -> nth_error l i = Some a -> nth_error l j = Some b ->
  In (((s + i)%nat, a), ((s + j)%nat, b)) (combinations2 (combine (seq s (length l)) l)).
Proof.
  revert s i j; induction l as [|x l IH]; intros s i j L Hi Hj; [destruct i; discriminate|].
  simpl; apply in_or_app; destruct i as [|i].
  - injection Hi as <-; left; destruct j as [|j]; [lia|].
    rewrite Nat.add_0_r; apply in_map.
    replace (s + S j)%nat with (S s + j)%nat by lia; apply in_enumerate; exact Hj.
  - right; destruct j as [|j]; [lia|].
    replace (s + S i)%nat with (S s + i)%nat by lia.
    replace (s + S j)%nat with (S s + j)%nat by lia.
    apply IH; [lia|exact Hi|exact Hj].
Qed.

Section Network.
Context {N : Numeric}.

(** [int(100 * self.calculate_weight(tracklet1, tracklet2))] *)
Definition pair_weight (tracklet1 tracklet2 : Tracklet) : result Z :=
  wf <- calculate_weight tracklet1 tracklet2 ;; to_int (fmul (of_int 100) wf).

Lemma transition_edges_complete (max_gap : Z)
    (ps : list ((nat * Tracklet) * (nat * Tracklet))) (es : list edge)
    (p : (nat * Tracklet) * (nat * Tracklet)) :
  transition_edges max_gap ps = Ok es -> In p ps ->
  exists l, transition_edge max_gap p = Ok l /\ incl l es.
Proof.
  revert es; induction ps as [|q ps IH]; intros es H Hin; [destruct Hin|].
  simpl in H; apply bind_ok_inv in H as (l & El & H).
  apply bind_ok_inv in H as (es' & Ees & H); injection H as <-.
  destruct Hin as [->|Hin].
  - exists l; split; [exact El|apply incl_appl, incl_refl].
  - destruct (IH es' Ees Hin) as (l' & El' & Hl').
    exists l'; split; [exact El'|apply incl_appr; exact Hl'].
Qed.

Lemma time_gap_positive_ordered (a b : Tracklet) (g : Z) :
  time_gap_to a b = Ok g -> 0 < g -> lt a b = Ok true \/ lt b a = Ok true.
Proof.
  unfold time_gap_to; intros H Hg.
  destruct (py_in a b); [injection H as <-; lia|].
  apply bind_ok_inv in H as (c & Ec & H); destruct c; [left; exact Ec|right].
  apply bind_ok_inv in H as (s & Es & H).
  apply bind_ok_inv in H as (e & Ee & H); injection H as <-.
  unfold lt; rewrite Ee, Es; simpl; f_equal; apply Z.ltb_lt; lia.
Qed.

Lemma lt_irreflexive (a : Tracklet) : chronological a -> lt a a <> Ok true.
Proof.
  intros C H.
  destruct (lt_inv _ _ H) as (s & e & s' & e' & Es & Ee & Es' & Ee' & E).
  symmetry in E; apply Z.ltb_lt in E.
  destruct (chronological_bounds C Es' Ee) as (_ & _ & L & _); lia.
Qed.

(** What one iteration over a pair listed as [(i, a), (j, b)] adds. *)
Lemma transition_edge_cases (max_gap : Z) (i j : nat) (a b : Tracklet)
    (l : list edge) (e : edge) :
  chronological a -> chronological b ->
  transition_edge max_gap ((i, a), (j, b)) = Ok l -> In e l ->
  exists gap w,
    time_gap_to a b = Ok gap /\ 0 < gap <= max_gap /\ pair_weight a b = Ok w /\
    ((lt a b = Ok true /\ e = mkEdge (NOut i) (NIn j) (Some w) 1) \/
     (lt b a = Ok true /\ e = mkEdge (NOut j) (NIn i) (Some w) 1)).
Proof.
  intros Ca Cb H Hin; unfold transition_edge in H.
  apply bind_ok_inv in H as (gap & Eg & H).
  destruct ((0 <? gap) && (gap <=? max_gap)) eqn:B; [|injection H as <-; destruct Hin].
  apply andb_true_iff in B as [B1 B2]; apply Z.ltb_lt in B1; apply Z.leb_le in B2.
  apply bind_ok_inv in H as (wf0 & Ewf & H).
  apply bind_ok_inv in H as (w & Ew & H).
  apply bind_ok_inv in H as (c & Ec & H).
  exists gap, w; split; [exact Eg|]; split; [lia|]; split.
  { unfold pair_weight; rewrite Ewf; exact Ew. }
  apply lt_gt_swap in Ec.
  destruct c; injection H as <-; destruct Hin as [<-|[]].
  - left; split; [exact Ec|reflexivity].
  - right; split; [|reflexivity].
    destruct (time_gap_positive_ordered _ _ Eg B1) as [Hl|Hl]; [congruence|exact Hl].
Qed.

End Network.

(** X13.  [build_graph] fails with ValueError when there are fewer than
    two tracklets.  The graph it builds otherwise is a balanced flow
    network: it has two nodes per tracklet besides the source and the
    sink, the demands of all nodes add up to zero, every edge has
    capacity 1, every tracklet lies on the route source, in, out, sink,
    and the edges that carry a weight are exactly those from an exit
    node to an entry node. *)
Theorem X13_flow_network_shape {N : Numeric} (n_tracks0 : Z) (ts : list Tracklet)
    (max_gap : option Z) :
  ((length ts < 2)%nat ->
   exists msg, build_graph_of n_tracks0 ts max_gap = Err (ValueError msg)) /\
  (forall g, build_graph_of n_tracks0 ts max_gap = Ok g ->
     length (g_nodes g) = (2 * length ts + 2)%nat /\
     In (Source, - n_tracks0) (g_nodes g) /\ In (Sink, n_tracks0) (g_nodes g) /\
     total_demand g = 0 /\
     Forall (fun e => e_capacity e = 1) (g_edges g) /\
     (forall i, (i < length ts)%nat ->
        In (mkEdge Source (NIn i) None 1) (g_edges g) /\
        In (mkEdge (NIn i) (NOut i) None 1) (g_edges g) /\
        In (mkEdge (NOut i) Sink None 1) (g_edges g)) /\
     (forall e, In e (g_edges g) ->
        (e_weight e <> None <-> exists i j, e_src e = NOut i /\ e_dst e = NIn j))).
Proof.
  split.
  - intros L; destruct ts as [|t [|t' ts]]; [| |simpl in L; lia].
    + destruct max_gap as [[| |]|]; eexists; reflexivity.
    + destruct max_gap as [[| |]|]; eexists; reflexivity.
  - intros g H.
    destruct (build_graph_of_edges _ _ _ H) as (mg & tes & Emg & Etes & Eg).
    assert (Hnodes : g_nodes g =
              (Source, - n_tracks0) :: (Sink, n_tracks0)
                :: map (fun i => (NIn i, 1)) (seq 0 (length ts))
                   ++ map (fun i => (NOut i, -1)) (seq 0 (length ts))).
    { unfold build_graph_of in H; rewrite Emg in H; cbn [bind] in H.
      destruct (length ts) as [|[|n]]; try discriminate.
      rewrite Etes in H; cbn [bind] in H; injection H as <-; reflexivity. }
    assert (Htes : forall e, In e tes ->
              e_capacity e = 1 /\ exists w i j, e = mkEdge (NOut i) (NIn j) (Some w) 1).
    { intros e Hin.
      edestruct transition_edges_in as ([[i a] [j b]] & l & _ & El & Hl);
        [exact Etes|exact Hin|].
      unfold transition_edge in El.
      apply bind_ok_inv in El as (gap & _ & El).
      destruct ((0 <? gap) && (gap <=? mg)); [|injection El as <-; destruct Hl].
      apply bind_ok_inv in El as (wf0 & _ & El).
      apply bind_ok_inv in El as (w & _ & El).
      apply bind_ok_inv in El as (c & _ & El).
      destruct c; injection El as <-; destruct Hl as [<-|[]]; split; try reflexivity;
        eexists _, _, _; reflexivity. }
    split; [|split; [|split; [|split; [|split; [|split]]]]].
    + rewrite Hnodes; simpl length; rewrite length_app, !length_map, length_seq; lia.
    + rewrite Hnodes; left; reflexivity.
    + rewrite Hnodes; right; left; reflexivity.
    + unfold total_demand; rewrite Hnodes; cbn [map fold_right snd].
      rewrite map_app, demand_sum_app, !demand_sum_const, length_seq; lia.
    + rewrite Eg; repeat (apply Forall_app; split);
        try (apply Forall_forall; intros e Hin;
             apply in_map_iff in Hin as (k & <- & _); reflexivity).
      apply Forall_forall; intros e Hin; apply (Htes e Hin).
    + intros i Hi; rewrite Eg; repeat split.
      * apply in_or_app; right; apply in_or_app; left.
        apply in_map_iff; exists i; split; [reflexivity|apply in_seq; lia].
      * apply in_or_app; left.
        apply in_map_iff; exists i; split; [reflexivity|apply in_seq; lia].
      * apply in_or_app; right; apply in_or_app; right; apply in_or_app; left.
        apply in_map_iff; exists i; split; [reflexivity|apply in_seq; lia].
    + intros e Hin; rewrite Eg in Hin; split.
      * intros Hw.
        repeat (apply in_app_or in Hin as [Hin|Hin];
                [apply in_map_iff in Hin as (k & <- & _); exfalso; apply Hw; reflexivity|]).
        destruct (Htes e Hin) as (_ & w & i & j & ->); exists i, j; split; reflexivity.
      * intros (i & j & Hs & Hd).
        repeat (apply in_app_or in Hin as [Hin|Hin];
                [apply in_map_iff in Hin as (k & <- & _); cbn in Hs, Hd; discriminate|]).
        destruct (Htes e Hin) as (_ & w & i' & j' & ->); discriminate.
Qed.

Lemma X13_flow_network_shape_witness :
  exists g,
    build_graph_of 2 [still_tracklet 0 3 0 0; still_tracklet 5 3 1 1] (Some 4) = Ok g /\
    total_demand g = 0 /\ length (g_nodes g) = 6%nat.
Proof.
  destruct (build_graph_of 2 [still_tracklet 0 3 0 0; still_tracklet 5 3 1 1] (Some 4))
    as [g|e] eqn:E; [|vm_compute in E; discriminate].
  exists g; split; [reflexivity|].
  destruct (@X13_flow_network_shape IntegerArithmetic 2
              [still_tracklet 0 3 0 0; still_tracklet 5 3 1 1] (Some 4)) as [_ H].
  destruct (H g E) as (Hn & _ & _ & Hd & _); split; [exact Hd|exact Hn].
Defined.

Section TransitionEdges.
Context {N : Numeric}.

Lemma forward_edge (n_tracks0 : Z) (ts : list Tracklet) (max_gap : option Z)
    (g : DiGraph) (mg : Z) (i j : nat) (a b : Tracklet) (e : edge) :
  build_graph_of n_tracks0 ts max_gap = Ok g -> resolve_max_gap ts max_gap = Ok mg ->
  chronological a -> chronological b ->
  nth_error ts i = Some a -> nth_error ts j = Some b ->
  In e (g_edges g) -> e_src e = NOut i -> e_dst e = NIn j ->
  exists gap w,
    lt a b = Ok true /\ time_gap_to a b = Ok gap /\ 0 < gap <= mg /\
    e = mkEdge (NOut i) (NIn j) (Some w) 1 /\
    (if (i <? j)%nat then pair_weight a b else pair_weight b a) = Ok w.
Proof.
  intros H Emg Ca Cb Hi Hj Hin Hs Hd.
  edestruct build_graph_transition_edge
    as (mg' & a' & b' & l & Emg' & [[Hp El]|[Hp El]] & Hl);
    [exact H|exact Hin|exact Hs|exact Hd| |];
    apply combinations2_enumerate_in in Hp as (Ea & Eb & L);
    rewrite Nat.sub_0_r in Ea, Eb;
    assert (a' = a) by congruence; assert (b' = b) by congruence;
    assert (mg' = mg) by congruence; subst a' b' mg'.
  - edestruct transition_edge_cases as (gap & w & Eg & Hg & Ew & [[Hl' He]|[Hl' He]]);
      [exact Ca|exact Cb|exact El|exact Hl| |]; subst e.
    + exists gap, w; repeat split; try assumption; try lia.
      replace (i <? j)%nat with true by (symmetry; apply Nat.ltb_lt; lia); exact Ew.
    + simpl in Hs; injection Hs as Hs; lia.
  - edestruct transition_edge_cases as (gap & w & Eg & Hg & Ew & [[Hl' He]|[Hl' He]]);
      [exact Cb|exact Ca|exact El|exact Hl| |]; subst e.
    + simpl in Hs; injection Hs as Hs; lia.
    + destruct (time_gap_precedes Ca Cb Hl') as (ea & sb & _ & _ & _ & E1 & E2).
      assert (gap = sb - ea) by congruence; subst gap.
      exists (sb - ea), w; repeat split; try assumption; try lia.
      replace (i <? j)%nat with false by (symmetry; apply Nat.ltb_ge; lia); exact Ew.
Qed.

Lemma transition_edge_fires (max_gap gap : Z) (i j : nat) (a b : Tracklet) (l : list edge) :
  transition_edge max_gap ((i, a), (j, b)) = Ok l ->
  time_gap_to a b = Ok gap -> 0 < gap <= max_gap ->
  exists w, l = if (match lt a b with Ok true => true | _ => false end)
                then [mkEdge (NOut i) (NIn j) (Some w) 1]
                else [mkEdge (NOut j) (NIn i) (Some w) 1].
Proof.
  unfold transition_edge; intros H Eg Hg; rewrite Eg in H; cbn [bind] in H.
  replace ((0 <? gap) && (gap <=? max_gap)) with true in H
    by (symmetry; apply andb_true_iff; split; [apply Z.ltb_lt|apply Z.leb_le]; lia).
  apply bind_ok_inv in H as (wf0 & _ & H).
  apply bind_ok_inv in H as (w & _ & H).
  apply bind_ok_inv in H as (c & Ec & H).
  apply lt_gt_swap in Ec; rewrite Ec; exists w.
  destruct c; injection H as <-; reflexivity.
Qed.

End TransitionEdges.



(** The edge of a pair listed in reverse time order leaves the later
    listed tracklet. *)
Example reversed_pair_edge :
  option_map (fun g => map (fun e => (e_src e, e_dst e)) (g_edges g))
    (match build_graph_of 2 [still_tracklet 5 3 1 1; still_tracklet 0 3 0 0] (Some 4) with
     | Ok g => Some g | Err _ => None end)
  = Some [(NIn 0, NOut 0); (NIn 1, NOut 1); (Source, NIn 0); (Source, NIn 1);
          (NOut 0, Sink); (NOut 1, Sink); (NOut 1, NIn 0)].
Proof. vm_compute; reflexivity. Qed.

(* ================================================================== *)
(** * What [stitch] reads and what it writes                           *)
(* ================================================================== *)

Section StitchFrame.
Context {N : Numeric} {FS : FlowSolver}.

(** The attributes set by the constructor that a later method leaves
    alone; [residuals] may only grow at its end, and [tracks] is as it
    was. *)
Definition keeps_inputs (st st' : TrackletStitcher) : Prop :=
  filename st' = filename st /\ n_tracks st' = n_tracks st /\ header st' = header st /\
  tracklets st' = tracklets st /\ n_frames st' = n_frames st /\
  first_tracklets st' = first_tracklets st /\ last_tracklets st' = last_tracklets st /\
  (exists extra, residuals st' = residuals st ++ extra).

Lemma keeps_inputs_refl (st : TrackletStitcher) : keeps_inputs st st.
Proof. repeat split; exists []; rewrite app_nil_r; reflexivity. Qed.

Lemma keeps_inputs_trans (s1 s2 s3 : TrackletStitcher) :
  keeps_inputs s1 s2 -> keeps_inputs s2 s3 -> keeps_inputs s1 s3.
Proof.
  intros (A1 & A2 & A3 & A4 & A5 & A6 & A7 & x & A8)
         (B1 & B2 & B3 & B4 & B5 & B6 & B7 & y & B8).
  repeat split; try congruence.
  exists (x ++ y); rewrite B8, A8, app_assoc; reflexivity.
Qed.

Lemma keeps_inputs_append (st : TrackletStitcher) (t : Tracklet) :
  keeps_inputs st (append_residual st t).
Proof. repeat split; exists [t]; reflexivity. Qed.

Lemma keeps_inputs_set_G (st : TrackletStitcher) (g : DiGraph) : keeps_inputs st (set_G st g).
Proof. repeat split; exists []; simpl; rewrite app_nil_r; reflexivity. Qed.

Lemma keeps_inputs_set_paths (st : TrackletStitcher) (ps : list (list Tracklet)) :
  keeps_inputs st (set_paths st ps).
Proof. repeat split; exists []; simpl; rewrite app_nil_r; reflexivity. Qed.

Lemma keeps_inputs_set_flow (st : TrackletStitcher) (f : flowdict) :
  keeps_inputs st (set_flow st f).
Proof. repeat split; exists []; simpl; rewrite app_nil_r; reflexivity. Qed.

Lemma keeps_inputs_set_tracks (st : TrackletStitcher) (trs : list pyval) :
  keeps_inputs st (set_tracks st trs).
Proof. repeat split; exists []; simpl; rewrite app_nil_r; reflexivity. Qed.

Lemma disambiguate_frame (p : nat * nat) (nodes : list nat) (st : TrackletStitcher) :
  keeps_inputs st (snd (disambiguate p (nodes, st))) /\
  tracks (snd (disambiguate p (nodes, st))) = tracks st.
Proof.
  unfold disambiguate; destruct p as [i1 i2].
  destruct (t1 <- tracklet_at st i1 ;; t2 <- tracklet_at st i2 ;; Ok (t1, t2))
    as [[t1 t2]|]; [|split; [apply keeps_inputs_refl|reflexivity]].
  destruct (py_in t1 t2); [|split; [apply keeps_inputs_refl|reflexivity]].
  match goal with
  | |- context [match ?m with Ok _ => _ | Err _ => _ end] => destruct m as [[n2 k]|]
  end; [destruct k|]; simpl;
    (split; [first [apply keeps_inputs_append|apply keeps_inputs_refl]|reflexivity]).
Qed.

Lemma disambiguate_all_frame (ps : list (nat * nat)) (nodes : list nat)
    (st : TrackletStitcher) :
  keeps_inputs st (snd (disambiguate_all ps (nodes, st))) /\
  tracks (snd (disambiguate_all ps (nodes, st))) = tracks st.
Proof.
  revert nodes st; induction ps as [|p ps IH]; intros nodes st.
  - split; [apply keeps_inputs_refl|reflexivity].
  - simpl; destruct (disambiguate_frame p nodes st) as [H1 H2].
    destruct (disambiguate p (nodes, st)) as [[nodes'|e] st']; simpl in *.
    + destruct (IH nodes' st') as [H3 H4]; split.
      * eapply keeps_inputs_trans; eassumption.
      * congruence.
    + split; assumption.
Qed.

Lemma fallback_frame (g : DiGraph) (st : TrackletStitcher) :
  keeps_inputs st (snd (fallback g st)) /\ tracks (snd (fallback g st)) = tracks st.
Proof.
  unfold fallback.
  destruct (node_disjoint_paths _ _) as [found|];
    [|split; [apply keeps_inputs_set_G|reflexivity]].
  destruct (consume_paths found _) as [[paths0 g3]|];
    [|split; [apply keeps_inputs_set_G|reflexivity]].
  destruct (mapM _ paths0) as [paths1|];
    [|split; [apply keeps_inputs_set_G|reflexivity]].
  destruct (_ =? 1).
  - destruct (mapM mapping_inv _) as [remaining|];
      [|split; [apply keeps_inputs_set_G|reflexivity]].
    destruct (disambiguate_all_frame (combinations2 (set_of_list remaining))
                (set_of_list remaining) (set_G st g3)) as [H1 H2].
    assert (H0 : keeps_inputs st
                   (snd (disambiguate_all (combinations2 (set_of_list remaining))
                           (set_of_list remaining, set_G st g3))))
      by (eapply keeps_inputs_trans; [apply keeps_inputs_set_G|exact H1]).
    destruct (disambiguate_all _ _) as [[nodes'|e'] st4]; simpl in *.
    + destruct (mapM _ nodes'); simpl; split; try assumption.
    + split; assumption.
  - destruct (_ >? 1); simpl; split; try reflexivity;
      try apply keeps_inputs_set_G.
Qed.

Lemma solve_frame (g : DiGraph) (st : TrackletStitcher) :
  keeps_inputs st (snd (solve g st)) /\ tracks (snd (solve g st)) = tracks st.
Proof.
  unfold solve; destruct (capacity_scaling g) as [fl| |e'].
  - match goal with
    | |- context [match ?m with Ok _ => _ | Err _ => _ end] => destruct m
    end; simpl; split; try reflexivity; try apply keeps_inputs_set_flow.
  - apply fallback_frame.
  - split; [apply keeps_inputs_refl|reflexivity].
Qed.

Lemma finalize_frame (st : TrackletStitcher) :
  keeps_inputs st (snd (finalize_tracks st)).
Proof.
  unfold finalize_tracks; destruct (paths st); [|apply keeps_inputs_refl].
  match goal with
  | |- context [match ?m with Ok _ => _ | Err _ => _ end] => destruct m
  end; [apply keeps_inputs_set_tracks|apply keeps_inputs_refl].
Qed.

Lemma replace_at_length {A : Type} (l : list A) (i : nat) (m : A) :
  (i < length l)%nat -> length (firstn i l ++ m :: skipn (S i) l) = length l.
Proof.
  intros L; rewrite length_app; cbn [length]; rewrite length_firstn, length_skipn; lia.
Qed.

Lemma attach_length (trs out : list pyval) (i : nat) (r : Tracklet) :
  attach trs i r = Ok out -> length out = length trs.
Proof.
  unfold attach; destruct (nth_error trs i) eqn:E; [|discriminate].
  intros H; apply bind_ok_inv in H as (m & _ & H); injection H as <-.
  apply replace_at_length, nth_error_Some; congruence.
Qed.

Lemma incorporate_length (trs out : list pyval) (r : Tracklet) :
  incorporate trs r = Ok out -> length out = length trs.
Proof.
  unfold incorporate; intros H; apply bind_ok_inv in H as (fit & _ & H).
  destruct (flatnonzero fit) as [|i1 [|i2 rest]].
  - injection H as <-; reflexivity.
  - eapply attach_length; exact H.
  - apply bind_ok_inv in H as (cs & _ & H).
    apply bind_ok_inv in H as (ds & _ & H).
    eapply attach_length; exact H.
Qed.

Lemma incorporate_all_length (rs : list Tracklet) (trs out : list pyval) :
  incorporate_all trs rs = Ok out -> length out = length trs.
Proof.
  revert trs; induction rs as [|r rs IH]; intros trs H; simpl in H.
  - injection H as <-; reflexivity.
  - apply bind_ok_inv in H as (trs' & E & H).
    rewrite (IH _ H); eapply incorporate_length; exact E.
Qed.

End StitchFrame.

(** X15.  [stitch] raises ValueError and changes nothing while no graph
    has been built.  In every case it leaves the file name, the number
    of tracks, the header, the tracklets, the number of frames and the
    first and last tracklets as they were, and it only ever appends to
    the residuals.  When it returns, [paths] and [tracks] are set and
    there is one track per path; when it raises on a stitcher whose
    [paths] is still [None], [tracks] is as it was before the call. *)
Theorem X15_stitch_outcomes {N : Numeric} {FS : FlowSolver} (st : TrackletStitcher) :
  (G st = None ->
   stitch st = (Err (ValueError "Inexistent graph. Call `build_graph` first"), st)) /\
  keeps_inputs st (snd (stitch st)) /\
  (fst (stitch st) = Ok tt ->
   exists ps trs, paths (snd (stitch st)) = Some ps /\
                  tracks (snd (stitch st)) = Some trs /\ length trs = length ps) /\
  (paths st = None ->
   forall e, fst (stitch st) = Err e -> tracks (snd (stitch st)) = tracks st).
Proof.
  unfold stitch; destruct (G st) as [g|].
  2:{ repeat split; try discriminate; try (exists []; rewrite app_nil_r); reflexivity. }
  split; [discriminate|].
  unfold try_finally.
  destruct (solve_frame g st) as [K1 T1].
  destruct (solve g st) as [r s1] eqn:ES; simpl in K1, T1.
  pose proof (finalize_frame s1) as K2.
  unfold finalize_tracks in *.
  destruct (paths s1) as [ps|] eqn:EP; simpl in *.
  - destruct (trs <- mapM py_sum ps ;; incorporate_all trs (residual_order (residuals s1)))
      as [trs|e'] eqn:ET; simpl in *.
    + split; [eapply keeps_inputs_trans; eassumption|]; split.
      * intros _; exists ps, trs; repeat split; [exact EP|].
        apply bind_ok_inv in ET as (trs0 & E0 & ET).
        rewrite (incorporate_all_length _ _ ET); eapply mapM_length; exact E0.
      * intros HP e He; subst r.
        apply solve_err_paths in ES; congruence.
    + split; [exact K1|]; split; [discriminate|intros _ e _; exact T1].
  - split; [exact K1|]; split; [discriminate|intros _ e _; exact T1].
Qed.

Lemma X15_stitch_outcomes_witness :
  tracks (snd (stitch crowded_state)) = tracks crowded_state.
Proof.
  destruct (@X15_stitch_outcomes IntegerArithmetic TransitionFreeSolver crowded_state)
    as (_ & _ & _ & H).
  apply (H eq_refl TypeError); vm_compute; reflexivity.
Defined.

(* ================================================================== *)
(** * Incorporating the residuals                                      *)
(* ================================================================== *)

Lemma Forall2_refl_on {A : Type} (R : A -> A -> Prop) (l : list A) :
  (forall x, R x x) -> Forall2 R l l.
Proof. intros H; induction l; constructor; auto. Qed.

Lemma Forall2_replace_at {A : Type} (R : A -> A -> Prop) (l : list A) (i : nat) (a m : A) :
  (forall x, R x x) -> nth_error l i = Some a -> R a m ->
  Forall2 R l (firstn i l ++ m :: skipn (S i) l).
Proof.
  intros HR; revert i; induction l as [|x l IH]; intros [|i] E Ham; try discriminate.
  - injection E as ->; simpl; constructor; [exact Ham|apply Forall2_refl_on; exact HR].
  - simpl in E; change (Forall2 R (x :: l) (x :: (firstn i l ++ m :: skipn (S i) l))).
    constructor; [apply HR|apply IH; assumption].
Qed.

Lemma Forall2_compose {A : Type} (R1 R2 R3 : A -> A -> Prop) (l1 l2 l3 : list A) :
  (forall a b c, R1 a b -> R2 b c -> R3 a c) ->
  Forall2 R1 l1 l2 -> Forall2 R2 l2 l3 -> Forall2 R3 l1 l3.
Proof.
  intros H H12; revert l3; induction H12 as [|a b l1 l2 Hab _ IH]; intros l3 H23;
    inversion H23; subst; constructor; eauto.
Qed.

Section ArgMinRange.
Context {N : Numeric}.

Lemma first_nan_range (l : list F) (k i : nat) :
  first_nan k l = Some i -> (k <= i < k + length l)%nat.
Proof.
  revert k; induction l as [|x l IH]; intros k H; [discriminate|].
  simpl in H; destruct (fisnan x).
  - injection H as <-; simpl; lia.
  - apply IH in H; simpl; lia.
Qed.

Lemma argmin_from_range (l : list F) (best : F) (ibest k : nat) :
  argmin_from best ibest k l = ibest \/
  (k <= argmin_from best ibest k l < k + length l)%nat.
Proof.
  revert best ibest k; induction l as [|x l IH]; intros best ibest k; [left; reflexivity|].
  simpl; destruct (fltb x best).
  - right; destruct (IH x k (S k)) as [->|H]; lia.
  - destruct (IH best ibest (S k)) as [->|H]; [left; reflexivity|right; lia].
Qed.

(** [np.argmin] of a non-empty array is a position of the array. *)
Lemma np_argmin_range (l : list F) : l <> [] -> (np_argmin l < length l)%nat.
Proof.
  intros Hl; unfold np_argmin; destruct (first_nan 0 l) as [i|] eqn:E.
  - apply first_nan_range in E; lia.
  - destruct l as [|x l]; [contradiction|].
    destruct (argmin_from_range l x 0 1) as [->|H]; simpl; lia.
Qed.

End ArgMinRange.

Section IncorporateInvariants.
Context {N : Numeric}.

(** Parallel arrays with at least one frame. *)
Definition sound (t : Tracklet) : Prop := wf t /\ inds t <> [].

(** What a round of incorporation may do to one track: nothing, or merge
    a residual that shares no frame with it. *)
Definition grows (r t t' : Tracklet) : Prop :=
  t' = t \/ (py_in r t = false /\ add t r = Ok t').

Lemma first_defined {A : Type} (l : list A) : l <> [] -> exists a, first l = Ok a.
Proof. destruct l as [|a l]; [contradiction|exists a; reflexivity]. Qed.

Lemma last_defined {A : Type} (l : list A) : l <> [] -> exists a, last_of l = Ok a.
Proof. destruct l as [|a l]; [contradiction|intros _; apply last_of_defined]. Qed.

Lemma centroid_nonempty (t : Tracklet) :
  smoothing_keeps_length N -> sound t -> centroid t <> [].
Proof.
  intros HS [Hwf Hne] E; apply (f_equal (@length _)) in E.
  rewrite centroid_length in E by exact HS.
  unfold wf in Hwf; rewrite Hwf in E; destruct (inds t); [contradiction|discriminate].
Qed.

Lemma distance_to_disjoint_defined (a b : Tracklet) :
  smoothing_keeps_length N -> sound a -> sound b -> py_in a b = false ->
  exists d, distance_to a b = Ok d.
Proof.
  intros HS Ha Hb Hab; unfold distance_to; rewrite Hab.
  destruct (start_end_defined a (proj2 Ha)) as (sa & ea & Esa & Eea).
  destruct (start_end_defined b (proj2 Hb)) as (sb & eb & Esb & Eeb).
  unfold lt; rewrite Eea, Esb; cbn [bind].
  destruct (first_defined (centroid_nonempty HS Ha)) as (fa & Efa).
  destruct (last_defined (centroid_nonempty HS Ha)) as (la & Ela).
  destruct (first_defined (centroid_nonempty HS Hb)) as (fb & Efb).
  destruct (last_defined (centroid_nonempty HS Hb)) as (lb & Elb).
  destruct (ea <? sb); rewrite ?Ela, ?Efb, ?Efa, ?Elb; cbn [bind]; eexists; reflexivity.
Qed.

Lemma add_sound (t r : Tracklet) :
  sound t -> sound r -> exists m, add t r = Ok m /\ sound m.
Proof.
  intros [Wt Nt] [Wr Nr]; destruct (add_wf Wt Wr) as (m & E & Wm & P).
  exists m; repeat split; [exact E|exact Wm|].
  intros Em; rewrite Em in P; apply Permutation_nil in P.
  destruct (inds t); [contradiction|discriminate].
Qed.

Lemma grows_sound (r t t' : Tracklet) : sound t -> sound r -> grows r t t' -> sound t'.
Proof.
  intros Ht Hr [->|[_ E]]; [exact Ht|].
  destruct (add_sound Ht Hr) as (m & Em & Hm); congruence.
Qed.

Lemma candidate_distances_defined (r : Tracklet) (trks : list Tracklet) :
  smoothing_keeps_length N -> Forall sound trks -> sound r ->
  exists ds, candidate_distances r trks (candidates r trks) = Ok ds /\
             length ds = length (candidates r trks).
Proof.
  intros HS Ht Hr.
  destruct (candidate_distances r trks (candidates r trks)) as [ds|e] eqn:E.
  - exists ds; split; [reflexivity|].
    apply candidate_distances_spec, Forall2_length in E; congruence.
  - exfalso; unfold candidate_distances in E.
    apply bind_err_inv in E as [E|(cs & Ecs & E)].
    + unfold take in E; apply mapM_err in E as (i & Hi & E).
      apply candidates_spec in Hi as (tr & Etr & _).
      rewrite nth_error_map, Etr in E; discriminate.
    + apply mapM_err in E as (c & Hc & E).
      unfold take in Ecs; apply (mapM_in _ _ c Ecs) in Hc as (i & Hi & Ei).
      apply candidates_spec in Hi as (tr & Etr & Hdis).
      rewrite nth_error_map, Etr in Ei; injection Ei as <-.
      rewrite Forall_forall in Ht.
      destruct (@distance_to_disjoint_defined r tr HS Hr) as (d & Ed).
      * apply Ht; eapply nth_error_In; exact Etr.
      * apply py_in_false; exact Hdis.
      * simpl in E; congruence.
Qed.

(** One round of the loop of [_finalize_tracks] returns, and changes at
    most one track, by merging the residual into it. *)
Lemma incorporate_step (r : Tracklet) (trks : list Tracklet) :
  smoothing_keeps_length N -> Forall sound trks -> sound r ->
  exists trks', incorporate (map PTracklet trks) r = Ok (map PTracklet trks') /\
                Forall2 (grows r) trks trks'.
Proof.
  intros HS Ht Hr.
  assert (Hatt : forall i, In i (candidates r trks) ->
            exists trks', attach (map PTracklet trks) i r = Ok (map PTracklet trks') /\
                          Forall2 (grows r) trks trks').
  { intros i Hi; apply candidates_spec in Hi as (tr & Etr & Hdis).
    rewrite Forall_forall in Ht.
    destruct (@add_sound tr r) as (m & Em & _);
      [apply Ht; eapply nth_error_In; exact Etr|exact Hr|].
    exists (firstn i trks ++ m :: skipn (S i) trks); split.
    - erewrite attach_tracklets by exact Etr; rewrite Em; reflexivity.
    - eapply Forall2_replace_at; [intros x; left; reflexivity|exact Etr|].
      right; split; [apply py_in_false; exact Hdis|exact Em]. }
  rewrite incorporate_tracklets.
  destruct (candidates r trks) as [|i1 [|i2 rest]] eqn:Ec.
  - exists trks; split; [reflexivity|apply Forall2_refl_on; intros x; left; reflexivity].
  - apply Hatt; left; reflexivity.
  - destruct (candidate_distances_defined HS Ht Hr) as (ds & Eds & Hlen).
    rewrite Ec in Eds, Hlen; cbv beta iota zeta; rewrite Eds; cbn [bind].
    apply Hatt, nth_In; rewrite <- Hlen.
    apply np_argmin_range; intros ->; discriminate.
Qed.

End IncorporateInvariants.

(** X16.  On tracks and residuals that are parallel arrays with at
    least one frame (and with a smoothing that keeps lengths), the
    residual loop of [_finalize_tracks] always returns.  It returns as
    many tracks as it was given, in the same positions; no track loses
    a frame, every frame of a resulting track was in that track or in
    one of the residuals, and a track without a repeated frame index
    stays without one when the residuals have none. *)
Theorem X16_incorporation_invariants {N : Numeric}
    (trks rs : list Tracklet) :
  smoothing_keeps_length N -> Forall sound trks -> Forall sound rs ->
  exists trks',
    incorporate_all (map PTracklet trks) rs = Ok (map PTracklet trks') /\
    Forall2 (fun t t' =>
               sound t' /\
               (forall k, In k (inds t) -> In k (inds t')) /\
               (forall k, In k (inds t') ->
                  In k (inds t) \/ exists r, In r rs /\ In k (inds r)) /\
               (NoDup (inds t) -> Forall (fun r => NoDup (inds r)) rs ->
                NoDup (inds t')))
            trks trks'.
Proof.
  intros HS; revert trks; induction rs as [|r rs IH]; intros trks Ht Hrs.
  - exists trks; split; [reflexivity|].
    rewrite Forall_forall in Ht; clear - Ht.
    induction trks as [|t trks IHt]; constructor.
    + repeat split; auto; apply Ht; left; reflexivity.
    + apply IHt; intros x Hx; apply Ht; right; exact Hx.
  - inversion Hrs as [|? ? Hr Hrs']; subst.
    destruct (incorporate_step HS Ht Hr) as (trks1 & E1 & G1).
    assert (Ht1 : Forall sound trks1).
    { clear - Ht Hr G1; induction G1 as [|t t1 l l1 Hg _ IHg]; [constructor|].
      inversion Ht; subst; constructor; [|auto].
      eapply grows_sound; [| |exact Hg]; assumption. }
    destruct (IH trks1 Ht1 Hrs') as (trks' & E & F).
    exists trks'; split; [cbn [incorporate_all]; rewrite E1; exact E|].
    assert (G1' : Forall2 (fun t t1 => sound t /\ grows r t t1) trks trks1).
    { clear - Ht G1; induction G1 as [|t t1 l l1 Hg _ IHg]; [constructor|].
      inversion Ht; subst; constructor; auto. }
    eapply Forall2_compose; [|exact G1'|exact F].
    intros t t1 t' [[Wt Nt] Hg] (St' & Hin & Hout & Hnd).
    assert (Hperm : t1 = t \/
              (py_in r t = false /\ Permutation (inds t1) (inds t ++ inds r))).
    { destruct Hg as [->|[Hd Ea]]; [left; reflexivity|right; split; [exact Hd|]].
      destruct (add_wf Wt (proj1 Hr)) as (m & Em & _ & P); congruence. }
    split; [exact St'|]; split; [|split].
    + intros k Hk; apply Hin.
      destruct Hperm as [->|[_ P]]; [exact Hk|].
      eapply Permutation_in; [symmetry; exact P|apply in_or_app; left; exact Hk].
    + intros k Hk; destruct (Hout k Hk) as [H1|(r' & Hr' & Hk')].
      * destruct Hperm as [->|[_ P]]; [left; exact H1|].
        apply (Permutation_in _ P) in H1; apply in_app_or in H1 as [H1|H1];
          [left; exact H1|right; exists r; split; [left; reflexivity|exact H1]].
      * right; exists r'; split; [right; exact Hr'|exact Hk'].
    + intros ND Hall; inversion Hall as [|? ? NDr Hall']; subst.
      apply Hnd; [|exact Hall'].
      destruct Hperm as [->|[Hd P]]; [exact ND|].
      apply (Permutation_NoDup (Permutation_sym P)).
      apply NoDup_app; [exact ND|exact NDr|].
      intros k Hk Hk'; rewrite py_in_false in Hd; exact (Hd k Hk' Hk).
Qed.

Lemma X16_incorporation_invariants_witness :
  exists trks',
    incorporate_all
      (map PTracklet [mkTracklet (repeat (frame_at 0 0) 7) [0; 1; 2; 3; 8; 9; 10];
                      still_tracklet 4 4 9 9])
      [still_tracklet 5 2 1 1; still_tracklet 20 2 1 1]
    = Ok (map PTracklet trks') /\ length trks' = 2%nat.
Proof.
  destruct (@X16_incorporation_invariants IntegerArithmetic
              [mkTracklet (repeat (frame_at 0 0) 7) [0; 1; 2; 3; 8; 9; 10];
               still_tracklet 4 4 9 9]
              [still_tracklet 5 2 1 1; still_tracklet 20 2 1 1]
              integer_smoothing_keeps_length) as (trks' & E & F).
  - repeat constructor; discriminate.
  - repeat constructor; discriminate.
  - exists trks'; split; [exact E|].
    apply Forall2_length in F; rewrite <- F; reflexivity.
Defined.

(* ================================================================== *)
(** * What the constructor of the stitcher establishes                 *)
(* ================================================================== *)

Lemma mask_select_length {A : Type} (l : list A) (m : list bool) (r : list A) :
  mask_select l m = Ok r -> length r = length (filter (fun b => b) m).
Proof.
  revert m r; induction l as [|a l IH]; intros [|b m] r H; simpl in H; try discriminate.
  - injection H as <-; reflexivity.
  - apply bind_ok_inv in H as (r' & E & H); injection H as <-.
    apply IH in E; destruct b; simpl; congruence.
Qed.

Lemma mask_select_incl {A : Type} (l : list A) (m : list bool) (r : list A) :
  mask_select l m = Ok r -> incl r l.
Proof.
  revert m r; induction l as [|a l IH]; intros [|b m] r H; simpl in H; try discriminate.
  - injection H as <-; apply incl_refl.
  - apply bind_ok_inv in H as (r' & E & H); injection H as <-.
    apply IH in E; destruct b.
    + intros x [<-|Hx]; [left; reflexivity|right; apply E; exact Hx].
    + apply incl_tl; exact E.
Qed.

Lemma np_split_parallel {A B : Type} (l1 : list A) (l2 : list B) (idx : list nat)
    (d : list A) (i : list B) :
  length l1 = length l2 ->
  In (d, i) (combine (np_split l1 idx) (np_split l2 idx)) -> length d = length i.
Proof.
  intros Hlen; unfold np_split; generalize 0%nat as st.
  induction idx as [|p idx IH]; intros st Hin; simpl in Hin.
  - destruct Hin as [Hin|[]]; injection Hin as <- <-.
    rewrite !length_skipn; congruence.
  - destruct Hin as [Hin|Hin]; [|eapply IH; exact Hin].
    injection Hin as <- <-; rewrite !length_firstn, !length_skipn; congruence.
Qed.

Section Loading.
Context {N : Numeric}.

(** The frame indices that the labels of a fragment carry, in dict
    order. *)
Definition frame_indices (dict_ : list (string * list F)) : result (list Z) :=
  mapM (fun kv => get_frame_ind (fst kv)) dict_.

Lemma frame_indices_items (dict_ : list (string * list F)) (items : list (Z * list F)) :
  mapM (fun kv => i <- get_frame_ind (fst kv) ;; Ok (i, snd kv)) dict_ = Ok items ->
  frame_indices dict_ = Ok (map fst items).
Proof.
  unfold frame_indices; revert items; induction dict_ as [|kv d IH]; intros items H.
  - injection H as <-; reflexivity.
  - simpl in H; apply bind_ok_inv in H as (p & Ep & H).
    apply bind_ok_inv in H as (ps & Eps & H); injection H as <-.
    apply bind_ok_inv in Ep as (i & Ei & Ep); injection Ep as <-.
    simpl; rewrite Ei, (IH ps Eps); reflexivity.
Qed.

(** A tracklet as the constructor stores it: parallel arrays with at
    least one frame, in chronological order, continuous when splitting
    was asked for, and made of frames that the labels of the fragment
    [dict_] carry. *)
Definition loaded_from (split_tracklets : bool) (dict_ : list (string * list F))
    (t : Tracklet) : Prop :=
  sound t /\ chronological t /\
  (split_tracklets = true -> is_continuous t = Ok true) /\
  exists ixs, frame_indices dict_ = Ok ixs /\ incl (inds t) ixs.

Lemma split_pieces_sound (t : Tracklet) (pieces : list Tracklet) :
  sound t -> split_tracklet t = Ok pieces ->
  Forall (fun p => sound p /\ chronological p /\ is_continuous p = Ok true /\
                   incl (inds p) (inds t)) pieces.
Proof.
  intros [Hwf Hne] H.
  destruct (split_tracklet_reconstructs t) as (pieces' & E' & Hcat & _).
  assert (pieces' = pieces) by congruence; subst pieces'.
  rewrite split_tracklet_pieces in H; injection H as H.
  apply Forall_forall; intros p Hp.
  assert (Hsub : incl (inds p) (inds t)).
  { intros k Hk; rewrite <- Hcat; apply in_concat; exists (inds p); split; [|exact Hk].
    apply in_map; exact Hp. }
  rewrite <- H in Hp; apply in_map_iff in Hp as ([d i] & <- & Hin); simpl in *.
  assert (Hlen : length d = length i) by (eapply np_split_parallel; [exact Hwf|exact Hin]).
  apply in_combine_r in Hin.
  pose proof (np_split_breaks_consecutive Hne) as F1; rewrite Forall_forall in F1.
  pose proof (proj1 (np_split_breaks_increasing (inds t))) as F2.
  rewrite Forall_forall in F2.
  destruct (F1 i Hin) as [Hi Hc]; repeat split; try assumption.
  - apply sorted_lt_le, monotonically_increasing_spec, F2; exact Hin.
  - apply consecutive_continuous; assumption.
Qed.

Lemma load_fragment_spec (min_length : Z) (split_tracklets : bool)
    (dict_ : list (string * list F)) (lf : Z) (ts rs : list Tracklet) :
  load_fragment min_length split_tracklets dict_ = Ok (lf, ts, rs) ->
  (exists ixs, frame_indices dict_ = Ok ixs /\ last_of ixs = Ok lf) /\
  Forall (fun t => loaded_from split_tracklets dict_ t /\ min_length <= len t) ts /\
  Forall (fun t => loaded_from split_tracklets dict_ t /\ len t < min_length) rs.
Proof.
  unfold load_fragment; intros H.
  apply bind_ok_inv in H as (items & Eitems & H).
  pose proof (@frame_indices_items _ _ Eitems) as Eix.
  destruct items as [|[i0 v0] items]; [discriminate|].
  set (inds0 := map fst ((i0, v0) :: items)) in *.
  set (data0 := map snd ((i0, v0) :: items)) in *.
  apply bind_ok_inv in H as (lf' & Elf & H).
  destruct (negb (forallb _ _)); [discriminate|].
  destruct (negb (_ =? 0)%nat); [discriminate|].
  apply bind_ok_inv in H as ([temp1 inds1] & Esel & H).
  assert (Hsel : length temp1 = length inds1 /\ incl inds1 inds0).
  { destruct (any _).
    - apply bind_ok_inv in Esel as (t & Et & Esel).
      apply bind_ok_inv in Esel as (i & Ei & Esel); injection Esel as <- <-.
      split; [|eapply mask_select_incl; exact Ei].
      rewrite (mask_select_length _ _ Et), (mask_select_length _ _ Ei); reflexivity.
    - injection Esel as <- <-; split; [|apply incl_refl].
      unfold inds0, data0; simpl; rewrite !length_map; reflexivity. }
  destruct Hsel as [Hlen Hincl].
  destruct inds1 as [|i1 inds1].
  { injection H as <- <- <-; split; [exists inds0; split; assumption|].
    split; constructor. }
  apply bind_ok_inv in H as (t & Et & H).
  apply bind_ok_inv in H as (c & Ec & H).
  apply bind_ok_inv in H as (pieces & Ep & H); injection H as <- <- <-.
  split; [exists inds0; split; assumption|].
  destruct (Tracklet_init_spec _ _ Hlen) as (t' & Et' & Hwf & Hs & P & _).
  assert (t' = t) by congruence; subst t'.
  assert (Pi : Permutation (inds t) (i1 :: inds1))
    by (eapply Tracklet_init_perm_inds; eassumption).
  assert (St : sound t).
  { split; [exact Hwf|]; intros E; rewrite E in Pi.
    apply Permutation_nil in Pi; discriminate. }
  assert (Hall : Forall (loaded_from split_tracklets dict_) pieces).
  { destruct (negb c && split_tracklets) eqn:B.
    - apply split_pieces_sound in Ep; [|exact St].
      eapply Forall_impl; [|exact Ep]; cbv beta.
      intros p (Sp & Cp & Kp & Ip); repeat split; try apply Sp; try assumption.
      + intros _; exact Kp.
      + exists inds0; split; [exact Eix|].
        intros k Hk; apply Hincl, (Permutation_in _ Pi), Ip, Hk.
    - injection Ep as <-; constructor; [|constructor].
      repeat split; try apply St; try exact Hs.
      + intros ->; rewrite andb_true_r in B; apply negb_false_iff in B; congruence.
      + exists inds0; split; [exact Eix|].
        intros k Hk; apply Hincl, (Permutation_in _ Pi), Hk. }
  rewrite Forall_forall in Hall; split; apply Forall_forall; intros p Hp;
    apply filter_In in Hp as [Hp Hl]; (split; [apply Hall; exact Hp|]).
  - apply Z.geb_le in Hl; exact Hl.
  - apply Z.ltb_lt in Hl; exact Hl.
Qed.

End Loading.

Section LoadingAll.
Context {N : Numeric}.

(** The loading loop after the fragments [done]: where every tracklet
    and residual comes from, and the last frame recorded for every
    fragment. *)
Definition loaded_inv (min_length : Z) (split_tracklets : bool)
    (done : list (list (string * list F)))
    (acc : list Z * list Tracklet * list Tracklet) : Prop :=
  Forall (fun t => (exists d, In d done /\ loaded_from split_tracklets d t) /\
                   min_length <= len t) (snd (fst acc)) /\
  Forall (fun t => (exists d, In d done /\ loaded_from split_tracklets d t) /\
                   len t < min_length) (snd acc) /\
  Forall (fun d => exists ixs lf, frame_indices d = Ok ixs /\ last_of ixs = Ok lf /\
                                  In lf (fst (fst acc))) done.

Lemma load_fragments_spec (min_length : Z) (split_tracklets : bool)
    (ds done : list (list (string * list F)))
    (acc res : list Z * list Tracklet * list Tracklet) :
  load_fragments min_length split_tracklets ds acc = Ok res ->
  loaded_inv min_length split_tracklets done acc ->
  loaded_inv min_length split_tracklets (done ++ ds) res.
Proof.
  revert done acc; induction ds as [|d ds IH]; intros done acc H Hinv; simpl in H.
  - injection H as <-; rewrite app_nil_r; exact Hinv.
  - apply bind_ok_inv in H as ([[lf ts] rs] & Ed & H).
    destruct acc as [[lfs ts0] rs0].
    replace (done ++ d :: ds) with ((done ++ [d]) ++ ds)
      by (rewrite <- app_assoc; reflexivity).
    apply (IH _ _ H); clear IH H.
    destruct (load_fragment_spec _ _ _ Ed) as ((ixs & Eix & Elf) & Fts & Frs).
    destruct Hinv as (H1 & H2 & H3); simpl in *.
    split; [|split]; simpl.
    + apply Forall_app; split.
      * eapply Forall_impl; [|exact H1]; cbv beta.
        intros t [(d' & Hd' & Ht) Hl]; split; [|exact Hl].
        exists d'; split; [apply in_or_app; left; exact Hd'|exact Ht].
      * eapply Forall_impl; [|exact Fts]; cbv beta.
        intros t [Ht Hl]; split; [|exact Hl].
        exists d; split; [apply in_or_app; right; left; reflexivity|exact Ht].
    + apply Forall_app; split.
      * eapply Forall_impl; [|exact H2]; cbv beta.
        intros t [(d' & Hd' & Ht) Hl]; split; [|exact Hl].
        exists d'; split; [apply in_or_app; left; exact Hd'|exact Ht].
      * eapply Forall_impl; [|exact Frs]; cbv beta.
        intros t [Ht Hl]; split; [|exact Hl].
        exists d; split; [apply in_or_app; right; left; reflexivity|exact Ht].
    + apply Forall_app; split.
      * eapply Forall_impl; [|exact H3]; cbv beta.
        intros d' (ixs' & lf' & E1 & E2 & Hin); exists ixs', lf'.
        repeat split; try assumption; apply in_or_app; left; exact Hin.
      * constructor; [|constructor]; exists ixs, lf.
        repeat split; try assumption; apply in_or_app; right; left; reflexivity.
Qed.

(** The steps that the constructor went through when it returns. *)
Lemma TrackletStitcher_init_ok (pickle_file : string) (loaded : pickle)
    (n_tracks0 min_length : Z) (split_tracklets : bool) (st : TrackletStitcher) :
  TrackletStitcher_init pickle_file loaded n_tracks0 min_length split_tracklets = Ok st ->
  exists hd lfs ts rs m starts ends,
    2 <= n_tracks0 /\ 3 <= min_length /\ p_header loaded = Some hd /\
    loaded_inv min_length split_tracklets (p_tracklets loaded) (lfs, ts, rs) /\
    py_max_list lfs = Ok m /\ mapM start ts = Ok starts /\ mapM end_ ts = Ok ends /\
    st = mkStitcher pickle_file n_tracks0 None None None hd ts rs (m + 1)
           (head_n (Z.to_nat n_tracks0) (argsort starts))
           (tail_n (Z.to_nat n_tracks0) (argsort ends)) None.
Proof.
  unfold TrackletStitcher_init; intros H.
  destruct (n_tracks0 <? 2) eqn:E1; [discriminate|apply Z.ltb_ge in E1].
  destruct (min_length <? 3) eqn:E2; [discriminate|apply Z.ltb_ge in E2].
  destruct (p_header loaded) as [hd|]; [|discriminate].
  destruct (length (p_tracklets loaded) =? 0)%nat; [discriminate|].
  apply bind_ok_inv in H as ([[lfs ts] rs] & El & H).
  apply bind_ok_inv in H as (m & Em & H).
  apply bind_ok_inv in H as (starts & Es & H).
  apply bind_ok_inv in H as (ends & Ee & H); injection H as <-.
  assert (Hinv : loaded_inv min_length split_tracklets ([] ++ p_tracklets loaded)
                    (lfs, ts, rs))
    by (eapply load_fragments_spec; [exact El|repeat split; constructor]).
  exists hd, lfs, ts, rs, m, starts, ends.
  split; [exact E1|]; split; [exact E2|]; split; [reflexivity|].
  split; [exact Hinv|]; split; [exact Em|]; split; [exact Es|]; split; [exact Ee|].
  reflexivity.
Qed.

End LoadingAll.

(** X17.  When the constructor of the stitcher returns, the
    configuration was valid, no graph, path or track is set yet, and
    every stored tracklet and residual is a pair of parallel arrays with
    at least one frame, in chronological order, made of frames that the
    labels of one fragment of the file carry.  The tracklets are at
    least [min_length] long and the residuals shorter, and with
    [split_tracklets] all of them are continuous. *)
Theorem X17_constructor_invariants {N : Numeric} (pickle_file : string) (loaded : pickle)
    (n_tracks0 min_length : Z) (split_tracklets : bool) (st : TrackletStitcher) :
  TrackletStitcher_init pickle_file loaded n_tracks0 min_length split_tracklets = Ok st ->
  2 <= n_tracks0 /\ 3 <= min_length /\
  n_tracks st = n_tracks0 /\ filename st = pickle_file /\
  p_header loaded = Some (header st) /\
  G st = None /\ paths st = None /\ tracks st = None /\
  Forall (fun t => min_length <= len t) (tracklets st) /\
  Forall (fun t => len t < min_length) (residuals st) /\
  (forall t, In t (tracklets st ++ residuals st) ->
     sound t /\ chronological t /\
     (split_tracklets = true -> is_continuous t = Ok true) /\
     exists d ixs, In d (p_tracklets loaded) /\ frame_indices d = Ok ixs /\
                   incl (inds t) ixs).
Proof.
  intros H.
  edestruct TrackletStitcher_init_ok
    as (hd & lfs & ts & rs & m & starts & ends & Hn & Hm & Hh & (F1 & F2 & _) & _ & _ & _ & E);
    [exact H|]; subst st; simpl in *.
  do 8 (split; [assumption || reflexivity|]).
  split; [eapply Forall_impl; [|exact F1]; cbv beta; intros t [_ Hl]; exact Hl|].
  split; [eapply Forall_impl; [|exact F2]; cbv beta; intros t [_ Hl]; exact Hl|].
  intros t Ht; rewrite Forall_forall in F1, F2.
  assert (Hfrom : exists d, In d (p_tracklets loaded) /\ loaded_from split_tracklets d t).
  { apply in_app_or in Ht as [Ht|Ht]; [apply (F1 t Ht)|apply (F2 t Ht)]. }
  destruct Hfrom as (d & Hd & S & C & K & ixs & Eix & I).
  split; [exact S|]; split; [exact C|]; split; [exact K|].
  exists d, ixs; repeat split; assumption.
Qed.

Lemma X17_constructor_invariants_witness :
  exists st,
    TrackletStitcher_init "video_bx.pickle" crowded_pickle 3 5 true = Ok st /\
    G st = None /\ Forall (fun t => 5 <= len t) (tracklets st).
Proof.
  assert (R : returned (TrackletStitcher_init "video_bx.pickle" crowded_pickle 3 5 true)
              = true) by (vm_compute; reflexivity).
  destruct (TrackletStitcher_init "video_bx.pickle" crowded_pickle 3 5 true)
    as [st|e] eqn:E; [|discriminate R].
  exists st; split; [reflexivity|].
  destruct (@X17_constructor_invariants IntegerArithmetic _ _ _ _ _ _ E)
    as (_ & _ & _ & _ & _ & HG & _ & _ & HT & _).
  split; [exact HG|exact HT].
Defined.

(* ================================================================== *)
(** * The first and the last tracklets                                 *)
(* ================================================================== *)

Section SortedSplit.
Variable A : Type.
Variable key : A -> Z.

Lemma sorted_firstn_skipn (s : list A) (n : nat) (a b : A) :
  StronglySorted (key_le key) s -> In a (firstn n s) -> In b (skipn n s) ->
  key a <= key b.
Proof.
  intros S; revert n; induction S as [|x s S IH Hx]; intros n Ha Hb.
  - rewrite firstn_nil in Ha; destruct Ha.
  - destruct n as [|n]; [destruct Ha|]; simpl in Ha, Hb.
    destruct Ha as [<-|Ha]; [|eapply IH; eassumption].
    rewrite Forall_forall in Hx; apply Hx.
    rewrite <- (firstn_skipn n s); apply in_or_app; right; exact Hb.
Qed.

End SortedSplit.

Lemma in_combine_seq_at {A : Type} (l : list A) (s i : nat) (x : A) :
  nth_error l i = Some x -> In (x, (s + i)%nat) (combine l (seq s (length l))).
Proof.
  revert s i; induction l as [|a l IH]; intros s [|i] H; try discriminate.
  - injection H as <-; rewrite Nat.add_0_r; left; reflexivity.
  - right; replace (s + S i)%nat with (S s + i)%nat by lia; apply IH; exact H.
Qed.

Lemma in_combine_seq_iff {A : Type} (l : list A) (x : A) (i : nat) :
  In (x, i) (combine l (seq 0 (length l))) <-> nth_error l i = Some x.
Proof.
  split.
  - intros H; apply in_combine_seq in H as [H _]; rewrite Nat.sub_0_r in H; exact H.
  - intros H; apply (in_combine_seq_at l 0) in H; exact H.
Qed.

Section ArgSort.

Lemma argsort_length (l : list Z) : length (argsort l) = length l.
Proof.
  unfold argsort; rewrite length_map.
  rewrite (Permutation_length (msort_perm (@fst Z nat) _)), length_combine, length_seq.
  apply Nat.min_id.
Qed.

Lemma argsort_in (l : list Z) (i : nat) : In i (argsort l) <-> (i < length l)%nat.
Proof.
  unfold argsort; rewrite in_map_iff; split.
  - intros ([x j] & <- & H).
    apply (Permutation_in _ (msort_perm (@fst Z nat) _)) in H.
    apply in_combine_r in H; apply in_seq in H; simpl; lia.
  - intros L; destruct (nth_error l i) as [x|] eqn:E;
      [|apply nth_error_None in E; lia].
    exists (x, i); split; [reflexivity|].
    apply (Permutation_in _ (Permutation_sym (msort_perm (@fst Z nat) _))).
    apply in_combine_seq_iff; exact E.
Qed.

(** The positions that the sort puts before position [n] carry values
    not above those of the other positions. *)
Lemma argsort_cut (l : list Z) (n i j : nat) (x y : Z) :
  nth_error l i = Some x -> nth_error l j = Some y ->
  In i (firstn n (argsort l)) -> In j (skipn n (argsort l)) -> x <= y.
Proof.
  unfold argsort; intros Ei Ej Hi Hj.
  set (s := msort (@fst Z nat) (combine l (seq 0 (length l)))) in *.
  assert (Hs : forall p, In p s -> nth_error l (snd p) = Some (fst p)).
  { intros [v k] Hp; apply (Permutation_in _ (msort_perm (@fst Z nat) _)) in Hp.
    apply in_combine_seq_iff; exact Hp. }
  rewrite firstn_map in Hi; rewrite skipn_map in Hj.
  apply in_map_iff in Hi as ([x' i'] & Ei' & Hi); simpl in Ei'; subst i'.
  apply in_map_iff in Hj as ([y' j'] & Ej' & Hj); simpl in Ej'; subst j'.
  assert (x' = x).
  { assert (Hin : In (x', i) s)
      by (rewrite <- (firstn_skipn n s); apply in_or_app; left; exact Hi).
    apply Hs in Hin; simpl in Hin; congruence. }
  assert (y' = y).
  { assert (Hin : In (y', j) s)
      by (rewrite <- (firstn_skipn n s); apply in_or_app; right; exact Hj).
    apply Hs in Hin; simpl in Hin; congruence. }
  subst x' y'.
  apply (sorted_firstn_skipn (key := @fst Z nat) (s := s) n (x, i) (y, j));
    [apply msort_strongly_sorted|exact Hi|exact Hj].
Qed.

Lemma argsort_split (l : list Z) (n j : nat) :
  (j < length l)%nat -> In j (firstn n (argsort l)) \/ In j (skipn n (argsort l)).
Proof.
  intros L; apply argsort_in in L.
  rewrite <- (firstn_skipn n (argsort l)) in L; apply in_app_or in L; exact L.
Qed.

End ArgSort.

Lemma mapM_nth_error {A B : Type} (f : A -> result B) (l : list A) (r : list B)
    (i : nat) (a : A) :
  mapM f l = Ok r -> nth_error l i = Some a ->
  exists b, nth_error r i = Some b /\ f a = Ok b.
Proof.
  revert r i; induction l as [|x l IH]; intros r i H E; [destruct i; discriminate|].
  simpl in H; apply bind_ok_inv in H as (y & Ey & H).
  apply bind_ok_inv in H as (ys & Eys & H); injection H as <-.
  destruct i as [|i]; simpl in *.
  - injection E as <-; exists y; split; [reflexivity|exact Ey].
  - apply (IH ys i Eys E).
Qed.

(** X18.  When the constructor returns, [_first_tracklets] and
    [_last_tracklets] each hold [n_tracks] positions of [self.tracklets]
    (all of them when there are fewer tracklets); no tracklet outside
    the first ones starts before one of them, and no tracklet outside
    the last ones ends after one of them. *)
Theorem X18_first_and_last_tracklets {N : Numeric} (pickle_file : string) (loaded : pickle)
    (n_tracks0 min_length : Z) (split_tracklets : bool) (st : TrackletStitcher) :
  TrackletStitcher_init pickle_file loaded n_tracks0 min_length split_tracklets = Ok st ->
  length (first_tracklets st) = Nat.min (Z.to_nat n_tracks0) (length (tracklets st)) /\
  length (last_tracklets st) = Nat.min (Z.to_nat n_tracks0) (length (tracklets st)) /\
  (forall i, In i (first_tracklets st ++ last_tracklets st) ->
             (i < length (tracklets st))%nat) /\
  (forall i j ti tj si sj,
     nth_error (tracklets st) i = Some ti -> nth_error (tracklets st) j = Some tj ->
     start ti = Ok si -> start tj = Ok sj ->
     In i (first_tracklets st) -> ~ In j (first_tracklets st) -> si <= sj) /\
  (forall i j ti tj ei ej,
     nth_error (tracklets st) i = Some ti -> nth_error (tracklets st) j = Some tj ->
     end_ ti = Ok ei -> end_ tj = Ok ej ->
     In i (last_tracklets st) -> ~ In j (last_tracklets st) -> ej <= ei).
Proof.
  intros H.
  edestruct TrackletStitcher_init_ok
    as (hd & lfs & ts & rs & m & starts & ends & _ & _ & _ & _ & _ & Es & Ee & E);
    [exact H|]; subst st; simpl.
  pose proof (mapM_length _ _ Es) as Ls; pose proof (mapM_length _ _ Ee) as Le.
  unfold head_n, tail_n.
  split; [rewrite length_firstn, argsort_length, Ls; reflexivity|].
  split; [rewrite length_skipn, argsort_length, Le; lia|].
  split; [|split].
  - intros i Hi; apply in_app_or in Hi as [Hi|Hi].
    + rewrite <- Ls; apply argsort_in.
      rewrite <- (firstn_skipn (Z.to_nat n_tracks0) (argsort starts)).
      apply in_or_app; left; exact Hi.
    + rewrite <- Le; apply argsort_in.
      rewrite <- (firstn_skipn (length (argsort ends) - Z.to_nat n_tracks0) (argsort ends)).
      apply in_or_app; right; exact Hi.
  - intros i j ti tj si sj Hi Hj Si Sj Ii Ij.
    destruct (mapM_nth_error _ _ _ Es Hi) as (si' & Ei' & Si').
    destruct (mapM_nth_error _ _ _ Es Hj) as (sj' & Ej' & Sj').
    assert (si' = si) by congruence; assert (sj' = sj) by congruence; subst si' sj'.
    assert (Lj : (j < length starts)%nat) by (apply nth_error_Some; congruence).
    destruct (argsort_split starts (Z.to_nat n_tracks0) Lj) as [Hin|Hin];
      [contradiction|].
    eapply argsort_cut; [exact Ei'|exact Ej'|exact Ii|exact Hin].
  - intros i j ti tj ei ej Hi Hj Si Sj Ii Ij.
    destruct (mapM_nth_error _ _ _ Ee Hi) as (ei' & Ei' & Si').
    destruct (mapM_nth_error _ _ _ Ee Hj) as (ej' & Ej' & Sj').
    assert (ei' = ei) by congruence; assert (ej' = ej) by congruence; subst ei' ej'.
    assert (Lj : (j < length ends)%nat) by (apply nth_error_Some; congruence).
    destruct (argsort_split ends (length (argsort ends) - Z.to_nat n_tracks0) Lj)
      as [Hin|Hin]; [|contradiction].
    eapply argsort_cut; [exact Ej'|exact Ei'|exact Hin|exact Ii].
Qed.

Lemma X18_first_and_last_tracklets_witness :
  exists st,
    TrackletStitcher_init "video_bx.pickle" crowded_pickle 3 5 true = Ok st /\
    length (first_tracklets st) = Nat.min 3 (length (tracklets st)).
Proof.
  assert (R : returned (TrackletStitcher_init "video_bx.pickle" crowded_pickle 3 5 true)
              = true) by (vm_compute; reflexivity).
  destruct (TrackletStitcher_init "video_bx.pickle" crowded_pickle 3 5 true)
    as [st|e] eqn:E; [|discriminate R].
  exists st; split; [reflexivity|].
  destruct (@X18_first_and_last_tracklets IntegerArithmetic _ _ _ _ _ _ E) as (HF & _).
  exact HF.
Defined.

(* ================================================================== *)
(** * The number of frames                                             *)
(* ================================================================== *)

Lemma get_frame_ind_nonneg (s : string) (n : Z) : get_frame_ind s = Ok n -> 0 <= n.
Proof.
  unfold get_frame_ind; destruct (find_digits s) as [ds|] eqn:E; [|discriminate].
  intros H; injection H as <-.
  destruct (find_digits_run _ E) as (s' & ->).
  apply decimal_nonneg; [lia|apply digits_run_nonneg].
Qed.

Lemma last_of_in {A : Type} (l : list A) (a : A) : last_of l = Ok a -> In a l.
Proof.
  induction l as [|x l IH]; intros H; [discriminate|].
  destruct l as [|y l]; [injection H as <-; left; reflexivity|].
  right; apply IH; exact H.
Qed.

Lemma fold_max_ge (l : list Z) (x : Z) :
  x <= fold_left Z.max l x /\ forall y, In y l -> y <= fold_left Z.max l x.
Proof.
  revert x; induction l as [|a l IH]; intros x; simpl; [split; [lia|intros ? []]|].
  destruct (IH (Z.max x a)) as [H1 H2]; split; [lia|].
  intros y [<-|Hy]; [lia|apply H2; exact Hy].
Qed.

Lemma py_max_list_ge (l : list Z) (m : Z) :
  py_max_list l = Ok m -> forall y, In y l -> y <= m.
Proof.
  destruct l as [|x l]; [discriminate|]; intros H; injection H as <-.
  destruct (fold_max_ge l x) as [H1 H2]; intros y [<-|Hy]; [exact H1|apply H2; exact Hy].
Qed.

Section FrameCount.
Context {N : Numeric}.

Lemma frame_indices_nonneg (d : list (string * list F)) (ixs : list Z) (k : Z) :
  frame_indices d = Ok ixs -> In k ixs -> 0 <= k.
Proof.
  unfold frame_indices; intros H Hk.
  apply (mapM_in _ _ k H) in Hk as (kv & _ & E).
  eapply get_frame_ind_nonneg; exact E.
Qed.

Lemma TrackletStitcher_init_nonempty (pickle_file : string) (loaded : pickle)
    (n_tracks0 min_length : Z) (split_tracklets : bool) (st : TrackletStitcher) :
  TrackletStitcher_init pickle_file loaded n_tracks0 min_length split_tracklets = Ok st ->
  p_tracklets loaded <> [].
Proof.
  unfold TrackletStitcher_init; intros H E; rewrite E in H.
  destruct (n_tracks0 <? 2); [discriminate|].
  destruct (min_length <? 3); [discriminate|].
  destruct (p_header loaded); discriminate.
Qed.

End FrameCount.

(** X19.  When the constructor returns, [n_frames] is at least 1 and
    every frame index of every tracklet and residual is non-negative.
    When the labels of each fragment come in non-decreasing frame order,
    every such frame index is below [n_frames], so that each frame has
    its row in the table that [write_tracks] allocates. *)
Theorem X19_frames_within_n_frames {N : Numeric} (pickle_file : string) (loaded : pickle)
    (n_tracks0 min_length : Z) (split_tracklets : bool) (st : TrackletStitcher) :
  TrackletStitcher_init pickle_file loaded n_tracks0 min_length split_tracklets = Ok st ->
  1 <= n_frames st /\
  (forall t k, In t (tracklets st ++ residuals st) -> In k (inds t) -> 0 <= k) /\
  ((forall d ixs, In d (p_tracklets loaded) -> frame_indices d = Ok ixs ->
                  StronglySorted Z.le ixs) ->
   forall t k, In t (tracklets st ++ residuals st) -> In k (inds t) -> k < n_frames st).
Proof.
  intros H.
  pose proof (TrackletStitcher_init_nonempty _ _ _ _ _ H) as Hne.
  edestruct TrackletStitcher_init_ok
    as (hd & lfs & ts & rs & m & starts & ends & _ & _ & _ & (F1 & F2 & F3) & Em & _ & _ & E);
    [exact H|]; subst st; simpl in *.
  rewrite Forall_forall in F1, F2, F3.
  assert (Hfrom : forall t, In t (ts ++ rs) ->
            exists d ixs, In d (p_tracklets loaded) /\ frame_indices d = Ok ixs /\
                          incl (inds t) ixs).
  { intros t Ht; apply in_app_or in Ht as [Ht|Ht];
      [destruct (F1 t Ht) as [(d & Hd & _ & _ & _ & ixs & Eix & I) _]
      |destruct (F2 t Ht) as [(d & Hd & _ & _ & _ & ixs & Eix & I) _]];
      exists d, ixs; repeat split; assumption. }
  split; [|split].
  - destruct (p_tracklets loaded) as [|d ds]; [contradiction|].
    destruct (F3 d (or_introl eq_refl)) as (ixs & lf & Eix & Elf & Hin).
    pose proof (py_max_list_ge _ Em _ Hin) as Hm.
    pose proof (frame_indices_nonneg _ _ Eix (last_of_in _ Elf)); lia.
  - intros t k Ht Hk; destruct (Hfrom t Ht) as (d & ixs & _ & Eix & I).
    eapply frame_indices_nonneg; [exact Eix|apply I; exact Hk].
  - intros Hsorted t k Ht Hk; destruct (Hfrom t Ht) as (d & ixs & Hd & Eix & I).
    destruct (F3 d Hd) as (ixs' & lf & Eix' & Elf & Hin).
    assert (ixs' = ixs) by congruence; subst ixs'.
    pose proof (py_max_list_ge _ Em _ Hin) as Hm.
    destruct (last_of_sorted_max (Hsorted d ixs Hd Eix) Elf) as [_ Hmax].
    specialize (Hmax k (I k Hk)); lia.
Qed.

Lemma X19_frames_within_n_frames_witness :
  exists st,
    TrackletStitcher_init "video_bx.pickle" crowded_pickle 3 5 true = Ok st /\
    1 <= n_frames st.
Proof.
  assert (R : returned (TrackletStitcher_init "video_bx.pickle" crowded_pickle 3 5 true)
              = true) by (vm_compute; reflexivity).
  destruct (TrackletStitcher_init "video_bx.pickle" crowded_pickle 3 5 true)
    as [st|e] eqn:E; [|discriminate R].
  exists st; split; [reflexivity|].
  destruct (@X19_frames_within_n_frames IntegerArithmetic _ _ _ _ _ _ E) as (H1 & _).
  exact H1.
Defined.

(** A fragment whose labels are not in frame order: the last label
    carries frame 4, so [n_frames] is 5, and yet the residual on frame 7
    is kept. *)
Example unordered_labels_exceed_n_frames :
  match TrackletStitcher_init "video_bx.pickle"
          (@mkPickle IntegerArithmetic (Some dlc_header)
             [[(frame_label 7, [0; 0; 1]); (frame_label 1, [0; 0; 1]);
               (frame_label 2, [0; 0; 1]); (frame_label 3, [0; 0; 1]);
               (frame_label 4, [0; 0; 1])]]) 2 3 true with
  | Ok st => Some (n_frames st, map inds (tracklets st), map inds (residuals st))
  | Err _ => None
  end = Some (5, [[1; 2; 3; 4]], [[7]]).
Proof. vm_compute; reflexivity. Qed.

(* ================================================================== *)
(** * The paths of the fallback, and empty paths                       *)
(* ================================================================== *)

Section FallbackPaths.
Context {N : Numeric} {FS : FlowSolver}.

Lemma consume_paths_length (ps : list (list node)) (g g' : DiGraph)
    (tss : list (list nat)) :
  consume_paths ps g = Ok (tss, g') -> length tss = length ps.
Proof.
  revert g g' tss; induction ps as [|p ps IH]; intros g g' tss H; simpl in H.
  - injection H as <- _; reflexivity.
  - apply bind_ok_inv in H as ([ts g1] & _ & H).
    apply bind_ok_inv in H as ([tss' g2] & E & H); injection H as <- _.
    simpl; f_equal; eapply IH; exact E.
Qed.

Lemma mapM_first_error {A B : Type} (f : A -> result B) (l : list A) (e : exn) :
  (exists x, In x l /\ f x = Err e) ->
  (forall y, In y l -> (exists b, f y = Ok b) \/ f y = Err e) ->
  mapM f l = Err e.
Proof.
  induction l as [|a l IH]; intros (x & Hx & Ex) Hall; [destruct Hx|].
  simpl; destruct (Hall a (or_introl eq_refl)) as [(b & Eb)|Ea];
    [|rewrite Ea; reflexivity].
  rewrite Eb; cbn [bind]; rewrite IH; [reflexivity| |].
  - destruct Hx as [->|Hx]; [congruence|exists x; split; assumption].
  - intros y Hy; apply Hall; right; exact Hy.
Qed.

Lemma py_sum_shape (p : list Tracklet) :
  Forall wf p ->
  match p with
  | [] => py_sum p = Ok (PInt 0)
  | _ :: _ => exists r, py_sum p = Ok (PTracklet r)
  end.
Proof.
  destruct p as [|t ts]; intros H; [reflexivity|].
  inversion H as [|? ? Ht Hts]; subst.
  destruct (merge_chain_wf Ht Hts) as (r & Er & _); exists r.
  unfold py_sum; simpl; rewrite sum_from_tracklet, Er; reflexivity.
Qed.

End FallbackPaths.



(** X21.  [sum] of an empty path is the int 0.  So when [paths] holds an
    empty path (among paths of parallel arrays), [_finalize_tracks]
    raises TypeError as soon as there is a residual to place, and
    without residuals it stores the int 0 among the tracks. *)
Theorem X21_empty_path_in_finalize {N : Numeric} (st : TrackletStitcher)
    (ps : list (list Tracklet)) :
  paths st = Some ps -> Forall (Forall wf) ps -> In [] ps ->
  (residuals st <> [] -> finalize_tracks st = (Err TypeError, st)) /\
  (residuals st = [] ->
   exists trs, finalize_tracks st = (Ok tt, set_tracks st trs) /\ In (PInt 0) trs).
Proof.
  intros HP Hwf Hin; unfold finalize_tracks; rewrite HP.
  assert (Hsum : exists trs, mapM py_sum ps = Ok trs /\ In (PInt 0) trs).
  { destruct (mapM py_sum ps) as [trs|e] eqn:E.
    - exists trs; split; [reflexivity|].
      apply (mapM_in _ _ (PInt 0) E); exists []; split; [exact Hin|reflexivity].
    - apply mapM_err in E as (p & Hp & E); rewrite Forall_forall in Hwf.
      pose proof (py_sum_shape (Hwf p Hp)) as S.
      destruct p; [congruence|destruct S as (r & S); congruence]. }
  destruct Hsum as (trs & Etrs & H0); rewrite Etrs; cbn [bind]; split.
  - intros Hne.
    destruct (residual_order (residuals st)) as [|r rs] eqn:Er.
    { exfalso; apply Hne.
      pose proof (proj1 (residual_order_spec (residuals st))) as P.
      rewrite Er in P; apply Permutation_nil in P; exact P. }
    cbn [incorporate_all]; unfold incorporate.
    rewrite (@mapM_first_error _ _ (not_in r) trs TypeError); [reflexivity| |].
    + exists (PInt 0); split; [exact H0|reflexivity].
    + intros [z|t] _; [right; reflexivity|left; eexists; reflexivity].
  - intros ->; exists trs; split; [reflexivity|exact H0].
Qed.

Lemma X21_empty_path_in_finalize_witness :
  finalize_tracks
    (mkStitcher "f.pickle" 2 None (Some [[still_tracklet 0 3 0 0]; []]) None dlc_header
       [still_tracklet 0 3 0 0] [still_tracklet 5 2 0 0] 7 [0%nat] [0%nat] None)
  = (Err TypeError,
     mkStitcher "f.pickle" 2 None (Some [[still_tracklet 0 3 0 0]; []]) None dlc_header
       [still_tracklet 0 3 0 0] [still_tracklet 5 2 0 0] 7 [0%nat] [0%nat] None).
Proof.
  apply (@X21_empty_path_in_finalize IntegerArithmetic
           (mkStitcher "f.pickle" 2 None (Some [[still_tracklet 0 3 0 0]; []]) None
              dlc_header [still_tracklet 0 3 0 0] [still_tracklet 5 2 0 0] 7
              [0%nat] [0%nat] None)
           [[still_tracklet 0 3 0 0]; []]);
    [reflexivity|repeat constructor|right; left; reflexivity|discriminate].
Defined.
